(** * Credential extraction and export formatting: a shallow embedding

    The development follows two modules of the application:

    - [src/utils/credentialExtractor.js]: the regular-expression based
      extractors ([extractFtpCredentials], [extractServerCredentials],
      [extractEmailAccounts], [extractDomainInfo], [extractDnsRecords],
      [extractAllCredentials]) and [detectCmsType];
    - [src/utils/jsonFormatter.js]: the formatters, the categoriser, the
      grouping and flattening of records, the export functions,
      [validateCredential] and [mergeCredentials], and the pattern-matching
      extractors of the analysis service ([extractFtpAccounts],
      [extractWebsites], [extractDomains], [extractEmailAccounts],
      [extractGeneralCredentials], [extractMigrationData]).

    JavaScript strings are sequences of UTF-16 code units, regular
    expressions are run by a backtracking matcher that follows the
    ECMAScript pattern semantics, RegExp objects carry their [lastIndex], and
    the [while ((m = re.exec(text)) !== null)] loops of the source are
    iterated with an explicit bound on the number of iterations, so that a
    loop that never leaves is visible as one that exhausts every bound.  A
    call that throws is a [Throw] completion. *)

From Stdlib Require Import QArith.
From Stdlib Require Import NArith String Ascii List Lia Permutation.
From stdpp Require Import base option list gmap sorting.

Local Open Scope nat_scope.

(* ===================================================================== *)
(** ** JavaScript strings *)
(* ===================================================================== *)

(** A string value: its UTF-16 code units. *)
Abbreviation jsstr := (list N).

(** Decoder for the literals of this development, which are written in
    UTF-8 and stay inside the Basic Multilingual Plane. *)
Fixpoint utf8 (bs : list N) : jsstr :=
  match bs with
  | [] => []
  | b0 :: t0 =>
      if (b0 <? 128)%N then b0 :: utf8 t0
      else if (b0 <? 224)%N then
        match t0 with
        | b1 :: t1 => ((b0 mod 32) * 64 + b1 mod 64)%N :: utf8 t1
        | [] => []
        end
      else
        match t0 with
        | b1 :: b2 :: t2 =>
            ((b0 mod 16) * 4096 + (b1 mod 64) * 64 + b2 mod 64)%N :: utf8 t2
        | _ => []
        end
  end.

Definition js (s : string) : jsstr :=
  utf8 (map N_of_ascii (list_ascii_of_string s)).

Definition jsstr_eqb (a b : jsstr) : bool := bool_decide (a = b).

(** [s.substring(a, b)]: both ends are clamped to the length and swapped
    when they come in the wrong order. *)
Definition substring (s : jsstr) (a b : nat) : jsstr :=
  let a' := Nat.min a (length s) in
  let b' := Nat.min b (length s) in
  firstn (Nat.max a' b' - Nat.min a' b') (skipn (Nat.min a' b') s).

Fixpoint starts_with (needle hay : jsstr) : bool :=
  match needle, hay with
  | [], _ => true
  | n :: needle', h :: hay' => (n =? h)%N && starts_with needle' hay'
  | _ :: _, [] => false
  end.

(** [hay.includes(needle)] *)
Fixpoint includes (hay needle : jsstr) : bool :=
  starts_with needle hay ||
  match hay with
  | [] => false
  | _ :: hay' => includes hay' needle
  end.

(** White space and line terminators of ECMAScript: the set behind [\s] and
    [String.prototype.trim]. *)
Definition is_space (c : N) : bool :=
  ((9 <=? c) && (c <=? 13) || (c =? 32) || (c =? 160) || (c =? 5760)
   || (8192 <=? c) && (c <=? 8202) || (c =? 8232) || (c =? 8233)
   || (c =? 8239) || (c =? 8287) || (c =? 12288) || (c =? 65279))%N.

Definition is_digit (c : N) : bool := ((48 <=? c) && (c <=? 57))%N.

Fixpoint trim_start (s : jsstr) : jsstr :=
  match s with
  | c :: s' => if is_space c then trim_start s' else s
  | [] => []
  end.

(** [s.trim()] *)
Definition trim (s : jsstr) : jsstr := rev (trim_start (rev (trim_start s))).

(** [s.split(sep)] for a separator of one code unit. *)
Fixpoint split_on (sep : N) (s : jsstr) : list jsstr :=
  match s with
  | [] => [[]]
  | c :: s' =>
      if (c =? sep)%N then [] :: split_on sep s'
      else match split_on sep s' with
           | piece :: pieces => (c :: piece) :: pieces
           | [] => [[c]]
           end
  end.

(** The Unicode data behind [toLowerCase]: the lower-case mappings and the
    properties Cased and Case_Ignorable of the Unicode Character Database,
    version 14.0. *)
Module Unicode.

(** Rows [(first, last, step, image)]: every [step]-th code point from
    [first] to [last] has a lower-case form of its own, [image] is the form
    of [first], and the forms follow one another as the code points do. *)
Definition lower_rows : list (N * N * N * N) :=
  [
    (65, 90, 1, 97); (192, 214, 1, 224); (216, 222, 1, 248); (256, 302, 2, 257);
    (306, 310, 2, 307); (313, 327, 2, 314); (330, 374, 2, 331); (376, 376, 1, 255);
    (377, 381, 2, 378); (385, 385, 1, 595); (386, 388, 2, 387); (390, 390, 1, 596);
    (391, 391, 1, 392); (393, 394, 1, 598); (395, 395, 1, 396); (398, 398, 1, 477);
    (399, 399, 1, 601); (400, 400, 1, 603); (401, 401, 1, 402); (403, 403, 1, 608);
    (404, 404, 1, 611); (406, 406, 1, 617); (407, 407, 1, 616); (408, 408, 1, 409);
    (412, 412, 1, 623); (413, 413, 1, 626); (415, 415, 1, 629); (416, 420, 2, 417);
    (422, 422, 1, 640); (423, 423, 1, 424); (425, 425, 1, 643); (428, 428, 1, 429);
    (430, 430, 1, 648); (431, 431, 1, 432); (433, 434, 1, 650); (435, 437, 2, 436);
    (439, 439, 1, 658); (440, 440, 1, 441); (444, 444, 1, 445); (452, 452, 1, 454);
    (453, 453, 1, 454); (455, 455, 1, 457); (456, 456, 1, 457); (458, 458, 1, 460);
    (459, 475, 2, 460); (478, 494, 2, 479); (497, 497, 1, 499); (498, 500, 2, 499);
    (502, 502, 1, 405); (503, 503, 1, 447); (504, 542, 2, 505); (544, 544, 1, 414);
    (546, 562, 2, 547); (570, 570, 1, 11365); (571, 571, 1, 572); (573, 573, 1, 410);
    (574, 574, 1, 11366); (577, 577, 1, 578); (579, 579, 1, 384); (580, 580, 1, 649);
    (581, 581, 1, 652); (582, 590, 2, 583); (880, 882, 2, 881); (886, 886, 1, 887);
    (895, 895, 1, 1011); (902, 902, 1, 940); (904, 906, 1, 941); (908, 908, 1, 972);
    (910, 911, 1, 973); (913, 929, 1, 945); (931, 939, 1, 963); (975, 975, 1, 983);
    (984, 1006, 2, 985); (1012, 1012, 1, 952); (1015, 1015, 1, 1016); (1017, 1017, 1, 1010);
    (1018, 1018, 1, 1019); (1021, 1023, 1, 891); (1024, 1039, 1, 1104); (1040, 1071, 1, 1072);
    (1120, 1152, 2, 1121); (1162, 1214, 2, 1163); (1216, 1216, 1, 1231); (1217, 1229, 2, 1218);
    (1232, 1326, 2, 1233); (1329, 1366, 1, 1377); (4256, 4293, 1, 11520); (4295, 4295, 1, 11559);
    (4301, 4301, 1, 11565); (5024, 5103, 1, 43888); (5104, 5109, 1, 5112); (7312, 7354, 1, 4304);
    (7357, 7359, 1, 4349); (7680, 7828, 2, 7681); (7838, 7838, 1, 223); (7840, 7934, 2, 7841);
    (7944, 7951, 1, 7936); (7960, 7965, 1, 7952); (7976, 7983, 1, 7968); (7992, 7999, 1, 7984);
    (8008, 8013, 1, 8000); (8025, 8025, 1, 8017); (8027, 8027, 1, 8019); (8029, 8029, 1, 8021);
    (8031, 8031, 1, 8023); (8040, 8047, 1, 8032); (8072, 8079, 1, 8064); (8088, 8095, 1, 8080);
    (8104, 8111, 1, 8096); (8120, 8121, 1, 8112); (8122, 8123, 1, 8048); (8124, 8124, 1, 8115);
    (8136, 8139, 1, 8050); (8140, 8140, 1, 8131); (8152, 8153, 1, 8144); (8154, 8155, 1, 8054);
    (8168, 8169, 1, 8160); (8170, 8171, 1, 8058); (8172, 8172, 1, 8165); (8184, 8185, 1, 8056);
    (8186, 8187, 1, 8060); (8188, 8188, 1, 8179); (8486, 8486, 1, 969); (8490, 8490, 1, 107);
    (8491, 8491, 1, 229); (8498, 8498, 1, 8526); (8544, 8559, 1, 8560); (8579, 8579, 1, 8580);
    (9398, 9423, 1, 9424); (11264, 11311, 1, 11312); (11360, 11360, 1, 11361); (11362, 11362, 1, 619);
    (11363, 11363, 1, 7549); (11364, 11364, 1, 637); (11367, 11371, 2, 11368); (11373, 11373, 1, 593);
    (11374, 11374, 1, 625); (11375, 11375, 1, 592); (11376, 11376, 1, 594); (11378, 11378, 1, 11379);
    (11381, 11381, 1, 11382); (11390, 11391, 1, 575); (11392, 11490, 2, 11393); (11499, 11501, 2, 11500);
    (11506, 11506, 1, 11507); (42560, 42604, 2, 42561); (42624, 42650, 2, 42625); (42786, 42798, 2, 42787);
    (42802, 42862, 2, 42803); (42873, 42875, 2, 42874); (42877, 42877, 1, 7545); (42878, 42886, 2, 42879);
    (42891, 42891, 1, 42892); (42893, 42893, 1, 613); (42896, 42898, 2, 42897); (42902, 42920, 2, 42903);
    (42922, 42922, 1, 614); (42923, 42923, 1, 604); (42924, 42924, 1, 609); (42925, 42925, 1, 620);
    (42926, 42926, 1, 618); (42928, 42928, 1, 670); (42929, 42929, 1, 647); (42930, 42930, 1, 669);
    (42931, 42931, 1, 43859); (42932, 42946, 2, 42933); (42948, 42948, 1, 42900); (42949, 42949, 1, 642);
    (42950, 42950, 1, 7566); (42951, 42953, 2, 42952); (42960, 42960, 1, 42961); (42966, 42968, 2, 42967);
    (42997, 42997, 1, 42998); (65313, 65338, 1, 65345); (66560, 66599, 1, 66600); (66736, 66771, 1, 66776);
    (66928, 66938, 1, 66967); (66940, 66954, 1, 66979); (66956, 66962, 1, 66995); (66964, 66965, 1, 67003);
    (68736, 68786, 1, 68800); (71840, 71871, 1, 71872); (93760, 93791, 1, 93792); (125184, 125217, 1, 125218) ]%N.

(** The code points that are Cased and not Case_Ignorable. *)
Definition cased_ranges : list (N * N) :=
  [
    (65, 90); (97, 122); (170, 170); (181, 181); (186, 186); (192, 214);
    (216, 246); (248, 442); (444, 447); (452, 659); (661, 687); (880, 883);
    (886, 887); (891, 893); (895, 895); (902, 902); (904, 906); (908, 908);
    (910, 929); (931, 1013); (1015, 1153); (1162, 1327); (1329, 1366); (1376, 1416);
    (4256, 4293); (4295, 4295); (4301, 4301); (4304, 4346); (4349, 4351); (5024, 5109);
    (5112, 5117); (7296, 7304); (7312, 7354); (7357, 7359); (7424, 7467); (7531, 7543);
    (7545, 7578); (7680, 7957); (7960, 7965); (7968, 8005); (8008, 8013); (8016, 8023);
    (8025, 8025); (8027, 8027); (8029, 8029); (8031, 8061); (8064, 8116); (8118, 8124);
    (8126, 8126); (8130, 8132); (8134, 8140); (8144, 8147); (8150, 8155); (8160, 8172);
    (8178, 8180); (8182, 8188); (8450, 8450); (8455, 8455); (8458, 8467); (8469, 8469);
    (8473, 8477); (8484, 8484); (8486, 8486); (8488, 8488); (8490, 8493); (8495, 8500);
    (8505, 8505); (8508, 8511); (8517, 8521); (8526, 8526); (8544, 8575); (8579, 8580);
    (9398, 9449); (11264, 11387); (11390, 11492); (11499, 11502); (11506, 11507); (11520, 11557);
    (11559, 11559); (11565, 11565); (42560, 42605); (42624, 42651); (42786, 42863); (42865, 42887);
    (42891, 42894); (42896, 42954); (42960, 42961); (42963, 42963); (42965, 42969); (42997, 42998);
    (43002, 43002); (43824, 43866); (43872, 43880); (43888, 43967); (64256, 64262); (64275, 64279);
    (65313, 65338); (65345, 65370); (66560, 66639); (66736, 66771); (66776, 66811); (66928, 66938);
    (66940, 66954); (66956, 66962); (66964, 66965); (66967, 66977); (66979, 66993); (66995, 67001);
    (67003, 67004); (68736, 68786); (68800, 68850); (71840, 71903); (93760, 93823); (119808, 119892);
    (119894, 119964); (119966, 119967); (119970, 119970); (119973, 119974); (119977, 119980); (119982, 119993);
    (119995, 119995); (119997, 120003); (120005, 120069); (120071, 120074); (120077, 120084); (120086, 120092);
    (120094, 120121); (120123, 120126); (120128, 120132); (120134, 120134); (120138, 120144); (120146, 120485);
    (120488, 120512); (120514, 120538); (120540, 120570); (120572, 120596); (120598, 120628); (120630, 120654);
    (120656, 120686); (120688, 120712); (120714, 120744); (120746, 120770); (120772, 120779); (122624, 122633);
    (122635, 122654); (125184, 125251); (127280, 127305); (127312, 127337); (127344, 127369) ]%N.

(** The code points that are Case_Ignorable. *)
Definition case_ignorable_ranges : list (N * N) :=
  [
    (39, 39); (46, 46); (58, 58); (94, 94); (96, 96); (168, 168);
    (173, 173); (175, 175); (180, 180); (183, 184); (688, 879); (884, 885);
    (890, 890); (900, 901); (903, 903); (1155, 1161); (1369, 1369); (1375, 1375);
    (1425, 1469); (1471, 1471); (1473, 1474); (1476, 1477); (1479, 1479); (1524, 1524);
    (1536, 1541); (1552, 1562); (1564, 1564); (1600, 1600); (1611, 1631); (1648, 1648);
    (1750, 1757); (1759, 1768); (1770, 1773); (1807, 1807); (1809, 1809); (1840, 1866);
    (1958, 1968); (2027, 2037); (2042, 2042); (2045, 2045); (2070, 2093); (2137, 2139);
    (2184, 2184); (2192, 2193); (2200, 2207); (2249, 2306); (2362, 2362); (2364, 2364);
    (2369, 2376); (2381, 2381); (2385, 2391); (2402, 2403); (2417, 2417); (2433, 2433);
    (2492, 2492); (2497, 2500); (2509, 2509); (2530, 2531); (2558, 2558); (2561, 2562);
    (2620, 2620); (2625, 2626); (2631, 2632); (2635, 2637); (2641, 2641); (2672, 2673);
    (2677, 2677); (2689, 2690); (2748, 2748); (2753, 2757); (2759, 2760); (2765, 2765);
    (2786, 2787); (2810, 2815); (2817, 2817); (2876, 2876); (2879, 2879); (2881, 2884);
    (2893, 2893); (2901, 2902); (2914, 2915); (2946, 2946); (3008, 3008); (3021, 3021);
    (3072, 3072); (3076, 3076); (3132, 3132); (3134, 3136); (3142, 3144); (3146, 3149);
    (3157, 3158); (3170, 3171); (3201, 3201); (3260, 3260); (3263, 3263); (3270, 3270);
    (3276, 3277); (3298, 3299); (3328, 3329); (3387, 3388); (3393, 3396); (3405, 3405);
    (3426, 3427); (3457, 3457); (3530, 3530); (3538, 3540); (3542, 3542); (3633, 3633);
    (3636, 3642); (3654, 3662); (3761, 3761); (3764, 3772); (3782, 3782); (3784, 3789);
    (3864, 3865); (3893, 3893); (3895, 3895); (3897, 3897); (3953, 3966); (3968, 3972);
    (3974, 3975); (3981, 3991); (3993, 4028); (4038, 4038); (4141, 4144); (4146, 4151);
    (4153, 4154); (4157, 4158); (4184, 4185); (4190, 4192); (4209, 4212); (4226, 4226);
    (4229, 4230); (4237, 4237); (4253, 4253); (4348, 4348); (4957, 4959); (5906, 5908);
    (5938, 5939); (5970, 5971); (6002, 6003); (6068, 6069); (6071, 6077); (6086, 6086);
    (6089, 6099); (6103, 6103); (6109, 6109); (6155, 6159); (6211, 6211); (6277, 6278);
    (6313, 6313); (6432, 6434); (6439, 6440); (6450, 6450); (6457, 6459); (6679, 6680);
    (6683, 6683); (6742, 6742); (6744, 6750); (6752, 6752); (6754, 6754); (6757, 6764);
    (6771, 6780); (6783, 6783); (6823, 6823); (6832, 6862); (6912, 6915); (6964, 6964);
    (6966, 6970); (6972, 6972); (6978, 6978); (7019, 7027); (7040, 7041); (7074, 7077);
    (7080, 7081); (7083, 7085); (7142, 7142); (7144, 7145); (7149, 7149); (7151, 7153);
    (7212, 7219); (7222, 7223); (7288, 7293); (7376, 7378); (7380, 7392); (7394, 7400);
    (7405, 7405); (7412, 7412); (7416, 7417); (7468, 7530); (7544, 7544); (7579, 7679);
    (8125, 8125); (8127, 8129); (8141, 8143); (8157, 8159); (8173, 8175); (8189, 8190);
    (8203, 8207); (8216, 8217); (8228, 8228); (8231, 8231); (8234, 8238); (8288, 8292);
    (8294, 8303); (8305, 8305); (8319, 8319); (8336, 8348); (8400, 8432); (11388, 11389);
    (11503, 11505); (11631, 11631); (11647, 11647); (11744, 11775); (11823, 11823); (12293, 12293);
    (12330, 12333); (12337, 12341); (12347, 12347); (12441, 12446); (12540, 12542); (40981, 40981);
    (42232, 42237); (42508, 42508); (42607, 42610); (42612, 42621); (42623, 42623); (42652, 42655);
    (42736, 42737); (42752, 42785); (42864, 42864); (42888, 42890); (42994, 42996); (43000, 43001);
    (43010, 43010); (43014, 43014); (43019, 43019); (43045, 43046); (43052, 43052); (43204, 43205);
    (43232, 43249); (43263, 43263); (43302, 43309); (43335, 43345); (43392, 43394); (43443, 43443);
    (43446, 43449); (43452, 43453); (43471, 43471); (43493, 43494); (43561, 43566); (43569, 43570);
    (43573, 43574); (43587, 43587); (43596, 43596); (43632, 43632); (43644, 43644); (43696, 43696);
    (43698, 43700); (43703, 43704); (43710, 43711); (43713, 43713); (43741, 43741); (43756, 43757);
    (43763, 43764); (43766, 43766); (43867, 43871); (43881, 43883); (44005, 44005); (44008, 44008);
    (44013, 44013); (64286, 64286); (64434, 64450); (65024, 65039); (65043, 65043); (65056, 65071);
    (65106, 65106); (65109, 65109); (65279, 65279); (65287, 65287); (65294, 65294); (65306, 65306);
    (65342, 65342); (65344, 65344); (65392, 65392); (65438, 65439); (65507, 65507); (65529, 65531);
    (66045, 66045); (66272, 66272); (66422, 66426); (67456, 67461); (67463, 67504); (67506, 67514);
    (68097, 68099); (68101, 68102); (68108, 68111); (68152, 68154); (68159, 68159); (68325, 68326);
    (68900, 68903); (69291, 69292); (69446, 69456); (69506, 69509); (69633, 69633); (69688, 69702);
    (69744, 69744); (69747, 69748); (69759, 69761); (69811, 69814); (69817, 69818); (69821, 69821);
    (69826, 69826); (69837, 69837); (69888, 69890); (69927, 69931); (69933, 69940); (70003, 70003);
    (70016, 70017); (70070, 70078); (70089, 70092); (70095, 70095); (70191, 70193); (70196, 70196);
    (70198, 70199); (70206, 70206); (70367, 70367); (70371, 70378); (70400, 70401); (70459, 70460);
    (70464, 70464); (70502, 70508); (70512, 70516); (70712, 70719); (70722, 70724); (70726, 70726);
    (70750, 70750); (70835, 70840); (70842, 70842); (70847, 70848); (70850, 70851); (71090, 71093);
    (71100, 71101); (71103, 71104); (71132, 71133); (71219, 71226); (71229, 71229); (71231, 71232);
    (71339, 71339); (71341, 71341); (71344, 71349); (71351, 71351); (71453, 71455); (71458, 71461);
    (71463, 71467); (71727, 71735); (71737, 71738); (71995, 71996); (71998, 71998); (72003, 72003);
    (72148, 72151); (72154, 72155); (72160, 72160); (72193, 72202); (72243, 72248); (72251, 72254);
    (72263, 72263); (72273, 72278); (72281, 72283); (72330, 72342); (72344, 72345); (72752, 72758);
    (72760, 72765); (72767, 72767); (72850, 72871); (72874, 72880); (72882, 72883); (72885, 72886);
    (73009, 73014); (73018, 73018); (73020, 73021); (73023, 73029); (73031, 73031); (73104, 73105);
    (73109, 73109); (73111, 73111); (73459, 73460); (78896, 78904); (92912, 92916); (92976, 92982);
    (92992, 92995); (94031, 94031); (94095, 94111); (94176, 94177); (94179, 94180); (110576, 110579);
    (110581, 110587); (110589, 110590); (113821, 113822); (113824, 113827); (118528, 118573); (118576, 118598);
    (119143, 119145); (119155, 119170); (119173, 119179); (119210, 119213); (119362, 119364); (121344, 121398);
    (121403, 121452); (121461, 121461); (121476, 121476); (121499, 121503); (121505, 121519); (122880, 122886);
    (122888, 122904); (122907, 122913); (122915, 122916); (122918, 122922); (123184, 123197); (123566, 123566);
    (123628, 123631); (125136, 125142); (125252, 125259); (127995, 127999); (917505, 917505); (917536, 917631);
    (917760, 917999) ]%N.

Definition in_ranges (ranges : list (N * N)) (c : N) : bool :=
  existsb (fun '(first, last) => (first <=? c) && (c <=? last))%N ranges.

(** The same for the upper-case forms that are one code unit long, which is
    what the matcher of a pattern with the [i] flag compares. *)
Definition upper_rows : list (N * N * N * N) :=
  [
    (97, 122, 1, 65); (181, 181, 1, 924); (224, 246, 1, 192); (248, 254, 1, 216);
    (255, 255, 1, 376); (257, 303, 2, 256); (305, 305, 1, 73); (307, 311, 2, 306);
    (314, 328, 2, 313); (331, 375, 2, 330); (378, 382, 2, 377); (383, 383, 1, 83);
    (384, 384, 1, 579); (387, 389, 2, 386); (392, 392, 1, 391); (396, 396, 1, 395);
    (402, 402, 1, 401); (405, 405, 1, 502); (409, 409, 1, 408); (410, 410, 1, 573);
    (414, 414, 1, 544); (417, 421, 2, 416); (424, 424, 1, 423); (429, 429, 1, 428);
    (432, 432, 1, 431); (436, 438, 2, 435); (441, 441, 1, 440); (445, 445, 1, 444);
    (447, 447, 1, 503); (453, 453, 1, 452); (454, 454, 1, 452); (456, 456, 1, 455);
    (457, 457, 1, 455); (459, 459, 1, 458); (460, 460, 1, 458); (462, 476, 2, 461);
    (477, 477, 1, 398); (479, 495, 2, 478); (498, 498, 1, 497); (499, 499, 1, 497);
    (501, 501, 1, 500); (505, 543, 2, 504); (547, 563, 2, 546); (572, 572, 1, 571);
    (575, 576, 1, 11390); (578, 578, 1, 577); (583, 591, 2, 582); (592, 592, 1, 11375);
    (593, 593, 1, 11373); (594, 594, 1, 11376); (595, 595, 1, 385); (596, 596, 1, 390);
    (598, 599, 1, 393); (601, 601, 1, 399); (603, 603, 1, 400); (604, 604, 1, 42923);
    (608, 608, 1, 403); (609, 609, 1, 42924); (611, 611, 1, 404); (613, 613, 1, 42893);
    (614, 614, 1, 42922); (616, 616, 1, 407); (617, 617, 1, 406); (618, 618, 1, 42926);
    (619, 619, 1, 11362); (620, 620, 1, 42925); (623, 623, 1, 412); (625, 625, 1, 11374);
    (626, 626, 1, 413); (629, 629, 1, 415); (637, 637, 1, 11364); (640, 640, 1, 422);
    (642, 642, 1, 42949); (643, 643, 1, 425); (647, 647, 1, 42929); (648, 648, 1, 430);
    (649, 649, 1, 580); (650, 651, 1, 433); (652, 652, 1, 581); (658, 658, 1, 439);
    (669, 669, 1, 42930); (670, 670, 1, 42928); (837, 837, 1, 921); (881, 883, 2, 880);
    (887, 887, 1, 886); (891, 893, 1, 1021); (940, 940, 1, 902); (941, 943, 1, 904);
    (945, 961, 1, 913); (962, 962, 1, 931); (963, 971, 1, 931); (972, 972, 1, 908);
    (973, 974, 1, 910); (976, 976, 1, 914); (977, 977, 1, 920); (981, 981, 1, 934);
    (982, 982, 1, 928); (983, 983, 1, 975); (985, 1007, 2, 984); (1008, 1008, 1, 922);
    (1009, 1009, 1, 929); (1010, 1010, 1, 1017); (1011, 1011, 1, 895); (1013, 1013, 1, 917);
    (1016, 1016, 1, 1015); (1019, 1019, 1, 1018); (1072, 1103, 1, 1040); (1104, 1119, 1, 1024);
    (1121, 1153, 2, 1120); (1163, 1215, 2, 1162); (1218, 1230, 2, 1217); (1231, 1231, 1, 1216);
    (1233, 1327, 2, 1232); (1377, 1414, 1, 1329); (4304, 4346, 1, 7312); (4349, 4351, 1, 7357);
    (5112, 5117, 1, 5104); (7296, 7296, 1, 1042); (7297, 7297, 1, 1044); (7298, 7298, 1, 1054);
    (7299, 7300, 1, 1057); (7301, 7301, 1, 1058); (7302, 7302, 1, 1066); (7303, 7303, 1, 1122);
    (7304, 7304, 1, 42570); (7545, 7545, 1, 42877); (7549, 7549, 1, 11363); (7566, 7566, 1, 42950);
    (7681, 7829, 2, 7680); (7835, 7835, 1, 7776); (7841, 7935, 2, 7840); (7936, 7943, 1, 7944);
    (7952, 7957, 1, 7960); (7968, 7975, 1, 7976); (7984, 7991, 1, 7992); (8000, 8005, 1, 8008);
    (8017, 8017, 1, 8025); (8019, 8019, 1, 8027); (8021, 8021, 1, 8029); (8023, 8023, 1, 8031);
    (8032, 8039, 1, 8040); (8048, 8049, 1, 8122); (8050, 8053, 1, 8136); (8054, 8055, 1, 8154);
    (8056, 8057, 1, 8184); (8058, 8059, 1, 8170); (8060, 8061, 1, 8186); (8112, 8113, 1, 8120);
    (8126, 8126, 1, 921); (8144, 8145, 1, 8152); (8160, 8161, 1, 8168); (8165, 8165, 1, 8172);
    (8526, 8526, 1, 8498); (8560, 8575, 1, 8544); (8580, 8580, 1, 8579); (9424, 9449, 1, 9398);
    (11312, 11359, 1, 11264); (11361, 11361, 1, 11360); (11365, 11365, 1, 570); (11366, 11366, 1, 574);
    (11368, 11372, 2, 11367); (11379, 11379, 1, 11378); (11382, 11382, 1, 11381); (11393, 11491, 2, 11392);
    (11500, 11502, 2, 11499); (11507, 11507, 1, 11506); (11520, 11557, 1, 4256); (11559, 11559, 1, 4295);
    (11565, 11565, 1, 4301); (42561, 42605, 2, 42560); (42625, 42651, 2, 42624); (42787, 42799, 2, 42786);
    (42803, 42863, 2, 42802); (42874, 42876, 2, 42873); (42879, 42887, 2, 42878); (42892, 42892, 1, 42891);
    (42897, 42899, 2, 42896); (42900, 42900, 1, 42948); (42903, 42921, 2, 42902); (42933, 42947, 2, 42932);
    (42952, 42954, 2, 42951); (42961, 42961, 1, 42960); (42967, 42969, 2, 42966); (42998, 42998, 1, 42997);
    (43859, 43859, 1, 42931); (43888, 43967, 1, 5024); (65345, 65370, 1, 65313) ]%N.

Definition row_image (rows : list (N * N * N * N)) (c : N) : N :=
  match find (fun '(first, last, step, _) =>
                (first <=? c) && (c <=? last) && ((c - first) mod step =? 0))%N
             rows with
  | Some (first, _, _, image) => (image + (c - first))%N
  | None => c
  end.

(** The lower-case form of a code point, and the upper-case form of a code
    unit: the argument itself when it has none. *)
Definition lower (c : N) : N := row_image lower_rows c.
Definition upper (c : N) : N := row_image upper_rows c.

Definition case_ignorable (c : N) : bool := in_ranges case_ignorable_ranges c.

(** Asked only of a code point that is not case-ignorable. *)
Definition cased (c : N) : bool := in_ranges cased_ranges c.

End Unicode.

(** The code points of a string: a high surrogate and the low surrogate
    after it make one code point, any other code unit is one on its own. *)
Definition is_high_surrogate (c : N) : bool := ((55296 <=? c) && (c <=? 56319))%N.
Definition is_low_surrogate (c : N) : bool := ((56320 <=? c) && (c <=? 57343))%N.

Fixpoint code_points (s : jsstr) : list N :=
  match s with
  | hi :: ((lo :: s') as tl) =>
      if is_high_surrogate hi && is_low_surrogate lo
      then (65536 + (hi - 55296) * 1024 + (lo - 56320))%N :: code_points s'
      else hi :: code_points tl
  | _ => s
  end.

Definition code_units (c : N) : jsstr :=
  (if c <? 65536 then [c]
   else [55296 + (c - 65536) / 1024; 56320 + (c - 65536) mod 1024])%N.

(** A capital sigma is in final position when a cased letter comes before
    it and none after it, case-ignorable code points in between apart. *)
Fixpoint followed_by_cased (cs : list N) : bool :=
  match cs with
  | [] => false
  | c :: cs' =>
      if Unicode.case_ignorable c then followed_by_cased cs' else Unicode.cased c
  end.

(** The lower-case form of a sequence of code points; [after_cased] tells
    whether the last code point before it that is not case-ignorable is
    cased.  U+0130 lowers to two code points, U+03A3 to the final or the
    medial small sigma. *)
Fixpoint lower_points (after_cased : bool) (cs : list N) : jsstr :=
  match cs with
  | [] => []
  | c :: cs' =>
      (if (c =? 931)%N then
         if after_cased && negb (followed_by_cased cs') then [962%N] else [963%N]
       else if (c =? 304)%N then [105%N; 775%N]
       else code_units (Unicode.lower c))
      ++ lower_points (if Unicode.case_ignorable c then after_cased else Unicode.cased c) cs'
  end.

(** [s.toLowerCase()] *)
Definition toLowerCase (s : jsstr) : jsstr := lower_points false (code_points s).

(** [Canonicalize(ch)] of a pattern with the [i] flag and without the [u]
    flag: the upper-case form of the code unit when that form is one code
    unit, except that a code unit outside Basic Latin never folds into
    Basic Latin. *)
Definition canonicalize (c : N) : N :=
  (if c <? 128 then
     if (97 <=? c) && (c <=? 122) then c - 32 else c
   else
     let cu := Unicode.upper c in
     if cu <? 128 then c else cu)%N.

(** The value of a string of decimal digits. *)
Definition decimal (s : jsstr) : N :=
  fold_left (fun acc c => (acc * 10 + (c - 48))%N) s 0%N.

(** The Numbers that stand for a non-negative integer: the integers a
    double holds exactly, and [Infinity]. *)
Inductive number :=
| Int (n : N)
| Infinity.

(** The Number for a non-negative integer: the nearest double, the even one
    of two that are equally near, and [Infinity] beyond the largest double.
    A double has 53 significant bits and a binary exponent up to 1023. *)
Definition to_double (n : N) : number :=
  (if N.size n <=? 53 then Int n
   else
     let e := N.size n - 53 in
     let q := N.shiftr n e in
     let r := N.land n (N.ones e) in
     let half := N.shiftl 1 (e - 1) in
     let rounded := N.shiftl (if (half <? r) || (r =? half) && N.odd q then q + 1 else q) e in
     if 1024 <? N.size rounded then Infinity else Int rounded)%N.

(** [parseInt(s)] on a string of decimal digits (the only strings the
    extractors hand to it): the digits are read as an integer, which is
    rounded once to a Number. *)
Definition parseInt (s : jsstr) : number := to_double (decimal s).

(* ===================================================================== *)
(** ** Regular expressions *)
(* ===================================================================== *)

(** Members of a character class. *)
Inductive citem :=
| One (c : N)              (* a literal character *)
| Range (lo hi : N)        (* [lo-hi] *)
| Space                    (* \s *)
| Digit.                   (* \d *)

(** Patterns.  Capturing groups carry their number. *)
Inductive regex :=
| Eps
| Chr (c : N)
| Cls (neg : bool) (items : list citem)
| Seq (r1 r2 : regex)
| Alt (r1 r2 : regex)
| Rep (r : regex) (min : nat) (max : option nat) (greedy : bool)
| Grp (i : nat) (r : regex)
| Bol
| Eol.

Declare Scope regex_scope.
Delimit Scope regex_scope with re.
Bind Scope regex_scope with regex.
Infix "+++" := Seq (at level 60, right associativity) : regex_scope.
Infix "<|>" := Alt (at level 65, right associativity) : regex_scope.

(** A literal run of characters. *)
Definition lit (s : string) : regex :=
  foldr (fun c r => Seq (Chr c) r) Eps (js s).

Definition star (r : regex) : regex := Rep r 0 None true.       (* r*  *)
Definition lazy_star (r : regex) : regex := Rep r 0 None false. (* r*? *)
Definition plus (r : regex) : regex := Rep r 1 None true.       (* r+  *)
Definition opt (r : regex) : regex := Rep r 0 (Some 1) true.    (* r?  *)
Definition at_least (n : nat) (r : regex) : regex := Rep r n None true.
Definition between (n m : nat) (r : regex) : regex := Rep r n (Some m) true.

(** The capturing groups inside a pattern. *)
Fixpoint groups_of (r : regex) : list nat :=
  match r with
  | Seq r1 r2 | Alt r1 r2 => groups_of r1 ++ groups_of r2
  | Rep r1 _ _ _ => groups_of r1
  | Grp i r1 => i :: groups_of r1
  | _ => []
  end.

(** The state of a match in progress: the position reached, the text that
    remains from there, and the captures made so far (most recent first). *)
Record mstate := MState {
  pos : nat;
  rest : jsstr;
  caps : list (nat * jsstr)
}.

Definition advance (s : mstate) (tl : jsstr) : mstate :=
  {| pos := S (pos s); rest := tl; caps := caps s |}.

Definition capture (i : nat) (v : jsstr) (s : mstate) : mstate :=
  {| pos := pos s; rest := rest s; caps := (i, v) :: caps s |}.

Definition uncapture (gs : list nat) (s : mstate) : mstate :=
  {| pos := pos s; rest := rest s;
     caps := filter (fun '(i, _) => i ∉ gs) (caps s) |}.

Definition same_char (ic : bool) (a b : N) : bool :=
  if ic then (canonicalize a =? canonicalize b)%N else (a =? b)%N.

Definition units (lo hi : N) : list N :=
  map N.of_nat (seq (N.to_nat lo) (S (N.to_nat hi) - N.to_nat lo)).

Definition in_item (ic : bool) (ch : N) (it : citem) : bool :=
  match it with
  | One c => same_char ic c ch
  | Range lo hi =>
      ((lo <=? ch) && (ch <=? hi))%N
      || ic && existsb (fun a => same_char true a ch) (units lo hi)
  | Space => is_space ch
  | Digit => is_digit ch
  end.

Definition in_class (ic : bool) (items : list citem) (ch : N) : bool :=
  existsb (in_item ic ch) items.

Definition orelse {A} (x : option A) (y : option A) : option A :=
  match x with
  | Some _ => x
  | None => y
  end.

(** The iterations of a quantifier, over the matcher [once] of one
    iteration.  The [min] compulsory iterations come first.  Each further
    iteration has to consume input (the specification rejects an empty
    iteration once [min] is used up), so at most as many of them as there
    are characters left can follow, and that number, [fuel], bounds the
    loop; [left] counts down the iterations [max] still allows. *)
Fixpoint rep_optional (once : mstate -> (mstate -> option mstate) -> option mstate)
    (greedy : bool) (k : mstate -> option mstate)
    (fuel : nat) (left : option nat) (s : mstate) {struct fuel} : option mstate :=
  match left, fuel with
  | Some O, _ => k s
  | _, O => k s
  | _, S fuel' =>
      let again :=
        once s (fun s' => if pos s <? pos s'
                          then rep_optional once greedy k fuel' (Nat.pred <$> left) s'
                          else None) in
      if greedy then orelse again (k s) else orelse (k s) again
  end.

Fixpoint rep_required (once : mstate -> (mstate -> option mstate) -> option mstate)
    (k : mstate -> option mstate) (n : nat) (s : mstate) {struct n} : option mstate :=
  match n with
  | S n' => once s (fun s' => rep_required once k n' s')
  | O => k s
  end.

(** The backtracking matcher, in continuation-passing style as the
    ECMAScript specification writes it: [rmatch ic r s k] matches [r] from
    state [s] and hands every end state to the continuation [k], trying the
    alternatives in priority order until [k] accepts one.  The captures of
    the groups inside a quantified pattern are cleared at each iteration. *)
Fixpoint rmatch (ic : bool) (r : regex) (s : mstate)
    (k : mstate -> option mstate) {struct r} : option mstate :=
  match r with
  | Eps => k s
  | Chr c =>
      match rest s with
      | ch :: tl => if same_char ic c ch then k (advance s tl) else None
      | [] => None
      end
  | Cls neg items =>
      match rest s with
      | ch :: tl =>
          if xorb neg (in_class ic items ch) then k (advance s tl) else None
      | [] => None
      end
  | Seq r1 r2 => rmatch ic r1 s (fun s1 => rmatch ic r2 s1 k)
  | Alt r1 r2 => orelse (rmatch ic r1 s k) (rmatch ic r2 s k)
  | Grp i r1 =>
      rmatch ic r1 s
        (fun s1 => k (capture i (firstn (pos s1 - pos s) (rest s)) s1))
  | Rep r1 min max greedy =>
      let once s0 k0 := rmatch ic r1 (uncapture (groups_of r1) s0) k0 in
      rep_required once
        (fun s0 => rep_optional once greedy k (length (rest s0))
                     ((fun m => m - min) <$> max) s0)
        min s
  | Bol => if pos s =? 0 then k s else None
  | Eol => match rest s with [] => k s | _ :: _ => None end
  end.

(** The leftmost match at or after position [p], where [tl] is the text
    from [p] on. *)
Fixpoint search (ic : bool) (r : regex) (p : nat) (tl : jsstr)
    : option (nat * mstate) :=
  match rmatch ic r {| pos := p; rest := tl; caps := [] |} Some with
  | Some s => Some (p, s)
  | None =>
      match tl with
      | [] => None
      | _ :: tl' => search ic r (S p) tl'
      end
  end.

(** A RegExp object: pattern, flags and the mutable [lastIndex]. *)
Record RegExp := {
  source : regex;
  ignoreCase : bool;
  global : bool;
  lastIndex : nat
}.

(** [/r/], [/r/i], [/r/g] and [/r/gi] as fresh objects. *)
Definition re_ (r : regex) := {| source := r; ignoreCase := false; global := false; lastIndex := 0 |}.
Definition re_i (r : regex) := {| source := r; ignoreCase := true; global := false; lastIndex := 0 |}.
Definition re_g (r : regex) := {| source := r; ignoreCase := false; global := true; lastIndex := 0 |}.
Definition re_gi (r : regex) := {| source := r; ignoreCase := true; global := true; lastIndex := 0 |}.

(** [re.lastIndex = n] *)
Definition set_lastIndex (re : RegExp) (n : nat) : RegExp :=
  {| source := source re; ignoreCase := ignoreCase re; global := global re;
     lastIndex := n |}.

(** The array a successful [exec] returns: [index], the matched text
    [m[0]] and the captures. *)
Record Match := {
  index : nat;
  matched : jsstr;
  captures : list (nat * jsstr)
}.

(** [m[i]] for a group [i]; [None] is [undefined]. *)
Definition group (m : Match) (i : nat) : option jsstr :=
  snd <$> find (fun '(j, _) => bool_decide (j = i)) (captures m).

(** [m[i]] where group [i] takes part in every match of the pattern. *)
Definition group_text (m : Match) (i : nat) : jsstr := default [] (group m i).

(** [re.exec(text)] (RegExpBuiltinExec): the search starts at [lastIndex]
    only when the [g] flag is set and at [0] otherwise; [lastIndex] is
    written only when the [g] flag is set. *)
Definition exec (re : RegExp) (text : jsstr) : RegExp * option Match :=
  let start := if global re then lastIndex re else 0 in
  if length text <? start then
    ((if global re then set_lastIndex re 0 else re), None)
  else
    match search (ignoreCase re) (source re) start (skipn start text) with
    | None => ((if global re then set_lastIndex re 0 else re), None)
    | Some (i, s) =>
        ((if global re then set_lastIndex re (pos s) else re),
         Some {| index := i;
                 matched := firstn (pos s - i) (skipn i text);
                 captures := caps s |})
    end.

(** [re.exec(text)] on a fresh object whose state is not looked at again. *)
Definition exec1 (re : RegExp) (text : jsstr) : option Match := snd (exec re text).

(** [re.test(text)] on a fresh object. *)
Definition test (re : RegExp) (text : jsstr) : bool := bool_decide (is_Some (exec1 re text)).

(** [while ((m = re.exec(text)) !== null) { body }].  The body sees the
    match and may assign [re.lastIndex] and update the variables [acc] it
    closes over.  [None]: the loop is still running after [fuel]
    iterations. *)
Fixpoint while_exec {A} (fuel : nat)
    (body : Match -> RegExp -> A -> RegExp * A)
    (re : RegExp) (text : jsstr) (acc : A) : option (RegExp * A) :=
  match fuel with
  | O => None
  | S fuel' =>
      match exec re text with
      | (re', None) => Some (re', acc)
      | (re', Some m) =>
          let '(re'', acc') := body m re' acc in
          while_exec fuel' body re'' text acc'
      end
  end.

(** [for (const pattern of patterns) { const m = pattern.exec(text);
    if (m) { ...; break; } }]: the first pattern of the list that matches. *)
Fixpoint first_match (patterns : list RegExp) (text : jsstr) : option Match :=
  match patterns with
  | [] => None
  | p :: ps => orelse (exec1 p text) (first_match ps text)
  end.

(** [for (const pattern of patterns) { while ((m = pattern.exec(text)) !== null)
    { body } }], also written [patterns.forEach(pattern => { while ... })]. *)
Fixpoint collect {A} (fuel : nat) (body : Match -> RegExp -> A -> RegExp * A)
    (patterns : list RegExp) (text : jsstr) (found : A) : option A :=
  match patterns with
  | [] => Some found
  | pattern :: patterns' =>
      r ← while_exec fuel body pattern text found;
      collect fuel body patterns' text r.2
  end.

(* ===================================================================== *)
(** ** Exceptions *)
(* ===================================================================== *)

(** Exceptions: the [Error] objects the module throws itself, with their
    message, and the [TypeError] of the platform. *)
Inductive exn :=
| Error (message : jsstr)
| TypeError.

(** The completion of a call: a value, or a thrown exception. *)
Inductive completion (A : Type) :=
| Normal (a : A)
| Throw (e : exn).
Arguments Normal {A} a.
Arguments Throw {A} e.

Global Instance completion_ret : MRet completion := fun A a => Normal a.
Global Instance completion_bind : MBind completion := fun A B f m =>
  match m with
  | Normal a => f a
  | Throw e => Throw e
  end.
Global Instance completion_fmap : FMap completion := fun A B f m =>
  match m with
  | Normal a => Normal (f a)
  | Throw e => Throw e
  end.

(** [patterns.exec(text)] where [patterns] is an array of RegExp objects
    and not one of them: an array has no property [exec], of its own or
    inherited, so the callee is [undefined] and the call throws a
    [TypeError]. *)
Definition Array_exec (patterns : list RegExp) (text : jsstr) : completion (option Match) :=
  Throw TypeError.

(** [while ((m = re.exec(text)) !== null) { body }] with a body that may
    throw; the exception leaves the loop. *)
Fixpoint while_exec_try {A} (fuel : nat)
    (body : Match -> RegExp -> A -> completion (RegExp * A))
    (re : RegExp) (text : jsstr) (acc : A) : option (completion (RegExp * A)) :=
  match fuel with
  | O => None
  | S fuel' =>
      match exec re text with
      | (re', None) => Some (Normal (re', acc))
      | (re', Some m) =>
          match body m re' acc with
          | Normal (re'', acc') => while_exec_try fuel' body re'' text acc'
          | Throw e => Some (Throw e)
          end
      end
  end.

(* ===================================================================== *)
(** ** Shared pieces of the patterns *)
(* ===================================================================== *)

(** The code unit of a one-character literal. *)
Definition cu (s : string) : N := hd 0%N (js s).

Definition ws : regex := Cls false [Space].                      (* \s *)
Definition digit : regex := Cls false [Digit].                   (* \d *)
Definition alpha : list citem := [Range (cu "a") (cu "z"); Range (cu "A") (cu "Z")].
Definition alnum : list citem := alpha ++ [Range (cu "0") (cu "9")].

(** [[a-zA-Z0-9.-]+\.[a-zA-Z]{2,}] *)
Definition hostname : regex :=
  (plus (Cls false (alnum ++ [One (cu "."); One (cu "-")]))
   +++ lit "." +++ at_least 2 (Cls false alpha))%re.

(** [[a-zA-Z0-9._-]+] *)
Definition account_name : regex :=
  plus (Cls false (alnum ++ [One (cu "."); One (cu "_"); One (cu "-")])).

(** [[^\s,;]+] *)
Definition secret : regex := plus (Cls true [Space; One (cu ","); One (cu ";")]).

(** [[^:]*?] *)
Definition up_to_colon : regex := lazy_star (Cls true [One (cu ":")]).

(** [\d{1,3}\.\d{1,3}\.\d{1,3}\.\d{1,3}] *)
Definition ipv4 : regex :=
  (between 1 3 digit +++ lit "." +++ between 1 3 digit +++ lit "."
   +++ between 1 3 digit +++ lit "." +++ between 1 3 digit)%re.

(** A string is truthy when it is not empty. *)
Definition str_truthy (s : jsstr) : bool :=
  match s with [] => false | _ :: _ => true end.

(** Modelled from the spec: [getNearbyText(text, index, radius)], which the
    extractor calls and whose definition is not part of the sources at hand.
    The specification describes it as the window of [radius] characters
    around an anchor position, clipped at the bounds of the text. *)
Definition getNearbyText (text : jsstr) (index radius : nat) : jsstr :=
  substring text (Nat.max 0 (index - radius)) (Nat.min (length text) (index + radius)).

(* ===================================================================== *)
(** ** [extractFtpCredentials] *)
(* ===================================================================== *)

Module FtpPatterns.

(** [/(?:serwer(?:a)?\s*FTP|adres\s*FTP):\s*([a-zA-Z0-9.-]+\.[a-zA-Z]{2,})/i],
    [/FTP:\s*([a-zA-Z0-9.-]+\.[a-zA-Z]{2,})/i],
    [/(?:FTP|serwer\s+FTP)(?:[^:]*?)(?:jest|to)?(?::\s*|\s+)([a-zA-Z0-9.-]+\.[a-zA-Z]{2,})/i] *)
Definition ftpServer : list RegExp :=
  [ re_i ((lit "serwer" +++ opt (lit "a") +++ star ws +++ lit "FTP"
           <|> lit "adres" +++ star ws +++ lit "FTP")
          +++ lit ":" +++ star ws +++ Grp 1 hostname);
    re_i (lit "FTP:" +++ star ws +++ Grp 1 hostname);
    re_i ((lit "FTP" <|> lit "serwer" +++ plus ws +++ lit "FTP")
          +++ up_to_colon +++ opt (lit "jest" <|> lit "to")
          +++ (lit ":" +++ star ws <|> plus ws) +++ Grp 1 hostname) ]%re.

(** [/(?:login|username|user|użytkownik(?:a)?|nazwa\s*użytkownika)(?:\s+FTP)?:\s*([a-zA-Z0-9._-]+)/i],
    [/(?:FTP|serwer\s+FTP)(?:[^:]*?)(?:login|username|user):\s*([a-zA-Z0-9._-]+)/i] *)
Definition ftpUsername : list RegExp :=
  [ re_i ((lit "login" <|> lit "username" <|> lit "user"
           <|> lit "użytkownik" +++ opt (lit "a")
           <|> lit "nazwa" +++ star ws +++ lit "użytkownika")
          +++ opt (plus ws +++ lit "FTP") +++ lit ":" +++ star ws
          +++ Grp 1 account_name);
    re_i ((lit "FTP" <|> lit "serwer" +++ plus ws +++ lit "FTP")
          +++ up_to_colon +++ (lit "login" <|> lit "username" <|> lit "user")
          +++ lit ":" +++ star ws +++ Grp 1 account_name) ]%re.

(** [/(?:hasło|haslo|password|pass|pwd)(?:\s+FTP)?:\s*([^\s,;]+)/i],
    [/(?:FTP|serwer\s+FTP)(?:[^:]*?)(?:hasło|haslo|password|pass):\s*([^\s,;]+)/i] *)
Definition ftpPassword : list RegExp :=
  [ re_i ((lit "hasło" <|> lit "haslo" <|> lit "password" <|> lit "pass"
           <|> lit "pwd")
          +++ opt (plus ws +++ lit "FTP") +++ lit ":" +++ star ws
          +++ Grp 1 secret);
    re_i ((lit "FTP" <|> lit "serwer" +++ plus ws +++ lit "FTP")
          +++ up_to_colon
          +++ (lit "hasło" <|> lit "haslo" <|> lit "password" <|> lit "pass")
          +++ lit ":" +++ star ws +++ Grp 1 secret) ]%re.

(** [/(?:port\s+FTP|FTP\s+port):\s*(\d+)/i] *)
Definition ftpPort : list RegExp :=
  [ re_i ((lit "port" +++ plus ws +++ lit "FTP"
           <|> lit "FTP" +++ plus ws +++ lit "port")
          +++ lit ":" +++ star ws +++ Grp 1 (plus digit)) ]%re.

(** [/(?:adres\s*IP|IP):\s*(\d{1,3}\.\d{1,3}\.\d{1,3}\.\d{1,3})/gi] *)
Definition ipRegex : RegExp :=
  re_gi ((lit "adres" +++ star ws +++ lit "IP" <|> lit "IP")
         +++ lit ":" +++ star ws +++ Grp 1 ipv4)%re.

End FtpPatterns.

(** An entry of the [ftpServers] array. *)
Record serverAnchor := {
  anchor_server : jsstr;
  anchor_index : nat
}.

(** An element of the array [extractFtpCredentials] returns.  A password of
    [None] is [null]. *)
Record ftpAccount := {
  ftp_server : jsstr;
  ftp_username : jsstr;
  ftp_password : option jsstr;
  ftp_port : number;
  ftp_type : jsstr;
  ftp_confidence : Q
}.

(** The body of the loop over one server pattern: push the server with its
    position, then assign [pattern.lastIndex]. *)
Definition push_server (m : Match) (pattern : RegExp) (ftpServers : list serverAnchor)
    : RegExp * list serverAnchor :=
  (set_lastIndex pattern (index m + length (matched m)),
   ftpServers ++ [{| anchor_server := group_text m 1; anchor_index := index m |}]).

(** The body of the loop over IP addresses. *)
Definition push_ftp_ip (text : jsstr) (ipMatch : Match) (ipRegex : RegExp)
    (ftpServers : list serverAnchor) : RegExp * list serverAnchor :=
  let nearbyText := getNearbyText text (index ipMatch) 50 in
  if includes (toLowerCase nearbyText) (js "ftp")
     || (includes (toLowerCase nearbyText) (js "serwer")
         && negb (includes (toLowerCase nearbyText) (js "mail")))
  then (ipRegex,
        ftpServers ++ [{| anchor_server := group_text ipMatch 1;
                          anchor_index := index ipMatch |}])
  else (ipRegex, ftpServers).

(** The body of [ftpServers.forEach]: the account found around one server,
    if a user name is found there. *)
Definition ftp_account_near (text : jsstr) (server : serverAnchor) : option ftpAccount :=
  let nearbyText := getNearbyText text (anchor_index server) 300 in
  let username := (fun m => group_text m 1) <$> first_match FtpPatterns.ftpUsername nearbyText in
  let password := (fun m => group_text m 1) <$> first_match FtpPatterns.ftpPassword nearbyText in
  let port := (fun m => parseInt (group_text m 1)) <$> first_match FtpPatterns.ftpPort nearbyText in
  match username with
  | Some username =>
      if str_truthy username then
        Some {| ftp_server := anchor_server server;
                ftp_username := username;
                ftp_password := password;
                ftp_port := match port with
                            | Some (Int 0) | None => Int 21
                            | Some p => p
                            end;
                ftp_type := js "ftp";
                ftp_confidence := match password with
                                  | Some p => if str_truthy p then 0.9%Q else 0.7%Q
                                  | None => 0.7%Q
                                  end |}
      else None
  | None => None
  end.

(** [extractFtpCredentials(text)].  [None]: one of its loops is still
    running after [fuel] iterations. *)
Definition extractFtpCredentials (fuel : nat) (text : jsstr) : option (list ftpAccount) :=
  ftpServers ← collect fuel push_server FtpPatterns.ftpServer text [];
  found ← while_exec fuel (push_ftp_ip text) FtpPatterns.ipRegex text ftpServers;
  Some (omap (M:=list) (ftp_account_near text) (snd found)).

(* ===================================================================== *)
(** ** [extractServerCredentials] *)
(* ===================================================================== *)

Module ServerPatterns.

(** [[^\s]+] and [[^\s]*] *)
Definition not_space : regex := Cls true [Space].

(** [https?:\/\/] *)
Definition http : regex := (lit "http" +++ opt (lit "s") +++ lit "://")%re.

(** [/(?:cPanel|panel|panel\s+administracyjny)(?:[^:]*?)(?:jest|to)?(?::\s*|\s+)(https?:\/\/[^\s]+)/i],
    [/(https?:\/\/[^/\s]+(?:\/cpsess\d+\/|\/cpanel|\/panel|\/whm|:[0-9]+\/)[^\s]* )/i]
    (written here with a blank before the closing parenthesis of the group) *)
Definition cpanel : list RegExp :=
  [ re_i ((lit "cPanel" <|> lit "panel" <|> lit "panel" +++ plus ws +++ lit "administracyjny")
          +++ up_to_colon +++ opt (lit "jest" <|> lit "to")
          +++ (lit ":" +++ star ws <|> plus ws)
          +++ Grp 1 (http +++ plus not_space));
    re_i (Grp 1 (http +++ plus (Cls true [One (cu "/"); Space])
                 +++ (lit "/cpsess" +++ plus digit +++ lit "/"
                      <|> lit "/cpanel" <|> lit "/panel" <|> lit "/whm"
                      <|> lit ":" +++ plus (Cls false [Range (cu "0") (cu "9")]) +++ lit "/")
                 +++ star not_space)) ]%re.

(** [/(?:adres\s+panelu|panel):\s*(https?:\/\/[^\s,;]+)/i] *)
Definition panelUrl : list RegExp :=
  [ re_i ((lit "adres" +++ plus ws +++ lit "panelu" <|> lit "panel")
          +++ lit ":" +++ star ws +++ Grp 1 (http +++ secret)) ]%re.

(** [/(?:adres\s+serwera|serwer|server):\s*([a-zA-Z0-9.-]+\.[a-zA-Z]{2,})/i],
    [/(?:host(?:ing)?):\s*([a-zA-Z0-9.-]+\.[a-zA-Z]{2,})/i] *)
Definition serverAddress : list RegExp :=
  [ re_i ((lit "adres" +++ plus ws +++ lit "serwera" <|> lit "serwer" <|> lit "server")
          +++ lit ":" +++ star ws +++ Grp 1 hostname);
    re_i (lit "host" +++ opt (lit "ing") +++ lit ":" +++ star ws +++ Grp 1 hostname) ]%re.

(** [/(?:login|username|user|użytkownik(?:a)?|nazwa\s*użytkownika):\s*([a-zA-Z0-9._-]+)/i] *)
Definition username : list RegExp :=
  [ re_i ((lit "login" <|> lit "username" <|> lit "user"
           <|> lit "użytkownik" +++ opt (lit "a")
           <|> lit "nazwa" +++ star ws +++ lit "użytkownika")
          +++ lit ":" +++ star ws +++ Grp 1 account_name) ]%re.

(** [/(?:hasło|haslo|password|pass|pwd):\s*([^\s,;]+)/i] *)
Definition password : list RegExp :=
  [ re_i ((lit "hasło" <|> lit "haslo" <|> lit "password" <|> lit "pass" <|> lit "pwd")
          +++ lit ":" +++ star ws +++ Grp 1 secret) ]%re.

End ServerPatterns.

(** An entry of the [panelUrls] array. *)
Record panelAnchor := {
  panel_url : jsstr;
  panel_type : jsstr;
  panel_index : nat
}.

(** An element of the array [extractServerCredentials] returns: a panel has
    a [url] and no [server], a server the other way round ([None]: the
    property is absent); a user name or password of [None] is [null]. *)
Record serverCredential := {
  srv_url : option jsstr;
  srv_server : option jsstr;
  srv_username : option jsstr;
  srv_password : option jsstr;
  srv_type : jsstr;
  srv_confidence : Q
}.

Definition opt_truthy (s : option jsstr) : bool :=
  match s with
  | Some s => str_truthy s
  | None => false
  end.

(** The bodies of the three collecting loops; each assigns
    [pattern.lastIndex] at its end. *)
Definition push_cpanel (m : Match) (pattern : RegExp) (panelUrls : list panelAnchor)
    : RegExp * list panelAnchor :=
  (set_lastIndex pattern (index m + length (matched m)),
   panelUrls ++ [{| panel_url := group_text m 1; panel_type := js "cpanel";
                    panel_index := index m |}]).

Definition push_panelUrl (m : Match) (pattern : RegExp) (panelUrls : list panelAnchor)
    : RegExp * list panelAnchor :=
  let url := group_text m 1 in
  let type :=
    if includes url (js "cpanel") || includes url (js "cpsess") || includes url (js "whm")
    then js "cpanel"
    else if includes url (js "plesk") then js "plesk"
    else if includes url (js "directadmin") then js "directadmin"
    else js "panel" in
  (set_lastIndex pattern (index m + length (matched m)),
   panelUrls ++ [{| panel_url := url; panel_type := type; panel_index := index m |}]).

(** The bodies of the two [forEach] that look for credentials. *)
Definition panel_credential (text : jsstr) (panel : panelAnchor) : serverCredential :=
  let nearbyText := getNearbyText text (panel_index panel) 400 in
  let username := (fun m => group_text m 1) <$> first_match ServerPatterns.username nearbyText in
  let password := (fun m => group_text m 1) <$> first_match ServerPatterns.password nearbyText in
  {| srv_url := Some (panel_url panel);
     srv_server := None;
     srv_username := username;
     srv_password := password;
     srv_type := panel_type panel;
     srv_confidence := if opt_truthy username && opt_truthy password then 0.9%Q else 0.7%Q |}.

Definition server_credential (text : jsstr) (server : serverAnchor) : option serverCredential :=
  let nearbyText := getNearbyText text (anchor_index server) 400 in
  let username := (fun m => group_text m 1) <$> first_match ServerPatterns.username nearbyText in
  let password := (fun m => group_text m 1) <$> first_match ServerPatterns.password nearbyText in
  if opt_truthy username then
    Some {| srv_url := None;
            srv_server := Some (anchor_server server);
            srv_username := username;
            srv_password := password;
            srv_type := js "server";
            srv_confidence := if opt_truthy password then 0.9%Q else 0.7%Q |}
  else None.

(** [extractServerCredentials(text)].  [None]: one of its loops is still
    running after [fuel] iterations. *)
Definition extractServerCredentials (fuel : nat) (text : jsstr)
    : option (list serverCredential) :=
  panelUrls ← collect fuel push_cpanel ServerPatterns.cpanel text [];
  panelUrls ← collect fuel push_panelUrl ServerPatterns.panelUrl text panelUrls;
  servers ← collect fuel push_server ServerPatterns.serverAddress text [];
  Some (map (panel_credential text) panelUrls
        ++ omap (M:=list) (server_credential text) servers).

(* ===================================================================== *)
(** ** [extractEmailAccounts] *)
(* ===================================================================== *)

(** The properties of the object [patterns] of this function: each holds
    an array of RegExp objects, also where the array has one element. *)
Module EmailPatterns.

(** [/([a-zA-Z0-9._%+-]+@[a-zA-Z0-9.-]+\.[a-zA-Z]{2,})/g] *)
Definition emailAddress : list RegExp :=
  [ re_g (Grp 1 (plus (Cls false (alnum ++ [One (cu "."); One (cu "_"); One (cu "%");
                                            One (cu "+"); One (cu "-")]))
                 +++ lit "@" +++ hostname)) ]%re.

(** [/(?:dane|konfiguracja)\s+(?:do\s+)?(?:poczty|klient(?:a|ów)\s+pocztow)/i] *)
Definition emailConfig : list RegExp :=
  [ re_i ((lit "dane" <|> lit "konfiguracja") +++ plus ws
          +++ opt (lit "do" +++ plus ws)
          +++ (lit "poczty"
               <|> lit "klient" +++ (lit "a" <|> lit "ów") +++ plus ws
                   +++ lit "pocztow")) ]%re.

(** [/(?:serwer(?:a)?\s+(?:poczty|pocztow[ya])|mail\s+server)(?:\s+(?:wychodząc(?:ej|a)|przychodzac(?:ej|a))?)?(?:\s*(?:to|jest|:))?\s*([a-zA-Z0-9.-]+\.[a-zA-Z]{2,})/i],
    [/(?:IMAP|POP3|SMTP)(?:[^:]*?)(?:jest|to)?(?::\s*|\s+)([a-zA-Z0-9.-]+\.[a-zA-Z]{2,})/i] *)
Definition mailServer : list RegExp :=
  [ re_i ((lit "serwer" +++ opt (lit "a") +++ plus ws
           +++ (lit "poczty" <|> lit "pocztow" +++ Cls false [One (cu "y"); One (cu "a")])
           <|> lit "mail" +++ plus ws +++ lit "server")
          +++ opt (plus ws
                   +++ opt (lit "wychodząc" +++ (lit "ej" <|> lit "a")
                            <|> lit "przychodzac" +++ (lit "ej" <|> lit "a")))
          +++ opt (star ws +++ (lit "to" <|> lit "jest" <|> lit ":"))
          +++ star ws +++ Grp 1 hostname);
    re_i ((lit "IMAP" <|> lit "POP3" <|> lit "SMTP")
          +++ up_to_colon +++ opt (lit "jest" <|> lit "to")
          +++ (lit ":" +++ star ws <|> plus ws) +++ Grp 1 hostname) ]%re.

(** [/(?:hasło|haslo|password|pass|pwd)(?:\s+(?:poczty|email|mail))?:\s*([^\s,;]+)/i] *)
Definition password : list RegExp :=
  [ re_i ((lit "hasło" <|> lit "haslo" <|> lit "password" <|> lit "pass" <|> lit "pwd")
          +++ opt (plus ws +++ (lit "poczty" <|> lit "email" <|> lit "mail"))
          +++ lit ":" +++ star ws +++ Grp 1 secret) ]%re.

(** [/(?:port\s+IMAP|IMAP[^:]*?port):\s*(\d+)/i] *)
Definition imapPort : list RegExp :=
  [ re_i ((lit "port" +++ plus ws +++ lit "IMAP"
           <|> lit "IMAP" +++ up_to_colon +++ lit "port")
          +++ lit ":" +++ star ws +++ Grp 1 (plus digit)) ]%re.

(** [/(?:port\s+SMTP|SMTP[^:]*?port):\s*(\d+)/i] *)
Definition smtpPort : list RegExp :=
  [ re_i ((lit "port" +++ plus ws +++ lit "SMTP"
           <|> lit "SMTP" +++ up_to_colon +++ lit "port")
          +++ lit ":" +++ star ws +++ Grp 1 (plus digit)) ]%re.

(** [/(?:port\s+POP3?|POP3?[^:]*?port):\s*(\d+)/i] *)
Definition popPort : list RegExp :=
  [ re_i ((lit "port" +++ plus ws +++ lit "POP" +++ opt (lit "3")
           <|> lit "POP" +++ opt (lit "3") +++ up_to_colon +++ lit "port")
          +++ lit ":" +++ star ws +++ Grp 1 (plus digit)) ]%re.

End EmailPatterns.

(** The [mailServerConfig] object. *)
Record mailServerConfig := {
  cfg_server : jsstr;
  cfg_imapPort : number;
  cfg_smtpPort : number;
  cfg_popPort : number;
  cfg_encryption : jsstr
}.

(** An element of the array [extractEmailAccounts] returns; [None] in a
    field is [null]. *)
Record emailAccount := {
  mail_email : jsstr;
  mail_password : option jsstr;
  mail_server : option jsstr;
  mail_imapPort : option number;
  mail_smtpPort : option number;
  mail_popPort : option number;
  mail_encryption : option jsstr;
  mail_type : jsstr;
  mail_confidence : Q
}.

(** The mail server configuration section of the text, if there is one.
    The code calls [exec] on the arrays [patterns.emailConfig],
    [patterns.imapPort], [patterns.smtpPort] and [patterns.popPort]; over
    [patterns.mailServer] it iterates. *)
Definition find_mailServerConfig (text : jsstr) : completion (option mailServerConfig) :=
  configMatch ← Array_exec EmailPatterns.emailConfig text;
  match configMatch with
  | Some configMatch =>
      let configSectionText :=
        substring text (index configMatch)
          (Nat.min (length text) (index configMatch + 800)) in
      match first_match EmailPatterns.mailServer configSectionText with
      | Some serverMatch =>
          imapPortMatch ← Array_exec EmailPatterns.imapPort configSectionText;
          smtpPortMatch ← Array_exec EmailPatterns.smtpPort configSectionText;
          popPortMatch ← Array_exec EmailPatterns.popPort configSectionText;
          let port_or (portMatch : option Match) (d : number) :=
            match portMatch with
            | Some m => parseInt (group_text m 1)
            | None => d
            end in
          Normal (Some {| cfg_server := group_text serverMatch 1;
                          cfg_imapPort := port_or imapPortMatch (Int 993);
                          cfg_smtpPort := port_or smtpPortMatch (Int 465);
                          cfg_popPort := port_or popPortMatch (Int 995);
                          cfg_encryption := js "SSL/TLS" |})
      | None => Normal None
      end
  | None => Normal None
  end.

(** [text.substring(Math.max(0, emailMatch.index - 20), emailMatch.index)] *)
Definition preText (text : jsstr) (emailMatch : Match) : jsstr :=
  substring text (Nat.max 0 (index emailMatch - 20)) (index emailMatch).

(** The test that makes the loop skip an address: it looks like part of
    login credentials. *)
Definition looks_like_login (text : jsstr) (emailMatch : Match) : bool :=
  includes (toLowerCase (preText text emailMatch)) (js "login")
  || includes (toLowerCase (preText text emailMatch)) (js "user")
  || includes (toLowerCase (preText text emailMatch)) (js "nazwa użytkownika").

(** The body of the loop over e-mail addresses: an address that looks like
    a login is skipped; for any other the code calls [exec] on the array
    [patterns.password]. *)
Definition push_email (text : jsstr) (mailServerConfig : option mailServerConfig)
    (emailMatch : Match) (pattern : RegExp) (emailAccounts : list emailAccount)
    : completion (RegExp * list emailAccount) :=
  let email := group_text emailMatch 1 in
  let nearbyText := getNearbyText text (index emailMatch) 300 in
  if looks_like_login text emailMatch then Normal (pattern, emailAccounts)   (* continue *)
  else
    let isMigrationEmail :=
      includes (toLowerCase nearbyText) (js "migracj")
      || includes (toLowerCase nearbyText) (js "przeniesieni")
      || includes (toLowerCase nearbyText) (js "skrzynki")
      || includes (toLowerCase nearbyText) (js "pocztow") in
    passwordMatch ← Array_exec EmailPatterns.password nearbyText;
    let password := (fun m => group_text m 1) <$> passwordMatch in
    if isMigrationEmail || bool_decide (is_Some mailServerConfig) then
      Normal
        (pattern,
         emailAccounts ++
         [{| mail_email := email;
             mail_password := password;
             mail_server := cfg_server <$> mailServerConfig;
             mail_imapPort := cfg_imapPort <$> mailServerConfig;
             mail_smtpPort := cfg_smtpPort <$> mailServerConfig;
             mail_popPort := cfg_popPort <$> mailServerConfig;
             mail_encryption := cfg_encryption <$> mailServerConfig;
             mail_type := js "email";
             mail_confidence := match password with
                                | Some p => if str_truthy p then 0.9%Q else 0.7%Q
                                | None => 0.7%Q
                                end |}])
    else Normal (pattern, emailAccounts).

(** [extractEmailAccounts(text)].  The pattern of the loop is
    [patterns.emailAddress[0]].  [None]: the loop is still running after
    [fuel] iterations. *)
Definition extractEmailAccounts (fuel : nat) (text : jsstr)
    : option (completion (list emailAccount)) :=
  match find_mailServerConfig text with
  | Throw e => Some (Throw e)
  | Normal mailServerConfig =>
      match EmailPatterns.emailAddress with
      | pattern :: _ =>
          (fun found : completion (RegExp * list emailAccount) => snd <$> found)
          <$> while_exec_try fuel (push_email text mailServerConfig) pattern text []
      | [] => Some (Throw TypeError)
      end
  end.

(* ===================================================================== *)
(** ** [extractDomainInfo] *)
(* ===================================================================== *)

Module DomainPatterns.

(** The optional separator between the keyword and the domain: white space,
    or a colon with optional white space around it. *)
Definition separator : regex := opt (plus ws <|> star ws +++ lit ":" +++ star ws)%re.

(** [/(?:domen(?:y|ę)|domain)SEP?([a-zA-Z0-9.-]+\.[a-zA-Z]{2,})/gi],
    [/(?:przekierowanie|przeniesienie)\s+(?:domeny|domen(?:y)?)SEP?([a-zA-Z0-9.-]+\.[a-zA-Z]{2,})/gi]
    where SEP is the group [(?:\s+|\s*:\s* )] of [separator]. *)
Definition domain : list RegExp :=
  [ re_gi ((lit "domen" +++ (lit "y" <|> lit "ę") <|> lit "domain")
           +++ separator +++ Grp 1 hostname);
    re_gi ((lit "przekierowanie" <|> lit "przeniesienie") +++ plus ws
           +++ (lit "domeny" <|> lit "domen" +++ opt (lit "y"))
           +++ separator +++ Grp 1 hostname) ]%re.

(** [/(?:serwer(?:y|ów)?\s*(?:DNS|nazw)|nameserver(?:s)?)(?:[^:]*?):/i],
    [/(?:adresy?\s+serwerów\s+DNS|DNS(?:\s+servers)?)\s+(?:potrzebne|to)(?:[^:]*?):/i] *)
Definition nameserverSection : list RegExp :=
  [ re_i ((lit "serwer" +++ opt (lit "y" <|> lit "ów") +++ star ws
           +++ (lit "DNS" <|> lit "nazw")
           <|> lit "nameserver" +++ opt (lit "s"))
          +++ up_to_colon +++ lit ":");
    re_i ((lit "adres" +++ opt (lit "y") +++ plus ws +++ lit "serwerów"
           +++ plus ws +++ lit "DNS"
           <|> lit "DNS" +++ opt (plus ws +++ lit "servers"))
          +++ plus ws +++ (lit "potrzebne" <|> lit "to")
          +++ up_to_colon +++ lit ":") ]%re.

(** [(?:ns\d+|NS\d+)] *)
Definition ns_label : regex := (lit "ns" +++ plus digit <|> lit "NS" +++ plus digit)%re.

(** [/(?:ns\d+|NS\d+)\.([a-zA-Z0-9.-]+\.[a-zA-Z]{2,})/g],
    [/(?:ns\d+|NS\d+)(?:\s*[=:]\s*|\s+)([a-zA-Z0-9.-]+\.[a-zA-Z]{2,})/g] *)
Definition nameserver : list RegExp :=
  [ re_g (ns_label +++ lit "." +++ Grp 1 hostname);
    re_g (ns_label
          +++ (star ws +++ Cls false [One (cu "="); One (cu ":")] +++ star ws
               <|> plus ws)
          +++ Grp 1 hostname) ]%re.

(** [/^[a-zA-Z0-9.-]+\.[a-zA-Z]{2,}$/] *)
Definition hostnameLine : RegExp := re_ (Bol +++ hostname +++ Eol)%re.

(** [/(https?:\/\/([a-zA-Z0-9.-]+\.[a-zA-Z]{2,}))/gi] *)
Definition websiteRegex : RegExp :=
  re_gi (Grp 1 (lit "http" +++ opt (lit "s") +++ lit "://" +++ Grp 2 hostname))%re.

End DomainPatterns.

(** An element of the array [extractDomainInfo] returns. *)
Record domainInfo := {
  dom_domain : jsstr;
  dom_nameservers : list jsstr;
  dom_type : jsstr;
  dom_index : nat;
  dom_confidence : Q
}.

(** [if (!arr.includes(x)) arr.push(x)] *)
Definition push_new (x : jsstr) (arr : list jsstr) : list jsstr :=
  if bool_decide (x ∈ arr) then arr else arr ++ [x].

(** The body of the loop over the matches of one nameserver pattern. *)
Definition push_nameserver (nsEntryMatch : Match) (nsPattern : RegExp)
    (nameservers : list jsstr) : RegExp * list jsstr :=
  let fullNs :=
    if includes (matched nsEntryMatch) (js ".") then matched nsEntryMatch
    else js "ns." ++ group_text nsEntryMatch 1 in
  (nsPattern, push_new fullNs nameservers).

(** [for (let i = 1; i < nsLines.length; i++)]: the lines after the header
    that hold nothing but a host name. *)
Definition push_hostname_lines (nsLines : list jsstr) (nameservers : list jsstr) : list jsstr :=
  foldl (fun nameservers nsLine =>
           let line := trim nsLine in
           if test DomainPatterns.hostnameLine line then push_new line nameservers
           else nameservers)
        nameservers (skipn 1 nsLines).

(** The nameservers of the first nameserver section of the text. *)
Definition find_nameservers (fuel : nat) (text : jsstr) : option (list jsstr) :=
  match first_match DomainPatterns.nameserverSection text with
  | Some nsMatch =>
      let nsBlockStart := index nsMatch in
      let nsBlock := substring text nsBlockStart (Nat.min (length text) (nsBlockStart + 400)) in
      nameservers ← collect fuel push_nameserver DomainPatterns.nameserver nsBlock [];
      Some (push_hostname_lines (split_on 10%N nsBlock) nameservers)
  | None => Some []
  end.

(** The body of both loops that push domains: skip a domain that is there
    already. *)
Definition push_domain (nameservers : list jsstr) (grp : nat) (confidence : Q)
    (domainMatch : Match) (pattern : RegExp) (domains : list domainInfo)
    : RegExp * list domainInfo :=
  let domain := group_text domainMatch grp in
  if existsb (fun d => jsstr_eqb (dom_domain d) domain) domains then (pattern, domains)
  else
    (pattern,
     domains ++ [{| dom_domain := domain;
                    dom_nameservers := nameservers;
                    dom_type := js "domain";
                    dom_index := index domainMatch;
                    dom_confidence := confidence |}]).

(** [extractDomainInfo(text)].  [None]: one of its loops is still running
    after [fuel] iterations. *)
Definition extractDomainInfo (fuel : nat) (text : jsstr) : option (list domainInfo) :=
  nameservers ← find_nameservers fuel text;
  domains ← collect fuel (push_domain nameservers 1 0.9%Q) DomainPatterns.domain text [];
  if (0 <? length nameservers) && (length domains =? 0) then
    snd <$> while_exec fuel (push_domain nameservers 2 0.8%Q)
              DomainPatterns.websiteRegex text domains
  else Some domains.

(* ===================================================================== *)
(** ** [extractDnsRecords] and [extractAllCredentials] *)
(* ===================================================================== *)

Module DnsPatterns.

(** [/(?:rekordy|wpisy|konfiguracja)\s+DNS/i],
    [/(?:ustawienia|konfiguracja)\s+(?:DNS|domen(?:y)?)/i] *)
Definition dnsSection : list RegExp :=
  [ re_i ((lit "rekordy" <|> lit "wpisy" <|> lit "konfiguracja") +++ plus ws +++ lit "DNS");
    re_i ((lit "ustawienia" <|> lit "konfiguracja") +++ plus ws
          +++ (lit "DNS" <|> lit "domen" +++ opt (lit "y"))) ]%re.

End DnsPatterns.

(** The elements of the [dnsRecords] array: the function never builds
    one. *)
Inductive dnsRecord : Type := .

(** [extractDnsRecords(text)].  The body declares the empty array
    [dnsRecords], looks for the start of a DNS section and ends there: there
    is no [return] statement, the call evaluates to [undefined], written
    [None] here. *)
Definition extractDnsRecords (text : jsstr) : option (list dnsRecord) :=
  let dnsRecords : list dnsRecord := [] in
  let dnsSectionStart : Z :=
    match first_match DnsPatterns.dnsSection text with
    | Some sectionMatch => Z.of_nat (index sectionMatch)
    | None => (-1)%Z
    end in
  None.

(** The object [extractAllCredentials] returns. *)
Record allCredentials {Web Db Gen : Type} := {
  ftpAccounts : list ftpAccount;
  serverCredentials : list serverCredential;
  emailAccounts : list emailAccount;
  websites : list Web;
  domains : list domainInfo;
  dnsRecords : option (list dnsRecord);
  databases : list Db;
  genericCredentials : list Gen
}.
Arguments allCredentials : clear implicits.

Section ExtractAll.

(** The extractors this development does not look into, with the types of
    their candidates.  [extractWebsites] relies on [extractDomainFromUrl];
    that function, [extractDatabaseCredentials] and
    [extractGenericCredentials] are called by the module but their
    definitions are not part of the sources at hand. *)
Context {Web Db Gen : Type}.
Variable extractWebsites : nat -> jsstr -> option (list Web).
Variable extractDatabaseCredentials : nat -> jsstr -> option (list Db).
Variable extractGenericCredentials : nat -> jsstr -> option (list Gen).

(** [extractAllCredentials(text)]: the properties of the result are
    evaluated in the order in which they are written, and an exception of
    one of the extractors leaves the function.  [None]: a loop of one of the
    extractors is still running after [fuel] iterations. *)
Definition extractAllCredentials (fuel : nat) (text : jsstr)
    : option (completion (allCredentials Web Db Gen)) :=
  if negb (str_truthy text) || (length (trim text) =? 0) then
    Some (Normal {| ftpAccounts := []; serverCredentials := []; emailAccounts := [];
                    websites := []; domains := []; dnsRecords := Some [];
                    databases := []; genericCredentials := [] |})
  else
    ftp ← extractFtpCredentials fuel text;
    server ← extractServerCredentials fuel text;
    email ← extractEmailAccounts fuel text;
    match email with
    | Throw e => Some (Throw e)
    | Normal email =>
        web ← extractWebsites fuel text;
        dom ← extractDomainInfo fuel text;
        db ← extractDatabaseCredentials fuel text;
        generic ← extractGenericCredentials fuel text;
        Some (Normal {| ftpAccounts := ftp; serverCredentials := server;
                        emailAccounts := email; websites := web; domains := dom;
                        dnsRecords := extractDnsRecords text;
                        databases := db; genericCredentials := generic |})
    end.

End ExtractAll.

(* ===================================================================== *)
(** ** Values and objects of the formatter *)
(* ===================================================================== *)

(** A property of an object: absent ([undefined]), [null], or a value. *)
Inductive field (A : Type) :=
| Undefined
| Null
| Val (a : A).
Arguments Undefined {A}.
Arguments Null {A}.
Arguments Val {A} a.

(** [ToBoolean] on the values of a type. *)
Class Truthy (A : Type) := truthy : A -> bool.

Global Instance string_truthy : Truthy jsstr := str_truthy.
Global Instance integer_truthy : Truthy N := fun n => negb (n =? 0)%N.
Global Instance number_truthy : Truthy Q := fun q => negb (Qeq_bool q 0).
(** Arrays are objects: always truthy. *)
Global Instance array_truthy : Truthy (list jsstr) := fun _ => true.

Definition is_truthy {A} `{Truthy A} (f : field A) : bool :=
  match f with
  | Val a => truthy a
  | _ => false
  end.

(** [f || g] *)
Definition or_field {A} `{Truthy A} (f g : field A) : field A :=
  if is_truthy f then f else g.

(** [f || d] where [d] is a value. *)
Definition or_value {A} `{Truthy A} (f : field A) (d : A) : A :=
  match f with
  | Val a => if truthy a then a else d
  | _ => d
  end.

(** The text of a property inside a template literal. *)
Definition template (f : field jsstr) : jsstr :=
  match f with
  | Undefined => js "undefined"
  | Null => js "null"
  | Val s => s
  end.

(** [f?.toLowerCase().includes(needle)]: [undefined] (falsy) when [f] is
    [undefined] or [null]. *)
Definition lower_includes (f : field jsstr) (needle : string) : bool :=
  match f with
  | Val s => includes (toLowerCase s) (js needle)
  | _ => false
  end.

(** [f?.includes(needle)] *)
Definition opt_includes (f : field jsstr) (needle : string) : bool :=
  match f with
  | Val s => includes s (js needle)
  | _ => false
  end.

(** [f === "literal"] *)
Definition is_literal (f : field jsstr) (literal : string) : bool :=
  match f with
  | Val s => jsstr_eqb s (js literal)
  | _ => false
  end.

(** [s.replace(needle, by)] with a string pattern: the first occurrence. *)
Fixpoint replace_first (needle by_ s : jsstr) : jsstr :=
  if starts_with needle s then by_ ++ skipn (length needle) s
  else match s with
       | [] => []
       | c :: s' => c :: replace_first needle by_ s'
       end.

(** The settings objects an e-mail credential may carry. *)
Record mailSettings := {
  settings_server : field jsstr;
  settings_port : field N
}.
Global Instance settings_truthy : Truthy mailSettings := fun _ => true.

(** A credential as the formatter receives it. *)
Module Credential.
Record t := {
  _type : field jsstr;
  server : field jsstr;
  system : field jsstr;
  username : field jsstr;
  password : field jsstr;
  port : field N;
  encryption : field jsstr;
  dateExtracted : field jsstr;
  confidence : field Q;
  url : field jsstr;
  loginUrl : field jsstr;
  domain : field jsstr;
  registrar : field jsstr;
  nameservers : field (list jsstr);
  currentNameservers : field (list jsstr);
  email : field jsstr;
  imapSettings : field mailSettings;
  smtpSettings : field mailSettings;
  popSettings : field mailSettings;
  imapPort : field N;
  smtpPort : field N;
  popPort : field N;
  clientId : field jsstr;
  clientName : field jsstr;
  ticketId : field jsstr
}.
End Credential.
Abbreviation credential := Credential.t.

(** The five shapes of a formatted record. *)
Module FTP.
Record t := {
  type : jsstr;
  server : field jsstr;
  username : field jsstr;
  password : field jsstr;
  port : N;
  encryption : jsstr;
  dateExtracted : jsstr;
  confidence : Q
}.
End FTP.

Module Website.
Record t := {
  type : jsstr;
  url : field jsstr;
  hostname : field jsstr;
  loginDetails_username : field jsstr;
  loginDetails_password : field jsstr;
  loginDetails_loginUrl : field jsstr;
  cms : field jsstr;
  dateExtracted : jsstr;
  confidence : Q
}.
End Website.

Module Domain.
Record t := {
  type : jsstr;
  domain : field jsstr;
  registrar : field jsstr;
  nameservers : list jsstr;
  delegation_required : bool;
  delegation_currentNameservers : field (list jsstr);
  dateExtracted : jsstr;
  confidence : Q
}.
End Domain.

Module Email.
(** [{hostname, port, encryption, authentication}] *)
Record endpoint := {
  hostname : field jsstr;
  port : N;
  encryption : jsstr;
  authentication : jsstr
}.
Record t := {
  type : jsstr;
  email : field jsstr;
  password : field jsstr;
  serverConfiguration_server : field jsstr;
  incomingServer_imap : endpoint;
  incomingServer_pop3 : field endpoint;
  outgoingServer_smtp : endpoint;
  dateExtracted : jsstr;
  confidence : Q
}.
End Email.

Module Generic.
Record t := {
  type : jsstr;
  username : field jsstr;
  password : field jsstr;
  system : jsstr;
  dateExtracted : jsstr;
  confidence : Q
}.
End Generic.

Inductive formatted :=
| FtpRecord (r : FTP.t)
| WebsiteRecord (r : Website.t)
| DomainRecord (r : Domain.t)
| EmailRecord (r : Email.t)
| GenericRecord (r : Generic.t).

(** The [type] and [confidence] every formatted record carries. *)
Definition record_type (r : formatted) : jsstr :=
  match r with
  | FtpRecord r => FTP.type r
  | WebsiteRecord r => Website.type r
  | DomainRecord r => Domain.type r
  | EmailRecord r => Email.type r
  | GenericRecord r => Generic.type r
  end.

Definition record_confidence (r : formatted) : Q :=
  match r with
  | FtpRecord r => FTP.confidence r
  | WebsiteRecord r => Website.confidence r
  | DomainRecord r => Domain.confidence r
  | EmailRecord r => Email.confidence r
  | GenericRecord r => Generic.confidence r
  end.

(* ===================================================================== *)
(** ** [new URL(url).hostname] *)
(* ===================================================================== *)

(** Modelled from the URL Standard, whose parser the platform provides: the
    host name of an absolute URL, or [None] when the constructor throws a
    [TypeError].  The model follows the parser through the scheme, the
    slashes, the credentials, the host and the port, and the host parser
    through IPv6 addresses, opaque hosts, percent-decoding, the forbidden
    code points and the number forms of IPv4 addresses.  For a domain name
    it follows Unicode ToASCII (UTS #46) as far as lower-casing and
    Punycode go: the other mappings of that standard, normalisation and its
    validity criteria for labels, which bear on names outside ASCII and on
    labels that start with "xn--" only, are not modelled. *)
Module URL.

Definition is_ascii_alpha (c : N) : bool :=
  ((65 <=? c) && (c <=? 90) || (97 <=? c) && (c <=? 122))%N.

Definition ascii_lower (c : N) : N :=
  if ((65 <=? c) && (c <=? 90))%N then (c + 32)%N else c.

Definition one_of (cs : string) (c : N) : bool := bool_decide (c ∈ js cs).

Fixpoint take_until (stop : N -> bool) (s : jsstr) : jsstr :=
  match s with
  | c :: s' => if stop c then [] else c :: take_until stop s'
  | [] => []
  end.

Fixpoint drop_while (p : N -> bool) (s : jsstr) : jsstr :=
  match s with
  | c :: s' => if p c then drop_while p s' else s
  | [] => []
  end.

(** Leading and trailing C0 controls and spaces are stripped, tabs and
    newlines are removed everywhere. *)
Definition clean (input : jsstr) : jsstr :=
  let c0_or_space c := (c <=? 32)%N in
  filter (fun c => c ∉ [9; 10; 13]%N)
    (rev (drop_while c0_or_space (rev (drop_while c0_or_space input)))).

(** The scheme, in lower case, and what follows its colon. *)
Fixpoint scan_scheme (s acc : jsstr) : option (jsstr * jsstr) :=
  match s with
  | c :: s' =>
      if (c =? 58)%N then Some (rev acc, s')
      else if is_ascii_alpha c || is_digit c || one_of "+-." c
           then scan_scheme s' (ascii_lower c :: acc)
           else None
  | [] => None
  end.

Definition scheme_of (s : jsstr) : option (jsstr * jsstr) :=
  match s with
  | c :: _ => if is_ascii_alpha c then scan_scheme s [] else None
  | [] => None
  end.

(** *** Numerals *)

Definition is_hex (c : N) : bool :=
  (is_digit c || (65 <=? c) && (c <=? 70) || (97 <=? c) && (c <=? 102))%N.

Definition digit_value (c : N) : N :=
  (if c <=? 57 then c - 48 else if c <=? 70 then c - 55 else c - 87)%N.

Definition is_radix_digit (radix c : N) : bool :=
  is_hex c && (digit_value c <? radix)%N.

Definition numeral_value (radix : N) (s : jsstr) : N :=
  fold_left (fun acc c => (acc * radix + digit_value c)%N) s 0%N.

(** The numeral of [n], in lower case, for a number of at most [width]
    digits. *)
Fixpoint numeral (radix : N) (width : nat) (n : N) : jsstr :=
  match width with
  | O => []
  | S width' =>
      let d := (n mod radix)%N in
      let c := (if d <? 10 then 48 + d else 87 + d)%N in
      if (n <? radix)%N then [c] else numeral radix width' (n / radix) ++ [c]
  end.

Fixpoint join_with (sep : N) (parts : list jsstr) : jsstr :=
  match parts with
  | [] => []
  | [part] => part
  | part :: parts' => part ++ sep :: join_with sep parts'
  end.

(** *** IPv4 addresses *)

(** The parts between the dots, without the empty part after a dot at the
    end. *)
Definition parts_of (host : jsstr) : list jsstr :=
  let parts := split_on 46 host in
  match rev parts with
  | [] :: (_ :: _) as others => rev others
  | _ => parts
  end.

(** A part as a number: hexadecimal after [0x], octal after [0], decimal
    otherwise. *)
Definition ipv4_number (part : jsstr) : option N :=
  match part with
  | [] => None
  | _ =>
      let '(radix, digits) :=
        match part with
        | 48 :: x :: digits' =>
            if (x =? 120) || (x =? 88) then (16, digits') else (8, x :: digits')
        | _ => (10, part)
        end%N in
      if forallb (is_radix_digit radix) digits then Some (numeral_value radix digits)
      else None
  end.

Definition ends_in_number (host : jsstr) : bool :=
  match last (parts_of host) with
  | Some lastPart =>
      str_truthy lastPart && forallb is_digit lastPart
      || bool_decide (is_Some (ipv4_number lastPart))
  | None => false
  end.

Fixpoint weigh (i : nat) (numbers : list N) : N :=
  match numbers with
  | [] => 0
  | n :: numbers' => (n * 256 ^ N.of_nat (3 - i) + weigh (S i) numbers')%N
  end.

Definition ipv4 (host : jsstr) : option N :=
  let parts := parts_of host in
  if 4 <? length parts then None
  else
    numbers ← mapM ipv4_number parts;
    match rev numbers with
    | lastNumber :: others =>
        if forallb (fun n => n <=? 255)%N others
           && (lastNumber <? 256 ^ N.of_nat (5 - length numbers))%N
        then Some (lastNumber + weigh 0 (rev others))%N
        else None
    | [] => None
    end.

Definition serialize_ipv4 (address : N) : jsstr :=
  join_with 46
    (map (fun shift => numeral 10 3 (N.shiftr address shift mod 256)%N) [24; 16; 8; 0]%N).

(** *** IPv6 addresses *)

Fixpoint read_hex (limit : nat) (s : jsstr) : jsstr * jsstr :=
  match limit, s with
  | S limit', c :: s' =>
      if is_hex c then let '(digits, s'') := read_hex limit' s' in (c :: digits, s'')
      else ([], s)
  | _, _ => ([], s)
  end.

(** A decimal number up to 255 without a leading zero. *)
Fixpoint read_byte (s : jsstr) (piece : option N) : option (option N * jsstr) :=
  match s with
  | c :: s' =>
      if is_digit c then
        match piece with
        | None => read_byte s' (Some (c - 48)%N)
        | Some 0%N => None
        | Some p =>
            let p' := (p * 10 + (c - 48))%N in
            if (255 <? p')%N then None else read_byte s' (Some p')
        end
      else Some (piece, s)
  | [] => Some (piece, s)
  end.

(** The four numbers of an IPv4 address at the end of an IPv6 address. *)
Fixpoint ipv4_in_ipv6 (fuel seen : nat) (s : jsstr) : option (list N) :=
  match fuel, s with
  | O, _ => None
  | _, [] => if seen =? 4 then Some [] else None
  | S fuel', _ =>
      s1 ← (if 0 <? seen then
              match s with
              | 46%N :: s' => if seen <? 4 then Some s' else None
              | _ => None
              end
            else Some s);
      found ← read_byte s1 None;
      n ← found.1;
      ns ← ipv4_in_ipv6 fuel' (S seen) found.2;
      Some (n :: ns)
  end.

(** The pieces of an IPv6 address in the order in which they are written,
    and the number of pieces before the compression [::], which counts as
    one piece itself. *)
Fixpoint ipv6_pieces (fuel : nat) (s : jsstr) (pieces : list N) (compress : option nat)
    : option (list N * option nat) :=
  match fuel, s with
  | O, _ => None
  | _, [] => Some (pieces, compress)
  | S fuel', c :: s' =>
      if length pieces =? 8 then None
      else if (c =? 58)%N then
        match compress with
        | Some _ => None
        | None => ipv6_pieces fuel' s' (pieces ++ [0%N]) (Some (S (length pieces)))
        end
      else
        let '(digits, s1) := read_hex 4 s in
        match s1 with
        | 46%N :: _ =>
            if (length digits =? 0) || (6 <? length pieces) then None
            else
              match ipv4_in_ipv6 (S (length s)) 0 s with
              | Some [a; b; c; d] =>
                  Some (pieces ++ [a * 256 + b; c * 256 + d]%N, compress)
              | _ => None
              end
        | 58%N :: s2 =>
            match s2 with
            | [] => None
            | _ => ipv6_pieces fuel' s2 (pieces ++ [numeral_value 16 digits]) compress
            end
        | [] => Some (pieces ++ [numeral_value 16 digits], compress)
        | _ => None
        end
  end.

Definition ipv6 (input : jsstr) : option (list N) :=
  start ← match input with
          | 58%N :: 58%N :: s => Some (s, [0%N], Some 1)
          | 58%N :: _ => None
          | _ => Some (input, [], None)
          end;
  found ← ipv6_pieces (S (length start.1.1)) start.1.1 start.1.2 start.2;
  match found.2 with
  | Some k =>
      Some (take k found.1 ++ replicate (8 - length found.1) 0%N ++ drop k found.1)
  | None => if length found.1 =? 8 then Some found.1 else None
  end.

Fixpoint zero_run (pieces : list N) : nat :=
  match pieces with
  | 0%N :: pieces' => S (zero_run pieces')
  | _ => 0
  end.

(** The first of the longest runs of two or more zero pieces: where it
    starts and how long it is. *)
Fixpoint longest_zero_run (i : nat) (pieces : list N) (best : option (nat * nat))
    : option (nat * nat) :=
  match pieces with
  | [] => best
  | _ :: pieces' =>
      let n := zero_run pieces in
      let longer := match best with Some (_, m) => m <? n | None => true end in
      longest_zero_run (S i) pieces' (if (1 <? n) && longer then Some (i, n) else best)
  end.

Definition serialize_ipv6 (address : list N) : jsstr :=
  let pieces l := join_with 58 (map (numeral 16 4) l) in
  match longest_zero_run 0 address None with
  | Some (i, n) => pieces (take i address) ++ js "::" ++ pieces (drop (i + n) address)
  | None => pieces address
  end.

(** *** UTF-8 and percent-encoding *)

(** The scalar values of a string: a surrogate on its own is replaced by
    U+FFFD. *)
Definition scalar_values (s : jsstr) : list N :=
  map (fun c => if is_high_surrogate c || is_low_surrogate c then 65533%N else c)
      (code_points s).

Definition utf8_encode (c : N) : list N :=
  (if c <? 128 then [c]
   else if c <? 2048 then [192 + c / 64; 128 + c mod 64]
   else if c <? 65536 then [224 + c / 4096; 128 + (c / 64) mod 64; 128 + c mod 64]
   else [240 + c / 262144; 128 + (c / 4096) mod 64; 128 + (c / 64) mod 64;
         128 + c mod 64])%N.

Fixpoint percent_decode (bytes : list N) : list N :=
  match bytes with
  | 37%N :: ((h :: l :: bytes') as rest) =>
      if is_hex h && is_hex l then (digit_value h * 16 + digit_value l)%N :: percent_decode bytes'
      else 37%N :: percent_decode rest
  | b :: bytes' => b :: percent_decode bytes'
  | [] => []
  end.

(** What a byte at the start of a sequence stands for: a code point, or the
    number of continuation bytes to come with the bits read so far and the
    bounds of the next byte.  A byte that cannot start a sequence gives
    U+FFFD. *)
Definition utf8_lead (b : N) : option N * (nat * N * N * N) :=
  (if b <? 128 then (Some b, (0%nat, 0, 128, 191))
   else if (194 <=? b) && (b <=? 223) then (None, (1%nat, b mod 32, 128, 191))
   else if (224 <=? b) && (b <=? 239) then
     (None, (2%nat, b mod 16, if b =? 224 then 160 else 128, if b =? 237 then 159 else 191))
   else if (240 <=? b) && (b <=? 244) then
     (None, (3%nat, b mod 8, if b =? 240 then 144 else 128, if b =? 244 then 143 else 191))
   else (Some 65533, (0%nat, 0, 128, 191)))%N.

(** The decoder of the Encoding Standard: [needed] continuation bytes are
    still to come for the code point [cp], the next of them between [lower]
    and [upper].  A sequence that breaks off gives U+FFFD, and the byte it
    breaks off at is read as the start of the next one. *)
Fixpoint utf8_decode (bytes : list N) (needed : nat) (cp lower upper : N) : list N :=
  match bytes with
  | [] => match needed with O => [] | S _ => [65533%N] end
  | b :: bytes' =>
      match needed with
      | S needed' =>
          if ((lower <=? b) && (b <=? upper))%N then
            match needed' with
            | O => (cp * 64 + b mod 64)%N :: utf8_decode bytes' 0 0 128 191
            | S _ => utf8_decode bytes' needed' (cp * 64 + b mod 64) 128 191
            end
          else
            65533%N ::
            match utf8_lead b with
            | (Some c, _) => c :: utf8_decode bytes' 0 0 128 191
            | (None, (n, c, lo, hi)) => utf8_decode bytes' n c lo hi
            end
      | O =>
          match utf8_lead b with
          | (Some c, _) => c :: utf8_decode bytes' 0 0 128 191
          | (None, (n, c, lo, hi)) => utf8_decode bytes' n c lo hi
          end
      end
  end.

Definition utf8_decode_without_BOM (bytes : list N) : list N :=
  match bytes with
  | 239%N :: 187%N :: 191%N :: bytes' => utf8_decode bytes' 0 0 128 191
  | _ => utf8_decode bytes 0 0 128 191
  end.

(** [%XX], in upper case, for a byte. *)
Definition percent_byte (b : N) : jsstr :=
  let hex d := (if d <? 10 then 48 + d else 55 + d)%N in
  [37%N; hex (b / 16)%N; hex (b mod 16)%N].

(** *** Hosts *)

Definition forbidden_host_code_point (c : N) : bool :=
  bool_decide (c ∈ [0; 9; 10; 13; 32; 35; 47; 58; 60; 62; 63; 64; 91; 92; 93; 94; 124]%N).

Definition forbidden_domain_code_point (c : N) : bool :=
  (forbidden_host_code_point c || (c <=? 31) || (c =? 37) || (c =? 127))%N.

(** The host of a URL whose scheme is not special: C0 controls and code
    points beyond U+007E are percent-encoded. *)
Definition opaque_host (input : jsstr) : option jsstr :=
  if existsb forbidden_host_code_point input then None
  else
    Some (flat_map (fun c => if ((c <? 32) || (126 <? c))%N
                             then flat_map percent_byte (utf8_encode c) else [c])
                   (scalar_values input)).

(** Punycode (RFC 3492) of a label, given as code points. *)
Definition punycode_digit (d : N) : N := (if d <? 26 then 97 + d else 22 + d)%N.

Fixpoint punycode_adapt_loop (fuel : nat) (delta k : N) : N :=
  match fuel with
  | S fuel' =>
      if (455 <? delta)%N then punycode_adapt_loop fuel' (delta / 35) (k + 36)
      else (k + 36 * delta / (delta + 38))%N
  | O => (k + 36 * delta / (delta + 38))%N
  end.

Definition punycode_adapt (delta numpoints : N) (firsttime : bool) : N :=
  let delta := (if firsttime then delta / 700 else delta / 2)%N in
  punycode_adapt_loop (N.to_nat (N.size delta)) (delta + delta / numpoints) 0.

Fixpoint punycode_integer (fuel : nat) (q k bias : N) : jsstr :=
  match fuel with
  | S fuel' =>
      let t := (if k <=? bias then 1 else if bias + 26 <=? k then 26 else k - bias)%N in
      if (q <? t)%N then [punycode_digit q]
      else punycode_digit (t + (q - t) mod (36 - t))
           :: punycode_integer fuel' ((q - t) / (36 - t)) (k + 36) bias
  | O => []
  end.

(** The state of the encoder: the code point [n] being handled, [delta],
    [bias], the number [h] of code points done and the output. *)
Definition punycode_step (basic : N) (n : N) (state : N * N * N * jsstr) (c : N)
    : N * N * N * jsstr :=
  let '(delta, bias, h, output) := state in
  (if c <? n then (delta + 1, bias, h, output)
   else if c =? n then
     (0, punycode_adapt delta (h + 1) (h =? basic), h + 1,
      output ++ punycode_integer (S (N.to_nat (N.size delta))) delta 36 bias)
   else state)%N.

Fixpoint punycode_loop (fuel : nat) (label : list N) (basic n delta bias h : N)
    (output : jsstr) : jsstr :=
  match fuel with
  | O => output
  | S fuel' =>
      match filter (fun c => (n <= c)%N) label with
      | [] => output
      | c0 :: cs =>
          let m := foldl N.min c0 cs in
          let '(delta', bias', h', output') :=
            foldl (punycode_step basic m) ((delta + (m - n) * (h + 1))%N, bias, h, output) label in
          punycode_loop fuel' label basic (m + 1) (delta' + 1) bias' h' output'
      end
  end.

Definition punycode (label : list N) : jsstr :=
  let basic := filter (fun c => (c < 128)%N) label in
  let b := N.of_nat (length basic) in
  punycode_loop (length label) label b 128 0 72 b
    (basic ++ if (0 <? b)%N then [45%N] else []).

(** Unicode ToASCII for a domain, given as code points. *)
Definition domain_to_ASCII (domain : list N) : option jsstr :=
  if forallb (fun c => c <? 128)%N domain then Some (map ascii_lower domain)
  else if bool_decide (65533%N ∈ domain) then None
  else
    let mapped :=
      flat_map (fun c => if (c =? 304)%N then [105; 775]%N else [Unicode.lower c]) domain in
    Some (join_with 46
            (map (fun label => if forallb (fun c => c <? 128)%N label then label
                               else js "xn--" ++ punycode label)
                 (split_on 46 mapped))).

(** The host of a URL whose scheme is special, when it is not an IPv6
    address: a domain, or an IPv4 address when it ends in a number. *)
Definition domain_host (input : jsstr) : option jsstr :=
  let domain :=
    utf8_decode_without_BOM (percent_decode (flat_map utf8_encode (scalar_values input))) in
  asciiDomain ← domain_to_ASCII domain;
  if negb (str_truthy asciiDomain) || existsb forbidden_domain_code_point asciiDomain
  then None
  else if ends_in_number asciiDomain then serialize_ipv4 <$> ipv4 asciiDomain
  else Some asciiDomain.

(** The host parser; the result is the host as [hostname] shows it. *)
Definition host_parse (opaque : bool) (input : jsstr) : option jsstr :=
  match input with
  | 91%N :: inner =>
      match rev inner with
      | 93%N :: address =>
          (fun pieces => js "[" ++ serialize_ipv6 pieces ++ js "]") <$> ipv6 (rev address)
      | _ => None
      end
  | _ => if opaque then opaque_host input else domain_host input
  end.

(** *** The authority *)

(** What follows the last [@] of an authority. *)
Fixpoint after_credentials (authority : jsstr) : jsstr :=
  match authority with
  | c :: rest =>
      if bool_decide (64%N ∈ rest) then after_credentials rest
      else if (c =? 64)%N then rest else authority
  | [] => []
  end.

(** The host, up to the first colon outside square brackets, and the port
    after that colon. *)
Fixpoint split_host (inside : bool) (s : jsstr) : jsstr * option jsstr :=
  match s with
  | [] => ([], None)
  | c :: s' =>
      if (c =? 58)%N && negb inside then ([], Some s')
      else
        let found :=
          split_host (if (c =? 91)%N then true else if (c =? 93)%N then false else inside)
            s' in
        (c :: found.1, found.2)
  end.

Definition valid_port (p : jsstr) : bool :=
  forallb is_digit p && (decimal p <=? 65535)%N.

(** The host of an authority; [special] tells whether the scheme is. *)
Definition host_of (special : bool) (authority : jsstr) : option jsstr :=
  let hostport := after_credentials authority in
  if bool_decide (64%N ∈ authority) && negb (str_truthy hostport) then None
  else
    let found := split_host false hostport in
    match found.2 with
    | Some port =>
        if str_truthy found.1 && valid_port port then host_parse (negb special) found.1
        else None
    | None =>
        if special && negb (str_truthy found.1) then None
        else host_parse (negb special) found.1
    end.

(** [new URL(input).hostname] *)
Definition hostname (input : jsstr) : option jsstr :=
  match scheme_of (clean input) with
  | None => None                         (* no scheme and no base URL *)
  | Some (scheme, rest) =>
      if bool_decide (scheme ∈ [js "http"; js "https"; js "ftp"; js "ws"; js "wss"]) then
        host_of true (take_until (one_of "/\?#") (drop_while (one_of "/\") rest))
      else if bool_decide (scheme = js "file") then
        match rest with
        | a :: b :: rest' =>
            if one_of "/\" a && one_of "/\" b then
              match take_until (one_of "/\?#") rest' with
              | [] => Some []
              | [d; s] as buffer =>
                  if is_ascii_alpha d && one_of ":|" s then Some []
                  else host_parse false buffer
              | buffer =>
                  (fun host => if bool_decide (host = js "localhost") then [] else host)
                  <$> host_parse false buffer
              end
            else Some []
        | _ => Some []
        end
      else
        match rest with
        | 47%N :: 47%N :: rest' => host_of false (take_until (one_of "/?#") rest')
        | _ => Some []
        end
  end.

End URL.

(* ===================================================================== *)
(** ** The formatters *)
(* ===================================================================== *)

(** [detectCMS(urlOrSystem)] *)
Definition detectCMS (urlOrSystem : jsstr) : field jsstr :=
  let lowerCase := toLowerCase urlOrSystem in
  if includes lowerCase (js "wordpress") || includes lowerCase (js "/wp-")
     || includes lowerCase (js "/wp-admin")
  then Val (js "WordPress")
  else if includes lowerCase (js "joomla") then Val (js "Joomla")
  else if includes lowerCase (js "drupal") then Val (js "Drupal")
  else if includes lowerCase (js "magento") then Val (js "Magento")
  else if includes lowerCase (js "prestashop") then Val (js "PrestaShop")
  else if includes lowerCase (js "woocommerce") then Val (js "WooCommerce")
  else if includes lowerCase (js "shopify") then Val (js "Shopify")
  else Null.

(** The kinds the formatter sorts credentials into. *)
Inductive kind := KFtp | KWebsite | KDomain | KEmail | KGeneric.

(** The chain of tests that [groupCredentialsByClient],
    [categorizeMigrationData] and [createJsonFile] each spell out to pick the
    formatter of a credential. *)
Definition classify (cred : credential) : kind :=
  if is_literal (Credential._type cred) "ftp"
     || lower_includes (Credential.system cred) "ftp" then KFtp
  else if is_literal (Credential._type cred) "website"
          || lower_includes (Credential.system cred) "web" then KWebsite
  else if is_literal (Credential._type cred) "domain"
          || lower_includes (Credential.system cred) "domain" then KDomain
  else if is_literal (Credential._type cred) "email"
          || opt_includes (Credential.username cred) "@"
          || lower_includes (Credential.system cred) "email" then KEmail
  else KGeneric.

Section Formatters.

(** [new Date().toISOString()]: the reading of the clock.  One call of a
    function of the formatter is taken to see one reading. *)
Variable now : jsstr.

(** [formatFTPAccount(credential)] *)
Definition formatFTPAccount (credential : credential) : FTP.t :=
  {| FTP.type := js "ftp";
     FTP.server :=
       or_field
         (or_field (Credential.server credential)
            match Credential.system credential with
            | Val system =>
                Val (replace_first (js ")") [] (replace_first (js "FTP (") [] system))
            | _ => Undefined
            end)
         Null;
     FTP.username := or_field (Credential.username credential) Null;
     FTP.password := or_field (Credential.password credential) Null;
     FTP.port := or_value (Credential.port credential) 21%N;
     FTP.encryption := or_value (Credential.encryption credential) (js "FTP");
     FTP.dateExtracted := or_value (Credential.dateExtracted credential) now;
     FTP.confidence := or_value (Credential.confidence credential) 1.0%Q |}.

(** [formatWebsite(credential)]: [new URL(credential.url)] throws on a
    string that is not an absolute URL. *)
Definition formatWebsite (credential : credential) : completion Website.t :=
  hostname ←
    (if is_truthy (Credential.url credential) then
       match URL.hostname (template (Credential.url credential)) with
       | Some h => Normal (Val h)
       | None => Throw TypeError
       end
     else Normal Null);
  Normal
    {| Website.type := js "website";
       Website.url := or_field (Credential.url credential) Null;
       Website.hostname := hostname;
       Website.loginDetails_username := or_field (Credential.username credential) Null;
       Website.loginDetails_password := or_field (Credential.password credential) Null;
       Website.loginDetails_loginUrl := or_field (Credential.loginUrl credential) Null;
       Website.cms :=
         detectCMS (or_value (or_field (Credential.url credential)
                                       (Credential.system credential)) []);
       Website.dateExtracted := or_value (Credential.dateExtracted credential) now;
       Website.confidence := or_value (Credential.confidence credential) 1.0%Q |}.

(** [formatDomain(credential)] *)
Definition formatDomain (credential : credential) : Domain.t :=
  {| Domain.type := js "domain";
     Domain.domain :=
       or_field (or_field (Credential.domain credential) (Credential.username credential))
                Null;
     Domain.registrar := or_field (Credential.registrar credential) Null;
     Domain.nameservers := or_value (Credential.nameservers credential) [];
     Domain.delegation_required :=
       match Credential.nameservers credential with
       | Val nameservers => 0 <? length nameservers
       | _ => false
       end;
     Domain.delegation_currentNameservers :=
       or_field (Credential.currentNameservers credential) Null;
     Domain.dateExtracted := or_value (Credential.dateExtracted credential) now;
     Domain.confidence := or_value (Credential.confidence credential) 1.0%Q |}.

(** [formatEmailAccount(credential)] *)
Definition formatEmailAccount (credential : credential) : Email.t :=
  let settings_server_of (settings : field mailSettings) : field jsstr :=
    match settings with
    | Val s => settings_server s
    | _ => Null
    end in
  let settings_port_or (settings : field mailSettings) (port : field N) : field N :=
    match settings with
    | Val s => settings_port s
    | _ => or_field port Null
    end in
  let server :=
    or_field
      (or_field
         (or_field (Credential.server credential)
                   (settings_server_of (Credential.imapSettings credential)))
         (settings_server_of (Credential.smtpSettings credential)))
      Null in
  let smtpPort :=
    settings_port_or (Credential.smtpSettings credential) (Credential.smtpPort credential) in
  let imapPort :=
    settings_port_or (Credential.imapSettings credential) (Credential.imapPort credential) in
  let popPort :=
    settings_port_or (Credential.popSettings credential) (Credential.popPort credential) in
  let endpoint (port : N) :=
    {| Email.hostname := server; Email.port := port;
       Email.encryption := js "SSL/TLS";
       Email.authentication := js "Normal Password" |} in
  {| Email.type := js "email";
     Email.email :=
       or_field (or_field (Credential.email credential) (Credential.username credential))
                Null;
     Email.password := or_field (Credential.password credential) Null;
     Email.serverConfiguration_server := server;
     Email.incomingServer_imap := endpoint (or_value imapPort 993%N);
     Email.incomingServer_pop3 :=
       if is_truthy popPort then Val (endpoint (or_value popPort 995%N)) else Null;
     Email.outgoingServer_smtp := endpoint (or_value smtpPort 465%N);
     Email.dateExtracted := or_value (Credential.dateExtracted credential) now;
     Email.confidence := or_value (Credential.confidence credential) 1.0%Q |}.

(** [formatGenericCredential(credential)] *)
Definition formatGenericCredential (credential : credential) : Generic.t :=
  {| Generic.type := js "generic";
     Generic.username := or_field (Credential.username credential) Null;
     Generic.password := or_field (Credential.password credential) Null;
     Generic.system := or_value (Credential.system credential) (js "Nieokreślony");
     Generic.dateExtracted := or_value (Credential.dateExtracted credential) now;
     Generic.confidence := or_value (Credential.confidence credential) 1.0%Q |}.

(** The function [createJsonFile] maps over the credentials in its flat
    branch; the other two callers push its result to an array. *)
Definition format (cred : credential) : completion formatted :=
  match classify cred with
  | KFtp => Normal (FtpRecord (formatFTPAccount cred))
  | KWebsite => WebsiteRecord <$> formatWebsite cred
  | KDomain => Normal (DomainRecord (formatDomain cred))
  | KEmail => Normal (EmailRecord (formatEmailAccount cred))
  | KGeneric => Normal (GenericRecord (formatGenericCredential cred))
  end.

End Formatters.

(* ===================================================================== *)
(** ** Plain objects used as maps *)
(* ===================================================================== *)

(** An object whose properties are added at run time: its own properties
    in the order of their creation. *)
Abbreviation obj A := (list (jsstr * A)).

(** The names every plain object inherits from [Object.prototype]; each of
    them holds a function or an object there. *)
Definition prototype_keys : list jsstr :=
  map js [ "constructor"; "__defineGetter__"; "__defineSetter__"; "hasOwnProperty";
           "__lookupGetter__"; "__lookupSetter__"; "isPrototypeOf";
           "propertyIsEnumerable"; "toString"; "valueOf"; "__proto__";
           "toLocaleString" ]%string.

(** What [o[k]] finds. *)
Inductive lookup (A : Type) :=
| Own (a : A)        (* a property of the object itself *)
| Inherited          (* a property of [Object.prototype] *)
| Missing.           (* [undefined] *)
Arguments Own {A} a.
Arguments Inherited {A}.
Arguments Missing {A}.

Fixpoint own {A} (o : obj A) (k : jsstr) : option A :=
  match o with
  | [] => None
  | (k', a) :: o' => if jsstr_eqb k' k then Some a else own o' k
  end.

(** [o[k]] *)
Definition get {A} (o : obj A) (k : jsstr) : lookup A :=
  match own o k with
  | Some a => Own a
  | None => if bool_decide (k ∈ prototype_keys) then Inherited else Missing
  end.

(** [o[k] = a]: an own property keeps its place, a new one comes last. *)
Fixpoint set {A} (o : obj A) (k : jsstr) (a : A) : obj A :=
  match o with
  | [] => [(k, a)]
  | (k', a') :: o' => if jsstr_eqb k' k then (k', a) :: o' else (k', a') :: set o' k a
  end.

(** The array index a property name denotes, if it is one: a canonical
    decimal numeral below [2^32 - 1]. *)
Definition array_index (k : jsstr) : option N :=
  match k with
  | [] => None
  | [48%N] => Some 0%N
  | d :: _ =>
      if forallb is_digit k && negb (d =? 48)%N && (length k <=? 10)
         && (decimal k <=? 4294967294)%N
      then Some (decimal k) else None
  end.

Definition index_le {A} (e1 e2 : jsstr * A) : Prop :=
  (default 0 (array_index e1.1) <= default 0 (array_index e2.1))%N.

Global Instance index_le_dec {A} (e1 e2 : jsstr * A) : Decision (index_le e1 e2) :=
  N.le_dec _ _.

(** The own properties in the order in which [Object.keys] lists them:
    array indices in ascending order, then the other names in the order of
    their creation. *)
Definition entries {A} (o : obj A) : list (jsstr * A) :=
  merge_sort index_le (filter (fun e => is_Some (array_index e.1)) o)
  ++ filter (fun e => ¬ is_Some (array_index e.1)) o.

(** [for each x of l: s = step(s, x)], leaving at the first exception. *)
Fixpoint for_each {A St} (step : St -> A -> completion St) (l : list A) (s : St)
    : completion St :=
  match l with
  | [] => Normal s
  | x :: l' => s' ← step s x; for_each step l' s'
  end.

(* ===================================================================== *)
(** ** Categorising, grouping, flattening *)
(* ===================================================================== *)

(** The argument of the exported functions: an array of credentials, or
    something that is not an array. *)
Inductive argument :=
| NotAnArray
| AnArray (credentials : list credential).

(** The object [categorizeMigrationData] returns. *)
Module Categorized.
Record t := {
  ftpAccounts : list FTP.t;
  websites : list Website.t;
  domains : list Domain.t;
  emailAccounts : list Email.t;
  otherCredentials : list Generic.t
}.
Definition empty : t :=
  {| ftpAccounts := []; websites := []; domains := []; emailAccounts := [];
     otherCredentials := [] |}.
End Categorized.

(** A ticket and a client of the grouped structure. *)
Record ticket := {
  credentials : list formatted;
  metadata_dateCreated : jsstr
}.

Record client := {
  clientName : jsstr;
  clientInfo_id : field jsstr;
  clientInfo_dateAdded : jsstr;
  tickets : obj ticket
}.

(** An element of the array [flattenGroupedCredentials] returns:
    [{...cred, clientId, clientName, ticketId}]. *)
Record flatCredential := {
  flat_cred : formatted;
  flat_clientId : jsstr;
  flat_clientName : jsstr;
  flat_ticketId : jsstr
}.

Section Grouping.

Variable now : jsstr.

(** The body of the loop of [categorizeMigrationData]. *)
Definition categorize_step (result : Categorized.t) (cred : credential)
    : completion Categorized.t :=
  let '{| Categorized.ftpAccounts := ftp; Categorized.websites := web;
          Categorized.domains := dom; Categorized.emailAccounts := mail;
          Categorized.otherCredentials := other |} := result in
  match classify cred with
  | KFtp =>
      Normal {| Categorized.ftpAccounts := ftp ++ [formatFTPAccount now cred];
                Categorized.websites := web; Categorized.domains := dom;
                Categorized.emailAccounts := mail;
                Categorized.otherCredentials := other |}
  | KWebsite =>
      site ← formatWebsite now cred;
      Normal {| Categorized.ftpAccounts := ftp;
                Categorized.websites := web ++ [site]; Categorized.domains := dom;
                Categorized.emailAccounts := mail;
                Categorized.otherCredentials := other |}
  | KDomain =>
      Normal {| Categorized.ftpAccounts := ftp; Categorized.websites := web;
                Categorized.domains := dom ++ [formatDomain now cred];
                Categorized.emailAccounts := mail;
                Categorized.otherCredentials := other |}
  | KEmail =>
      Normal {| Categorized.ftpAccounts := ftp; Categorized.websites := web;
                Categorized.domains := dom;
                Categorized.emailAccounts := mail ++ [formatEmailAccount now cred];
                Categorized.otherCredentials := other |}
  | KGeneric =>
      Normal {| Categorized.ftpAccounts := ftp; Categorized.websites := web;
                Categorized.domains := dom; Categorized.emailAccounts := mail;
                Categorized.otherCredentials := other ++ [formatGenericCredential now cred] |}
  end.

(** [categorizeMigrationData(credentials)] *)
Definition categorizeMigrationData (credentials : argument) : completion Categorized.t :=
  match credentials with
  | NotAnArray | AnArray [] => Normal Categorized.empty
  | AnArray credentials => for_each categorize_step credentials Categorized.empty
  end.

(** The body of the loop of [groupCredentialsByClient]. *)
Definition group_step (groupedData : obj client) (credential : credential)
    : completion (obj client) :=
  let clientId := or_value (Credential.clientId credential) (js "unknown") in
  let groupedData :=
    match get groupedData clientId with
    | Missing =>
        set groupedData clientId
          {| clientName := or_value (Credential.clientName credential) (js "Nieznany Klient");
             clientInfo_id := or_field (Credential.clientId credential) Null;
             clientInfo_dateAdded := hd [] (split_on (cu "T") now);
             tickets := [] |}
    | _ => groupedData
    end in
  let ticketId := or_value (Credential.ticketId credential) (js "general") in
  match get groupedData clientId with
  | Own entry =>
      let with_ticket (t : ticket) : completion (obj client) :=
        cred ← format now credential;
        Normal (set groupedData clientId
                  {| clientName := clientName entry;
                     clientInfo_id := clientInfo_id entry;
                     clientInfo_dateAdded := clientInfo_dateAdded entry;
                     tickets :=
                       set (tickets entry) ticketId
                         {| credentials := credentials t ++ [cred];
                            metadata_dateCreated := metadata_dateCreated t |} |}) in
      match get (tickets entry) ticketId with
      | Missing => with_ticket {| credentials := []; metadata_dateCreated := now |}
      | Own t => with_ticket t
      | Inherited => Throw TypeError   (* [.credentials] is [undefined] *)
      end
  | _ => Throw TypeError               (* [.tickets] is [undefined] *)
  end.

(** [groupCredentialsByClient(credentials)] *)
Definition groupCredentialsByClient (credentials : argument) : completion (obj client) :=
  match credentials with
  | NotAnArray | AnArray [] => Normal []
  | AnArray credentials => for_each group_step credentials []
  end.

End Grouping.

(** [flattenGroupedCredentials(groupedData)] on a grouped structure. *)
Definition flattenGroupedCredentials (groupedData : obj client) : list flatCredential :=
  flat_map (fun '(clientId, client) =>
    flat_map (fun '(ticketId, ticket) =>
      map (fun cred => {| flat_cred := cred;
                          flat_clientId := clientId;
                          flat_clientName := clientName client;
                          flat_ticketId := ticketId |})
          (credentials ticket))
      (entries (tickets client)))
    (entries groupedData).

(* ===================================================================== *)
(** ** Export *)
(* ===================================================================== *)

(** The value [createJsonFile] hands to [JSON.stringify]. *)
Inductive exportData :=
| CategorizedData (data : Categorized.t)
| GroupedData (data : obj client)
| FlatData (data : list formatted).

Definition is_empty_argument (credentials : argument) : bool :=
  match credentials with
  | NotAnArray | AnArray [] => true
  | AnArray (_ :: _) => false
  end.

(** [String(n)] for an integer. *)
Fixpoint decimal_digits (d : Decimal.uint) : jsstr :=
  match d with
  | Decimal.Nil => []
  | Decimal.D0 d => 48%N :: decimal_digits d
  | Decimal.D1 d => 49%N :: decimal_digits d
  | Decimal.D2 d => 50%N :: decimal_digits d
  | Decimal.D3 d => 51%N :: decimal_digits d
  | Decimal.D4 d => 52%N :: decimal_digits d
  | Decimal.D5 d => 53%N :: decimal_digits d
  | Decimal.D6 d => 54%N :: decimal_digits d
  | Decimal.D7 d => 55%N :: decimal_digits d
  | Decimal.D8 d => 56%N :: decimal_digits d
  | Decimal.D9 d => 57%N :: decimal_digits d
  end.

Definition String_of_integer (n : N) : jsstr := decimal_digits (N.to_uint n).

(** [parts.join(sep)] *)
Fixpoint join (sep : jsstr) (parts : list jsstr) : jsstr :=
  match parts with
  | [] => []
  | [p] => p
  | p :: parts' => p ++ sep ++ join sep parts'
  end.

(** A cell between quotes, with every quote inside it doubled. *)
Definition csv_cell (cell : jsstr) : jsstr :=
  [34%N] ++ flat_map (fun c => if (c =? 34)%N then [34%N; 34%N] else [c]) cell ++ [34%N].

(** The end of [createCsvForCredentialType]: the header line followed by
    one line per credential. *)
Definition csvContent (headers : list string) (rows : list (list jsstr)) : jsstr :=
  join [10%N]
    (join (js ",") (map js headers)
     :: map (fun row => join (js ",") (map csv_cell row)) rows).

(** The rows of the cases of the [switch] of [createCsvForCredentialType],
    each for the records its caller passes with that tag. *)
Definition ftp_row (cred : FTP.t) : list jsstr :=
  [ or_value (FTP.server cred) [];
    or_value (FTP.username cred) [];
    or_value (FTP.password cred) [];
    if truthy (FTP.port cred) then String_of_integer (FTP.port cred) else js "21";
    if truthy (FTP.encryption cred) then FTP.encryption cred else js "FTP" ].

Definition website_row (cred : Website.t) : list jsstr :=
  [ or_value (Website.url cred) [];
    or_value (Website.hostname cred) [];
    or_value (Website.loginDetails_username cred) [];
    or_value (Website.loginDetails_password cred) [];
    or_value (Website.cms cred) [] ].

Definition domain_row (cred : Domain.t) : list jsstr :=
  [ or_value (Domain.domain cred) [];
    join (js ", ") (Domain.nameservers cred) ].

Definition port_cell (port : N) : jsstr :=
  if truthy port then String_of_integer port else [].

Definition email_row (cred : Email.t) : list jsstr :=
  [ or_value (Email.email cred) [];
    or_value (Email.password cred) [];
    or_value (Email.serverConfiguration_server cred) [];
    port_cell (Email.port (Email.incomingServer_imap cred));
    port_cell (Email.port (Email.outgoingServer_smtp cred));
    match Email.incomingServer_pop3 cred with
    | Val pop3 => port_cell (Email.port pop3)
    | _ => []
    end ].

Definition generic_row (cred : Generic.t) : list jsstr :=
  [ or_value (Generic.username cred) [];
    or_value (Generic.password cred) [];
    Generic.system cred ].

(** The second argument of [createCsvForCredentialType] with the array it
    comes with at the call sites: the formatted records of that type. *)
Inductive typedCredentials :=
| OfFtp (credentials : list FTP.t)
| OfWebsite (credentials : list Website.t)
| OfDomain (credentials : list Domain.t)
| OfEmail (credentials : list Email.t)
| OfGeneric (credentials : list Generic.t).

(** [createCsvForCredentialType(credentials, type)]: nothing for an empty
    array. *)
Definition createCsvForCredentialType (credentials : typedCredentials) : jsstr :=
  let content {A} (headers : list string) (row : A -> list jsstr) (creds : list A) : jsstr :=
    match creds with
    | [] => []
    | _ :: _ => csvContent headers (map row creds)
    end in
  match credentials with
  | OfFtp creds =>
      content ["Server"; "Username"; "Password"; "Port"; "Encryption"]%string ftp_row creds
  | OfWebsite creds =>
      content ["URL"; "Hostname"; "Username"; "Password"; "CMS"]%string website_row creds
  | OfDomain creds =>
      content ["Domain"; "Nameservers"]%string domain_row creds
  | OfEmail creds =>
      content ["Email"; "Password"; "Server"; "IMAP Port"; "SMTP Port"; "POP3 Port"]%string
        email_row creds
  | OfGeneric creds =>
      content ["Username"; "Password"; "System"]%string generic_row creds
  end.

(** The object [exportCredentialsToCSV] returns. *)
Record csvExport := {
  ftpCsv : jsstr;
  websitesCsv : jsstr;
  domainsCsv : jsstr;
  emailCsv : jsstr;
  genericCsv : jsstr
}.

Section Exporting.

Variable now : jsstr.

(** [createJsonFile(credentials, grouped, categorized)], up to the value
    that is serialised: turning it into text and into a download URL is
    the platform's part. *)
Definition createJsonFile (credentials : argument) (grouped categorized : bool)
    : completion exportData :=
  match credentials with
  | NotAnArray | AnArray [] =>
      Throw (Error (js "Brak danych uwierzytelniających do eksportu"))
  | AnArray creds =>
      if categorized then CategorizedData <$> categorizeMigrationData now credentials
      else if grouped then GroupedData <$> groupCredentialsByClient now credentials
      else FlatData <$> for_each (fun done cred => r ← format now cred; Normal (done ++ [r]))
                          creds []
  end.

(** [exportCredentialsToCSV(credentials)] *)
Definition exportCredentialsToCSV (credentials : argument) : completion csvExport :=
  match credentials with
  | NotAnArray | AnArray [] => Throw (Error (js "Brak danych do eksportu"))
  | AnArray _ =>
      categorized ← categorizeMigrationData now credentials;
      Normal
        {| ftpCsv := createCsvForCredentialType (OfFtp (Categorized.ftpAccounts categorized));
           websitesCsv :=
             createCsvForCredentialType (OfWebsite (Categorized.websites categorized));
           domainsCsv :=
             createCsvForCredentialType (OfDomain (Categorized.domains categorized));
           emailCsv :=
             createCsvForCredentialType (OfEmail (Categorized.emailAccounts categorized));
           genericCsv :=
             createCsvForCredentialType
               (OfGeneric (Categorized.otherCredentials categorized)) |}
  end.

End Exporting.

(** The exception the two export functions raise for want of records. *)
Definition is_export_error (e : exn) : bool :=
  match e with
  | Error message =>
      jsstr_eqb message (js "Brak danych uwierzytelniających do eksportu")
      || jsstr_eqb message (js "Brak danych do eksportu")
  | TypeError => false
  end.

(* ===================================================================== *)
(** ** [mergeCredentials] *)
(* ===================================================================== *)

(** The key the loop of [mergeCredentials] computes for a credential. *)
Definition uniqueKey (cred : credential) : jsstr :=
  if is_literal (Credential._type cred) "ftp" || is_truthy (Credential.server cred) then
    js "ftp-" ++ template (Credential.server cred) ++ js "-"
    ++ template (Credential.username cred)
  else if is_literal (Credential._type cred) "website" || is_truthy (Credential.url cred) then
    js "website-" ++ template (Credential.url cred) ++ js "-"
    ++ template (Credential.username cred)
  else if is_literal (Credential._type cred) "domain" || is_truthy (Credential.domain cred) then
    js "domain-" ++ template (Credential.domain cred)
  else if is_literal (Credential._type cred) "email"
          || is_truthy (Credential.username cred)
             && opt_includes (Credential.username cred) "@" then
    js "email-" ++ template (or_field (Credential.email cred) (Credential.username cred))
  else
    js "generic-" ++ template (Credential.username cred) ++ js "-"
    ++ template (Credential.system cred).

(** The body of the loop: the set of keys seen and the array built. *)
Definition merge_step (state : gset jsstr * list credential) (cred : credential)
    : gset jsstr * list credential :=
  let '(uniqueKeys, mergedCredentials) := state in
  let uniqueKey := uniqueKey cred in
  if decide (uniqueKey ∈ uniqueKeys) then state
  else ({[ uniqueKey ]} ∪ uniqueKeys, mergedCredentials ++ [cred]).

(** [mergeCredentials(...credentialsArrays)] *)
Definition mergeCredentials (credentialsArrays : list (list credential)) : list credential :=
  let allCredentials := concat credentialsArrays in
  (foldl merge_step (∅, []) allCredentials).2.

(* ===================================================================== *)
(** ** Notions used in the statements *)
(* ===================================================================== *)

(** The least number of characters a match of a pattern consumes. *)
Fixpoint min_len (r : regex) : nat :=
  match r with
  | Eps | Bol | Eol => 0
  | Chr _ | Cls _ _ => 1
  | Seq r1 r2 => min_len r1 + min_len r2
  | Alt r1 r2 => Nat.min (min_len r1) (min_len r2)
  | Rep r1 min _ _ => min * min_len r1
  | Grp _ r1 => min_len r1
  end.

(** A matcher in continuation-passing style makes progress by [n]: whatever
    it returns was returned by its continuation, on a state at least [n]
    characters further in the same text. *)
Definition progresses (n : nat)
    (m : mstate -> (mstate -> option mstate) -> option mstate) : Prop :=
  forall s k s', m s k = Some s' ->
    exists s1, k s1 = Some s' /\ pos s + n <= pos s1
               /\ pos s1 + length (rest s1) = pos s + length (rest s).

(** A loop body that only records the match: the loop then returns the
    successive matches of the pattern, the occurrences the other loops
    over the same pattern and text see one by one. *)
Definition record_match (m : Match) (re : RegExp) (ms : list Match) : RegExp * list Match :=
  (re, ms ++ [m]).

Definition all_matches (fuel : nat) (re : RegExp) (text : jsstr) : option (list Match) :=
  snd <$> while_exec fuel record_match re text [].

(** A loop body that leaves the RegExp object alone and folds the matches
    into the variables of the loop. *)
Definition folds {A} (body : Match -> RegExp -> A -> RegExp * A) (f : A -> Match -> A) : Prop :=
  forall m re acc, body m re acc = (re, f acc m).

(** *** Texts the statements evaluate the extractors on *)

(** The text of the specification's FTP example. *)
Definition ftp_example : jsstr :=
  js "serwer FTP: ftp.example.com" ++ [10%N] ++ js "login: alice" ++ [10%N]
  ++ js "hasło: s3cret".

(** A one-line message that names an FTP server. *)
Definition ftp_message : jsstr := js "Dane FTP: ftp.example.com, login: alice".

(** A one-line message that names a server. *)
Definition server_message : jsstr := js "serwer: host.example.com, login: root".



(** A nameserver block followed by the domain, introduced by the
    nominative [domena] as in the specification's example, and by the
    genitive [domeny]. *)
Definition domena_example : jsstr :=
  js "serwery DNS:" ++ [10%N] ++ js "ns1.foo.com" ++ [10%N] ++ js "ns2.foo.com"
  ++ [10%N] ++ js "domena: foo.com".

Definition domeny_example : jsstr :=
  js "serwery DNS:" ++ [10%N] ++ js "ns1.foo.com" ++ [10%N] ++ js "ns2.foo.com"
  ++ [10%N] ++ js "domeny: foo.com".

(** A nameserver block in a text that names no domain but two sites. *)
Definition sites_example : jsstr :=
  js "nameservers: ns1.foo.com, ns2.foo.com. Strony: https://www.bar.pl/sklep oraz http://baz.org".


(** What one match contributes to the array of domains. *)
Definition domain_step (nameservers : list jsstr) (grp : nat) (confidence : Q)
    (domains : list domainInfo) (m : Match) : list domainInfo :=
  (push_domain nameservers grp confidence m DomainPatterns.websiteRegex domains).2.

(** The patterns of a loop that returns: the [g] flag, no empty match, and
    a fresh [lastIndex]. *)
Definition steady (re : RegExp) : Prop :=
  global re = true /\ 0 < min_len (source re) /\ lastIndex re = 0.

(** *** Credentials the statements evaluate the formatter on *)

(** A credential with the properties that matter to the statements; the
    others are absent. *)
Definition candidate (_type server username url domain email : field jsstr)
    (confidence : field Q) (clientId clientName ticketId : field jsstr) : credential :=
  {| Credential._type := _type; Credential.server := server;
     Credential.system := Undefined; Credential.username := username;
     Credential.password := Undefined; Credential.port := Undefined;
     Credential.encryption := Undefined; Credential.dateExtracted := Undefined;
     Credential.confidence := confidence; Credential.url := url;
     Credential.loginUrl := Undefined; Credential.domain := domain;
     Credential.registrar := Undefined; Credential.nameservers := Undefined;
     Credential.currentNameservers := Undefined; Credential.email := email;
     Credential.imapSettings := Undefined; Credential.smtpSettings := Undefined;
     Credential.popSettings := Undefined; Credential.imapPort := Undefined;
     Credential.smtpPort := Undefined; Credential.popPort := Undefined;
     Credential.clientId := clientId; Credential.clientName := clientName;
     Credential.ticketId := ticketId |}.

(** A reading of the clock. *)
Definition clock : jsstr := js "2024-05-01T10:00:00.000Z".

(** Two FTP candidates for the same server and user, found with different
    confidence. *)
Definition ftp_first : credential :=
  candidate (Val (js "ftp")) (Val (js "ftp.example.com")) (Val (js "alice"))
    Undefined Undefined Undefined (Val 0.9%Q) Undefined Undefined Undefined.




(** An FTP candidate found with confidence 0. *)
Definition zero_confidence : credential :=
  candidate (Val (js "ftp")) (Val (js "ftp.example.com")) (Val (js "alice"))
    Undefined Undefined Undefined (Val 0%Q) Undefined Undefined Undefined.

(** A site whose address was written without a scheme. *)
Definition bad_site : credential :=
  candidate (Val (js "website")) Undefined (Val (js "admin"))
    (Val (js "www.example.com")) Undefined Undefined (Val 0.9%Q)
    Undefined Undefined Undefined.

(** The number of records in the five buckets. *)
Definition bucket_total (r : Categorized.t) : nat :=
  length (Categorized.ftpAccounts r) + length (Categorized.websites r)
  + length (Categorized.domains r) + length (Categorized.emailAccounts r)
  + length (Categorized.otherCredentials r).

(** Two records of the same client, filed under different names and
    tickets. *)
Definition acme_ftp : credential :=
  candidate (Val (js "ftp")) (Val (js "ftp.example.com")) (Val (js "alice"))
    Undefined Undefined Undefined (Val 0.9%Q)
    (Val (js "c1")) (Val (js "ACME")) (Val (js "t1")).

Definition acme_domain : credential :=
  candidate (Val (js "domain")) Undefined Undefined
    Undefined (Val (js "example.com")) Undefined (Val 0.9%Q)
    (Val (js "c1")) (Val (js "Acme Ltd")) (Val (js "t2")).

(** The client and ticket a credential is filed under, and the name it
    gives its client. *)
Definition client_key (cred : credential) : jsstr :=
  or_value (Credential.clientId cred) (js "unknown").

Definition ticket_key (cred : credential) : jsstr :=
  or_value (Credential.ticketId cred) (js "general").

Definition client_label (cred : credential) : jsstr :=
  or_value (Credential.clientName cred) (js "Nieznany Klient").

(** The name the first credential of a client gives it. *)
Definition first_label (creds : list credential) (key : jsstr) : jsstr :=
  match find (fun cred => jsstr_eqb (client_key cred) key) creds with
  | Some cred => client_label cred
  | None => []
  end.

(** The flat record expected for a credential of the array [creds] whose
    formatted form is [f]. *)
Definition regrouped (creds : list credential) (f : formatted) (cred : credential)
    : flatCredential :=
  {| flat_cred := f;
     flat_clientId := client_key cred;
     flat_clientName := first_label creds (client_key cred);
     flat_ticketId := ticket_key cred |}.

(** The name of a client in a grouped structure. *)
Definition name_in (groupedData : obj client) (key : jsstr) : jsstr :=
  match own groupedData key with
  | Some entry => clientName entry
  | None => []
  end.

(** The flat records of a ticket, of a client and of a grouped structure,
    with the properties in the order of their creation. *)
Definition flatten_ticket (clientId name : jsstr) (e : jsstr * ticket) : list flatCredential :=
  map (fun cred => {| flat_cred := cred; flat_clientId := clientId;
                      flat_clientName := name; flat_ticketId := e.1 |})
      (credentials e.2).

Definition flatten_client (e : jsstr * client) : list flatCredential :=
  flat_map (flatten_ticket e.1 (clientName e.2)) (tickets e.2).

Definition flatten_created (groupedData : obj client) : list flatCredential :=
  flat_map flatten_client groupedData.

(** The array [mergeCredentials] builds from the credentials that remain,
    given the keys seen so far. *)
Fixpoint keep_first (seen : gset jsstr) (l : list credential) : list credential :=
  match l with
  | [] => []
  | cred :: l' =>
      if decide (uniqueKey cred ∈ seen) then keep_first seen l'
      else cred :: keep_first ({[ uniqueKey cred ]} ∪ seen) l'
  end.

(* ===================================================================== *)
(** ** [validateCredential] and [detectCmsType] *)
(* ===================================================================== *)

Global Instance kind_eq_dec : EqDecision kind.
Proof. solve_decision. Defined.

(** [validateCredential(credential, type = "generic")].  The first
    argument is [None] when it is [null], [undefined] or not an object; the
    second is [Undefined] when the caller leaves it out.  A [type] that is
    none of the five names takes the [default] branch of the [switch], the
    one of "generic". *)
Definition validateCredential (credential : option credential) (type : field jsstr) : bool :=
  match credential with
  | None => false
  | Some credential =>
      let type := match type with Undefined => Val (js "generic") | _ => type end in
      if is_literal type "ftp" then
        is_truthy (Credential.server credential) && is_truthy (Credential.username credential)
      else if is_literal type "website" then
        is_truthy (Credential.url credential) && is_truthy (Credential.username credential)
      else if is_literal type "domain" then
        is_truthy (Credential.domain credential)
      else if is_literal type "email" then
        is_truthy (Credential.email credential)
        || is_truthy (Credential.username credential)
           && opt_includes (Credential.username credential) "@"
      else
        is_truthy (Credential.username credential)
  end.

(** [detectCmsType(url, contextText)] of the extractor; [None] is [null]. *)
Definition detectCmsType (url : field jsstr) (contextText : jsstr) : option jsstr :=
  match url with
  | Val url =>
      if negb (str_truthy url) then None
      else
        let lowerUrl := toLowerCase url in
        let lowerContext := toLowerCase contextText in
        if includes lowerUrl (js "/wp-") || includes lowerUrl (js "wp-admin")
           || includes lowerUrl (js "wp-content")
        then Some (js "WordPress")
        else if includes lowerUrl (js "/administrator") || includes lowerUrl (js "joomla")
        then Some (js "Joomla")
        else if includes lowerUrl (js "/drupal") || includes lowerUrl (js "/sites/all/")
        then Some (js "Drupal")
        else if includes lowerUrl (js "magento") || includes lowerUrl (js "/admin_")
        then Some (js "Magento")
        else if includes lowerUrl (js "prestashop") || includes lowerUrl (js "/adminps/")
        then Some (js "PrestaShop")
        else if includes lowerContext (js "wordpress") || includes lowerContext (js " wp ")
        then Some (js "WordPress")
        else if includes lowerContext (js "joomla") then Some (js "Joomla")
        else if includes lowerContext (js "drupal") then Some (js "Drupal")
        else if includes lowerContext (js "magento") then Some (js "Magento")
        else if includes lowerContext (js "prestashop") then Some (js "PrestaShop")
        else if includes lowerContext (js "woocommerce") then Some (js "WooCommerce")
        else if includes lowerContext (js "shopify") then Some (js "Shopify")
        else None
  | _ => None
  end.

(* ===================================================================== *)
(** ** The extractors of the analysis service *)
(* ===================================================================== *)

(** The pattern-matching extractors that the analysis service falls back
    on ([extractFtpAccounts], [extractWebsites], [extractDomains],
    [extractEmailAccounts], [extractGeneralCredentials]) and
    [extractMigrationData], which runs the first four.  Their RegExp objects
    are literals inside the functions: each call starts with fresh ones. *)
Module Service.

(** [text.substring(Math.max(0, index - before), Math.min(text.length, index + after))] *)
Definition window (text : jsstr) (index before after : nat) : jsstr :=
  substring text (Nat.max 0 (index - before)) (Nat.min (length text) (index + after)).

(** [https?:\/\/[a-zA-Z0-9.-]+\.[a-zA-Z]{2,}[^\s,;)]*] *)
Definition url : regex :=
  (ServerPatterns.http +++ hostname
   +++ star (Cls true [Space; One (cu ","); One (cu ";"); One (cu ")")]))%re.

(** *** [extractFtpAccounts] *)

(** [/(?:serwer(?:a)?\s*FTP|adres\s*FTP):\s*([a-zA-Z0-9.-]+\.[a-zA-Z]{2,})/gi] *)
Definition ftpServerRegex : RegExp :=
  re_gi ((lit "serwer" +++ opt (lit "a") +++ star ws +++ lit "FTP"
          <|> lit "adres" +++ star ws +++ lit "FTP")
         +++ lit ":" +++ star ws +++ Grp 1 hostname)%re.

(** [/FTP:\s*([a-zA-Z0-9.-]+\.[a-zA-Z]{2,})/gi] *)
Definition ftpServerRegex2 : RegExp :=
  re_gi (lit "FTP:" +++ star ws +++ Grp 1 hostname)%re.

(** [/(?:adres\s*IP|IP):\s*(\d{1,3}\.\d{1,3}\.\d{1,3}\.\d{1,3})/gi] *)
Definition ipAddressRegex : RegExp :=
  re_gi ((lit "adres" +++ star ws +++ lit "IP" <|> lit "IP")
         +++ lit ":" +++ star ws +++ Grp 1 ipv4)%re.

(** [/(?:login|username|user|użytkownika|nazwa\s*użytkownika):\s*([a-zA-Z0-9._-]+)/i] *)
Definition nearbyLoginRegex : RegExp :=
  re_i ((lit "login" <|> lit "username" <|> lit "user" <|> lit "użytkownika"
         <|> lit "nazwa" +++ star ws +++ lit "użytkownika")
        +++ lit ":" +++ star ws +++ Grp 1 account_name)%re.

(** [/(?:hasło|haslo|password|pass|pwd):\s*([^\s,;]+)/i] *)
Definition nearbyPasswordRegex : RegExp :=
  re_i ((lit "hasło" <|> lit "haslo" <|> lit "password" <|> lit "pass" <|> lit "pwd")
        +++ lit ":" +++ star ws +++ Grp 1 secret)%re.

(** An element of the array [extractFtpAccounts] returns. *)
Record ftpAccount := {
  account_server : jsstr;
  account_username : jsstr;
  account_password : jsstr
}.

(** [{server: match[1], index: match.index}] *)
Definition anchor_of (m : Match) : serverAnchor :=
  {| anchor_server := group_text m 1; anchor_index := index m |}.

(** The body of the two loops over the server patterns. *)
Definition push_ftpServer (ftpMatch : Match) (re : RegExp) (ftpServers : list serverAnchor)
    : RegExp * list serverAnchor :=
  (re, ftpServers ++ [anchor_of ftpMatch]).

(** The test of the loop over IP addresses: the 50 characters on either
    side of the address mention FTP or a server. *)
Definition near_server_mention (text : jsstr) (ipMatch : Match) : bool :=
  let nearbyText := window text (index ipMatch) 50 50 in
  includes (toLowerCase nearbyText) (js "ftp")
  || includes (toLowerCase nearbyText) (js "serwer")
  || includes (toLowerCase nearbyText) (js "server").

(** The body of the loop over IP addresses. *)
Definition push_ipAddress (text : jsstr) (ipMatch : Match) (re : RegExp)
    (ftpServers : list serverAnchor) : RegExp * list serverAnchor :=
  if near_server_mention text ipMatch
  then (re, ftpServers ++ [anchor_of ipMatch])
  else (re, ftpServers).

(** The body of [ftpServers.forEach]. *)
Definition account_near (text : jsstr) (server : serverAnchor) : option ftpAccount :=
  let startPos := Nat.max 0 (anchor_index server - 300) in
  let endPos := Nat.min (length text) (anchor_index server + 300) in
  let nearbyText := substring text startPos endPos in
  let loginMatch := exec1 nearbyLoginRegex nearbyText in
  let passwordMatch := exec1 nearbyPasswordRegex nearbyText in
  match loginMatch with
  | Some loginMatch =>
      Some {| account_server := anchor_server server;
              account_username := group_text loginMatch 1;
              account_password := match passwordMatch with
                                  | Some passwordMatch => group_text passwordMatch 1
                                  | None => []
                                  end |}
  | None => None
  end.

(** [extractFtpAccounts(text)].  [None]: a loop is still running after
    [fuel] iterations. *)
Definition extractFtpAccounts (fuel : nat) (text : jsstr) : option (list ftpAccount) :=
  found ← while_exec fuel push_ftpServer ftpServerRegex text [];
  found ← while_exec fuel push_ftpServer ftpServerRegex2 text found.2;
  found ← while_exec fuel (push_ipAddress text) ipAddressRegex text found.2;
  Some (omap (M:=list) (account_near text) found.2).

(** *** [extractWebsites] *)

(** [/(?:stron(?:y|ę)|www|http|przeniesienia)(?:[^:]*?)(?:URL)/gi], where URL
    is the pattern [url] above *)
Definition websiteRegex : RegExp :=
  re_gi ((lit "stron" +++ (lit "y" <|> lit "ę") <|> lit "www" <|> lit "http"
          <|> lit "przeniesienia")
         +++ up_to_colon +++ url)%re.

(** [/(URL)/i] and [/(URL)/gi] *)
Definition urlRegex : RegExp := re_i (Grp 1 url).
Definition bareUrlRegex : RegExp := re_gi (Grp 1 url).

(** An element of the array [extractWebsites] returns. *)
Record website := {
  website_url : jsstr;
  website_index : nat
}.

(** The body of the loop over the sites named in context. *)
Definition push_website (websiteMatch : Match) (re : RegExp) (websites : list website)
    : RegExp * list website :=
  let matchText := matched websiteMatch in
  match exec1 urlRegex matchText with
  | Some urlMatch =>
      (re, websites ++ [{| website_url := group_text urlMatch 1;
                           website_index := index websiteMatch |}])
  | None => (re, websites)
  end.

(** The body of the loop over bare URLs. *)
Definition push_bareUrl (websiteMatch : Match) (re : RegExp) (websites : list website)
    : RegExp * list website :=
  let url := group_text websiteMatch 1 in
  if negb (existsb (fun site => jsstr_eqb (website_url site) url) websites) then
    (re, websites ++ [{| website_url := url; website_index := index websiteMatch |}])
  else (re, websites).

(** [extractWebsites(text)] *)
Definition extractWebsites (fuel : nat) (text : jsstr) : option (list website) :=
  found ← while_exec fuel push_website websiteRegex text [];
  snd <$> while_exec fuel push_bareUrl bareUrlRegex text found.2.

(** *** [extractDomains] *)

(** [/(?:domen(?:y|ę)|domain)(?:\s+|\s*:\s* )?([a-zA-Z0-9.-]+\.[a-zA-Z]{2,})/gi]
    (written here with a blank before the closing parenthesis of the second
    group) *)
Definition domainRegex : RegExp :=
  re_gi ((lit "domen" +++ (lit "y" <|> lit "ę") <|> lit "domain")
         +++ DomainPatterns.separator +++ Grp 1 hostname)%re.

(** [/(?:serwer(?:y|ów)?\s*(?:DNS|nazw)|nameserver(?:s)?)(?:[^:]*?):?/i] *)
Definition nsRegex : RegExp :=
  re_i ((lit "serwer" +++ opt (lit "y" <|> lit "ów") +++ star ws
         +++ (lit "DNS" <|> lit "nazw")
         <|> lit "nameserver" +++ opt (lit "s"))
        +++ up_to_colon +++ opt (lit ":"))%re.

(** [/(?:ns\d+|NS\d+)\.([a-zA-Z0-9.-]+\.[a-zA-Z]{2,})/g] *)
Definition nsEntryRegex : RegExp :=
  re_g (DomainPatterns.ns_label +++ lit "." +++ Grp 1 hostname)%re.

(** [/(https?:\/\/([a-zA-Z0-9.-]+\.[a-zA-Z]{2,}))/gi] *)
Definition siteRegex : RegExp :=
  re_gi (Grp 1 (ServerPatterns.http +++ Grp 2 hostname))%re.

(** An element of the array [extractDomains] returns. *)
Record domainEntry := {
  entry_domain : jsstr;
  entry_nameservers : list jsstr;
  entry_index : nat
}.

(** The bodies of the three loops. *)
Definition push_nsEntry (nsEntryMatch : Match) (re : RegExp) (nameservers : list jsstr)
    : RegExp * list jsstr :=
  let fullNs := matched nsEntryMatch in
  (re, push_new fullNs nameservers).

Definition push_explicit (nameservers : list jsstr) (domainMatch : Match) (re : RegExp)
    (domains : list domainEntry) : RegExp * list domainEntry :=
  (re, domains ++ [{| entry_domain := group_text domainMatch 1;
                      entry_nameservers := nameservers;
                      entry_index := index domainMatch |}]).

Definition push_site_domain (nameservers : list jsstr) (websiteMatch : Match) (re : RegExp)
    (domains : list domainEntry) : RegExp * list domainEntry :=
  let domain := group_text websiteMatch 2 in
  if negb (existsb (fun d => jsstr_eqb (entry_domain d) domain) domains) then
    (re, domains ++ [{| entry_domain := domain;
                        entry_nameservers := nameservers;
                        entry_index := index websiteMatch |}])
  else (re, domains).

(** The nameservers of the nameserver section, if the text has one. *)
Definition find_nameservers (fuel : nat) (text : jsstr) : option (list jsstr) :=
  match exec1 nsRegex text with
  | Some nsMatch =>
      let nsBlockStart := index nsMatch in
      let nsBlock :=
        substring text nsBlockStart (Nat.min (length text) (nsBlockStart + 400)) in
      snd <$> while_exec fuel push_nsEntry nsEntryRegex nsBlock []
  | None => Some []
  end.

(** [extractDomains(text)] *)
Definition extractDomains (fuel : nat) (text : jsstr) : option (list domainEntry) :=
  nameservers ← find_nameservers fuel text;
  found ← while_exec fuel (push_explicit nameservers) domainRegex text [];
  let domains := found.2 in
  if (0 <? length nameservers) && (length domains =? 0) then
    snd <$> while_exec fuel (push_site_domain nameservers) siteRegex text domains
  else Some domains.

(** *** [extractEmailAccounts] *)

(** [/([a-zA-Z0-9._%+-]+@[a-zA-Z0-9.-]+\.[a-zA-Z]{2,})/gi] *)
Definition emailRegex : RegExp :=
  re_gi (Grp 1 (plus (Cls false (alnum ++ [One (cu "."); One (cu "_"); One (cu "%");
                                           One (cu "+"); One (cu "-")]))
                +++ lit "@" +++ hostname))%re.

(** [/(?:dane|konfiguracja)\s+(?:do\s+)?(?:poczty|klient(?:a|ów)\s+pocztow)/i] *)
Definition emailConfigRegex : RegExp :=
  re_i ((lit "dane" <|> lit "konfiguracja") +++ plus ws
        +++ opt (lit "do" +++ plus ws)
        +++ (lit "poczty"
             <|> lit "klient" +++ (lit "a" <|> lit "ów") +++ plus ws +++ lit "pocztow"))%re.

(** [/(?:serwer\s+(?:poczty|pocztowy)|mail\s+server)(?:\s+(?:wychodząc(?:ej|a)|przychodzac(?:ej|a))?)?(?:\s*(?:to|jest|:))?\s*([a-zA-Z0-9.-]+\.[a-zA-Z]{2,})/i] *)
Definition serverRegex : RegExp :=
  re_i ((lit "serwer" +++ plus ws +++ (lit "poczty" <|> lit "pocztowy")
         <|> lit "mail" +++ plus ws +++ lit "server")
        +++ opt (plus ws
                 +++ opt (lit "wychodząc" +++ (lit "ej" <|> lit "a")
                          <|> lit "przychodzac" +++ (lit "ej" <|> lit "a")))
        +++ opt (star ws +++ (lit "to" <|> lit "jest" <|> lit ":"))
        +++ star ws +++ Grp 1 hostname)%re.

(** [/(?:hasło|haslo|password|pass):\s*([^\s,;]+)/i] *)
Definition passwordRegex : RegExp :=
  re_i ((lit "hasło" <|> lit "haslo" <|> lit "password" <|> lit "pass")
        +++ lit ":" +++ star ws +++ Grp 1 secret)%re.

(** [/(?:port\s+IMAP|IMAP[^:]*?port):\s*(\d+)/i],
    [/(?:port\s+SMTP|SMTP[^:]*?port):\s*(\d+)/i],
    [/(?:port\s+POP3?|POP3?[^:]*?port):\s*(\d+)/i] *)
Definition imapPortRegex : RegExp :=
  re_i ((lit "port" +++ plus ws +++ lit "IMAP"
         <|> lit "IMAP" +++ up_to_colon +++ lit "port")
        +++ lit ":" +++ star ws +++ Grp 1 (plus digit))%re.

Definition smtpPortRegex : RegExp :=
  re_i ((lit "port" +++ plus ws +++ lit "SMTP"
         <|> lit "SMTP" +++ up_to_colon +++ lit "port")
        +++ lit ":" +++ star ws +++ Grp 1 (plus digit))%re.

Definition popPortRegex : RegExp :=
  re_i ((lit "port" +++ plus ws +++ lit "POP" +++ opt (lit "3")
         <|> lit "POP" +++ opt (lit "3") +++ up_to_colon +++ lit "port")
        +++ lit ":" +++ star ws +++ Grp 1 (plus digit))%re.

(** [{server, port, encryption}]; a [port] of [None] is [null]. *)
Record settings := {
  settings_host : jsstr;
  settings_portNumber : option number;
  settings_encryption : jsstr
}.

(** The [mailServers] object once it is filled in; before that it is [{}],
    written [None] below. *)
Record mailServers := {
  servers_server : jsstr;
  servers_imapSettings : settings;
  servers_smtpSettings : settings;
  servers_popSettings : settings
}.

(** An element of the array [extractEmailAccounts] returns; [None] in a
    field is [null]. *)
Record emailAccount := {
  email_email : jsstr;
  email_password : jsstr;
  email_server : option jsstr;
  email_imapSettings : option settings;
  email_smtpSettings : option settings;
  email_popSettings : option settings
}.

(** The server configuration block of the text, if it has one. *)
Definition find_mailServers (text : jsstr) : option mailServers :=
  match exec1 emailConfigRegex text with
  | Some configMatch =>
      let configBlockStart := index configMatch in
      let configBlock :=
        substring text configBlockStart
          (Nat.min (length text) (configBlockStart + 800)) in
      match exec1 serverRegex configBlock with
      | Some serverMatch =>
          let server := group_text serverMatch 1 in
          let port_of (re : RegExp) : option number :=
            (fun m => parseInt (group_text m 1)) <$> exec1 re configBlock in
          let settings_of (re : RegExp) :=
            {| settings_host := server; settings_portNumber := port_of re;
               settings_encryption := js "SSL/TLS" |} in
          Some {| servers_server := server;
                  servers_imapSettings := settings_of imapPortRegex;
                  servers_smtpSettings := settings_of smtpPortRegex;
                  servers_popSettings := settings_of popPortRegex |}
      | None => None
      end
  | None => None
  end.

(** The test that makes both loops skip an address. *)
Definition looks_like_login (text : jsstr) (emailMatch : Match) : bool :=
  let preText := substring text (Nat.max 0 (index emailMatch - 20)) (index emailMatch) in
  includes (toLowerCase preText) (js "login")
  || includes (toLowerCase preText) (js "user")
  || includes (toLowerCase preText) (js "name").

(** [passwordMatch ? passwordMatch[1] : ""] for the password near a match *)
Definition password_near (text : jsstr) (emailMatch : Match) : jsstr :=
  let nearbyText := window text (index emailMatch) 200 200 in
  match exec1 passwordRegex nearbyText with
  | Some passwordMatch => group_text passwordMatch 1
  | None => []
  end.

(** The test of the first loop: the 200 characters on either side of the
    address mention a migration or mailboxes. *)
Definition mentioned_for_migration (text : jsstr) (emailMatch : Match) : bool :=
  let nearbyText := window text (index emailMatch) 200 200 in
  includes (toLowerCase nearbyText) (js "migracj")
  || includes (toLowerCase nearbyText) (js "przeniesieni")
  || includes (toLowerCase nearbyText) (js "skrzynki")
  || includes (toLowerCase nearbyText) (js "pocztow").

(** The account the first loop pushes for an address:
    [{email, password, server: mailServers.server || null,
      imapSettings: mailServers.imapSettings || null, ...}]. *)
Definition account_of (text : jsstr) (mailServers : option mailServers)
    (emailMatch : Match) : emailAccount :=
  {| email_email := group_text emailMatch 1;
     email_password := password_near text emailMatch;
     email_server :=
       match mailServers with
       | Some servers =>
           if str_truthy (servers_server servers)
           then Some (servers_server servers) else None
       | None => None
       end;
     email_imapSettings := servers_imapSettings <$> mailServers;
     email_smtpSettings := servers_smtpSettings <$> mailServers;
     email_popSettings := servers_popSettings <$> mailServers |}.

(** The body of the first loop: the addresses mentioned for migration. *)
Definition push_migration_email (text : jsstr) (mailServers : option mailServers)
    (emailMatch : Match) (re : RegExp) (emailAccounts : list emailAccount)
    : RegExp * list emailAccount :=
  if looks_like_login text emailMatch then (re, emailAccounts)   (* continue *)
  else if mentioned_for_migration text emailMatch then
    (re, emailAccounts ++ [account_of text mailServers emailMatch])
  else (re, emailAccounts).

(** The body of the second loop: every address, with the configuration
    found. *)
Definition push_configured_email (text : jsstr) (servers : mailServers)
    (emailMatch : Match) (re : RegExp) (emailAccounts : list emailAccount)
    : RegExp * list emailAccount :=
  let email := group_text emailMatch 1 in
  if looks_like_login text emailMatch then (re, emailAccounts)   (* continue *)
  else
    (re, emailAccounts ++
         [{| email_email := email;
             email_password := password_near text emailMatch;
             email_server := Some (servers_server servers);
             email_imapSettings := Some (servers_imapSettings servers);
             email_smtpSettings := Some (servers_smtpSettings servers);
             email_popSettings := Some (servers_popSettings servers) |}]).

(** [extractEmailAccounts(text)] *)
Definition extractEmailAccounts (fuel : nat) (text : jsstr) : option (list emailAccount) :=
  let mailServers := find_mailServers text in
  found ← while_exec fuel (push_migration_email text mailServers) emailRegex text [];
  let emailAccounts := found.2 in
  match mailServers with
  | Some servers =>
      if (length emailAccounts =? 0) && str_truthy (servers_server servers) then
        snd <$> while_exec fuel (push_configured_email text servers) emailRegex text
                  emailAccounts
      else Some emailAccounts
  | None => Some emailAccounts
  end.

(** *** [extractGeneralCredentials] *)

(** [/(?:dane(?:\s+do)?|login(?:\s+do)?|logowanie|konto|dostęp(?:owe)?|access|account|credentials)(?:\s+do|\s+dla)?(?:\s+|\s*:+\s*|\s*-+\s*|\s*=+\s* )(?:panel(?:u)?|admin|cpanel|serwer(?:a)?|konta|strony)?/gi]
    (written here with a blank before the closing parenthesis of the third
    group) *)
Definition loginBlockRegex : RegExp :=
  re_gi ((lit "dane" +++ opt (plus ws +++ lit "do")
          <|> lit "login" +++ opt (plus ws +++ lit "do")
          <|> lit "logowanie" <|> lit "konto"
          <|> lit "dostęp" +++ opt (lit "owe")
          <|> lit "access" <|> lit "account" <|> lit "credentials")
         +++ opt (plus ws +++ lit "do" <|> plus ws +++ lit "dla")
         +++ (plus ws
              <|> star ws +++ plus (lit ":") +++ star ws
              <|> star ws +++ plus (lit "-") +++ star ws
              <|> star ws +++ plus (lit "=") +++ star ws)
         +++ opt (lit "panel" +++ opt (lit "u") <|> lit "admin" <|> lit "cpanel"
                  <|> lit "serwer" +++ opt (lit "a") <|> lit "konta" <|> lit "strony"))%re.

(** [(?:login|username|user|użytkownika?|nazwa\s*użytkownika):\s*([a-zA-Z0-9._@-]+)] *)
Definition username : regex :=
  ((lit "login" <|> lit "username" <|> lit "user"
    <|> lit "użytkownik" +++ opt (lit "a")
    <|> lit "nazwa" +++ star ws +++ lit "użytkownika")
   +++ lit ":" +++ star ws
   +++ Grp 1 (plus (Cls false (alnum ++ [One (cu "."); One (cu "_"); One (cu "@");
                                         One (cu "-")]))))%re.

(** The pattern above with the flags [i] and [gi]. *)
Definition usernameRegex : RegExp := re_i username.
Definition simpleLoginRegex : RegExp := re_gi username.

(** [/(?:panel|system|strona|serwer|server|host|panel):\s*(https?:\/\/[^\s,;]+|[a-zA-Z0-9.-]+\.[a-zA-Z]{2,})/i] *)
Definition systemRegex : RegExp :=
  re_i ((lit "panel" <|> lit "system" <|> lit "strona" <|> lit "serwer" <|> lit "server"
         <|> lit "host" <|> lit "panel")
        +++ lit ":" +++ star ws
        +++ Grp 1 (ServerPatterns.http +++ secret <|> hostname))%re.

(** An entry of the [loginBlocks] array. *)
Record loginBlock := {
  block_block : jsstr;
  block_index : nat
}.

(** An element of the array [extractGeneralCredentials] returns. *)
Record generalCredential := {
  general_username : jsstr;
  general_password : jsstr;
  general_system : jsstr;
  general_index : nat
}.

(** [{block: credentialBlock, index: blockMatch.index}]: the 400
    characters from the start of a match. *)
Definition block_of (text : jsstr) (blockMatch : Match) : loginBlock :=
  let blockStart := index blockMatch in
  let credentialBlock :=
    substring text blockStart (Nat.min (length text) (blockStart + 400)) in
  {| block_block := credentialBlock; block_index := index blockMatch |}.

(** The body of the loop over the blocks that may hold credentials. *)
Definition push_loginBlock (text : jsstr) (blockMatch : Match) (re : RegExp)
    (loginBlocks : list loginBlock) : RegExp * list loginBlock :=
  (re, loginBlocks ++ [block_of text blockMatch]).

(** The body of [loginBlocks.forEach]. *)
Definition block_credential (block : loginBlock) : option generalCredential :=
  let usernameMatch := exec1 usernameRegex (block_block block) in
  let passwordMatch := exec1 nearbyPasswordRegex (block_block block) in
  let systemMatch := exec1 systemRegex (block_block block) in
  match usernameMatch, passwordMatch with
  | Some usernameMatch, Some passwordMatch =>
      Some {| general_username := group_text usernameMatch 1;
              general_password := group_text passwordMatch 1;
              general_system := match systemMatch with
                                | Some systemMatch => group_text systemMatch 1
                                | None => js "Nieokreślony"
                                end;
              general_index := block_index block |}
  | _, _ => None
  end.

(** The system a login stands for, from the words around it. *)
Definition system_of (contextText : jsstr) : jsstr :=
  if includes (toLowerCase contextText) (js "ftp") then js "FTP"
  else if includes (toLowerCase contextText) (js "panel") then js "Panel administracyjny"
  else if includes (toLowerCase contextText) (js "cpanel")
          || includes (toLowerCase contextText) (js "cpsess") then js "cPanel"
  else if includes (toLowerCase contextText) (js "host") then js "Hosting"
  else if includes (toLowerCase contextText) (js "mail")
          || includes (toLowerCase contextText) (js "poczt") then js "Email"
  else js "Nieokreślony".

(** The body of the loop over the logins of the whole text. *)
Definition push_simpleLogin (text : jsstr) (loginMatch : Match) (re : RegExp)
    (credentials : list generalCredential) : RegExp * list generalCredential :=
  let username := group_text loginMatch 1 in
  if existsb (fun cred => jsstr_eqb (general_username cred) username) credentials
  then (re, credentials)   (* continue *)
  else
    let nearbyText := window text (index loginMatch) 50 200 in
    match exec1 nearbyPasswordRegex nearbyText with
    | Some passwordMatch =>
        let contextText := window text (index loginMatch) 100 100 in
        (re, credentials ++ [{| general_username := username;
                                general_password := group_text passwordMatch 1;
                                general_system := system_of contextText;
                                general_index := index loginMatch |}])
    | None => (re, credentials)
    end.

(** [extractGeneralCredentials(text)] *)
Definition extractGeneralCredentials (fuel : nat) (text : jsstr)
    : option (list generalCredential) :=
  found ← while_exec fuel (push_loginBlock text) loginBlockRegex text [];
  let credentials := omap (M:=list) block_credential found.2 in
  snd <$> while_exec fuel (push_simpleLogin text) simpleLoginRegex text credentials.

(** *** [extractMigrationData] *)

(** The object [extractMigrationData] returns. *)
Record migrationData := {
  ftpAccounts : list ftpAccount;
  websitesToMigrate : list website;
  domains : list domainEntry;
  emailAccounts : list emailAccount
}.

(** [extractMigrationData(text)] *)
Definition extractMigrationData (fuel : nat) (text : jsstr) : option migrationData :=
  ftp ← extractFtpAccounts fuel text;
  web ← extractWebsites fuel text;
  dom ← extractDomains fuel text;
  mail ← extractEmailAccounts fuel text;
  Some {| ftpAccounts := ftp; websitesToMigrate := web; domains := dom;
          emailAccounts := mail |}.

End Service.

(* ===================================================================== *)
(** ** Further notions used in the statements *)
(* ===================================================================== *)

(** A grouped structure none of whose own properties, and none of whose
    tickets, is named like a property of [Object.prototype]. *)
Definition plain_names (groupedData : obj client) : Prop :=
  (forall k, k ∈ prototype_keys -> own groupedData k = None)
  /\ (forall k entry, own groupedData k = Some entry ->
        forall tk, tk ∈ prototype_keys -> own (tickets entry) tk = None).

(** A credential filed under the client id "constructor". *)
Definition constructor_client : credential :=
  candidate (Val (js "ftp")) (Val (js "ftp.example.com")) (Val (js "alice"))
    Undefined Undefined Undefined (Val 0.9%Q)
    (Val (js "constructor")) (Val (js "ACME")) (Val (js "t1")).

(** All the records of the five buckets, each with the tag of its shape. *)
Definition bucket_records (r : Categorized.t) : list formatted :=
  (FtpRecord <$> Categorized.ftpAccounts r)
  ++ (WebsiteRecord <$> Categorized.websites r)
  ++ (DomainRecord <$> Categorized.domains r)
  ++ (EmailRecord <$> Categorized.emailAccounts r)
  ++ (GenericRecord <$> Categorized.otherCredentials r).

(** A credential that carries only the label the analysis service gives an
    FTP account, and no server of its own. *)
Definition labelled_ftp : credential :=
  {| Credential._type := Undefined; Credential.server := Undefined;
     Credential.system := Val (js "FTP (ftp.example.com)");
     Credential.username := Val (js "alice");
     Credential.password := Val (js "s3cret"); Credential.port := Undefined;
     Credential.encryption := Undefined; Credential.dateExtracted := Undefined;
     Credential.confidence := Undefined; Credential.url := Undefined;
     Credential.loginUrl := Undefined; Credential.domain := Undefined;
     Credential.registrar := Undefined; Credential.nameservers := Undefined;
     Credential.currentNameservers := Undefined; Credential.email := Undefined;
     Credential.imapSettings := Undefined; Credential.smtpSettings := Undefined;
     Credential.popSettings := Undefined; Credential.imapPort := Undefined;
     Credential.smtpPort := Undefined; Credential.popPort := Undefined;
     Credential.clientId := Undefined; Credential.clientName := Undefined;
     Credential.ticketId := Undefined |}.

(* ===================================================================== *)
(** ** The definitions at work *)
(* ===================================================================== *)

(** A greedy quantifier gives back what the rest of the pattern needs, a
    lazy one takes as little as it can, and the first alternative that lets
    the whole pattern match wins. *)
Example greedy_backtracks :
  exec1 (re_ (Grp 1 (plus (Cls false alpha)) +++ lit "ab")) (js "xxabab")
  = Some {| index := 0; matched := js "xxabab"; captures := [(1, js "xxab")] |}.
Proof. vm_compute. reflexivity. Qed.

Example lazy_takes_least :
  exec1 (re_ (lit "<" +++ Grp 1 (lazy_star (Cls true [])) +++ lit ">")) (js "<a><b>")
  = Some {| index := 0; matched := js "<a>"; captures := [(1, js "a")] |}.
Proof. vm_compute. reflexivity. Qed.

Example alternatives_in_order :
  exec1 (re_ ((lit "a" <|> lit "ab") +++ lit "c")) (js "xabc")
  = Some {| index := 1; matched := js "abc"; captures := [] |}.
Proof. vm_compute. reflexivity. Qed.

(** The [i] flag folds the letters of the patterns, Polish ones included. *)
Example ignore_case_folds :
  exec1 (re_i (lit "hasło")) (js "HASŁO: x")
  = Some {| index := 0; matched := js "HASŁO"; captures := [] |}
  /\ exec1 (re_ (lit "hasło")) (js "HASŁO: x") = None.
Proof. split; vm_compute; reflexivity. Qed.

(** With the [g] flag [exec] goes on from [lastIndex]; without it, it
    starts from the beginning whatever [lastIndex] holds. *)
Example exec_uses_lastIndex_with_g_only :
  (exec (set_lastIndex (re_g (plus digit)) 2) (js "12 34")).2
  = Some {| index := 3; matched := js "34"; captures := [] |}
  /\ (exec (set_lastIndex (re_ (plus digit)) 2) (js "12 34")).2
     = Some {| index := 0; matched := js "12"; captures := [] |}.
Proof. split; vm_compute; reflexivity. Qed.

Example strings_at_work :
  substring (js "abcdef") 4 2 = js "cd"
  /\ toLowerCase (js "Nazwa UŻYTKOWNIKA") = js "nazwa użytkownika"
  /\ trim (js "  ns1.foo.com ") = js "ns1.foo.com"
  /\ split_on 10%N (js "a" ++ [10%N] ++ js "b") = [js "a"; js "b"]
  /\ getNearbyText (js "abcdef") 2 3 = js "abcde".
Proof. repeat split; vm_compute; reflexivity. Qed.

Example URL_hostname_examples :
  URL.hostname (js "https://User:pw@WWW.Example.com:8080/a?b#c") = Some (js "www.example.com")
  /\ URL.hostname (js "http://example.com") = Some (js "example.com")
  /\ URL.hostname (js "www.example.com") = None
  /\ URL.hostname (js "http://") = None
  /\ URL.hostname (js "mailto:bob@example.com") = Some []
  /\ URL.hostname (js "https://example.com<br>") = None
  /\ URL.hostname (js "http://exa mple.com") = None
  /\ URL.hostname (js "http://[::1") = None
  /\ URL.hostname (js "http://[2001:DB8:0:0:8:800:200C:417A]:80/")
     = Some (js "[2001:db8::8:800:200c:417a]")
  /\ URL.hostname (js "http://0x7f.1") = Some (js "127.0.0.1")
  /\ URL.hostname (js "http://ex%41mple.com") = Some (js "example.com")
  /\ URL.hostname (js "http://żółw.pl") = Some (js "xn--w-uga1v8h.pl").
Proof. repeat split; vm_compute; reflexivity. Qed.

Example entries_order :
  fst <$> entries [(js "b", 1); (js "10", 2); (js "a", 3); (js "2", 4); (js "01", 5)]
  = [js "2"; js "10"; js "b"; js "a"; js "01"].
Proof. vm_compute. reflexivity. Qed.

Example ftp_csv :
  createCsvForCredentialType (OfFtp [formatFTPAccount clock ftp_first])
  = js "Server,Username,Password,Port,Encryption" ++ [10%N]
    ++ [34%N] ++ js "ftp.example.com" ++ [34%N] ++ js ","
    ++ [34%N] ++ js "alice" ++ [34%N] ++ js ","
    ++ [34%N; 34%N] ++ js ","
    ++ [34%N] ++ js "21" ++ [34%N] ++ js ","
    ++ [34%N] ++ js "FTP" ++ [34%N].
Proof. vm_compute. reflexivity. Qed.

(* ===================================================================== *)
(** ** The matcher makes progress *)
(* ===================================================================== *)

Lemma orelse_Some {A} (x y : option A) (a : A) :
  orelse x y = Some a -> x = Some a \/ y = Some a.
Proof. destruct x; simpl; auto. Qed.

Lemma rep_optional_progress once greedy n (Honce : progresses n once) :
  forall fuel left s k s',
    rep_optional once greedy k fuel left s = Some s' ->
    exists s1, k s1 = Some s' /\ pos s <= pos s1
               /\ pos s1 + length (rest s1) = pos s + length (rest s).
Proof.
  induction fuel as [|fuel IH]; intros left s k s' H.
  - assert (k s = Some s') as Hk by (destruct left as [[|]|]; exact H).
    exists s. auto.
  - assert (k s = Some s' \/
            once s (fun s2 => if pos s <? pos s2
                              then rep_optional once greedy k fuel (Nat.pred <$> left) s2
                              else None) = Some s') as [Hk | Hagain].
    { destruct left as [[|l]|]; simpl in H; auto;
        destruct greedy; apply orelse_Some in H; tauto. }
    + exists s. auto.
    + apply Honce in Hagain as (s2 & Hs2 & Hpos & Hlen).
      destruct (pos s <? pos s2) eqn:Hlt; [|discriminate].
      apply IH in Hs2 as (s1 & Hk & Hpos1 & Hlen1).
      exists s1. split; [exact Hk|]. split; lia.
Qed.

Lemma rep_required_progress once n (Honce : progresses n once) :
  forall count s k s',
    rep_required once k count s = Some s' ->
    exists s1, k s1 = Some s' /\ pos s + count * n <= pos s1
               /\ pos s1 + length (rest s1) = pos s + length (rest s).
Proof.
  induction count as [|count IH]; intros s k s' H; simpl in H.
  - exists s. split; [exact H|]. split; lia.
  - apply Honce in H as (s2 & Hs2 & Hpos & Hlen).
    apply IH in Hs2 as (s1 & Hk & Hpos1 & Hlen1).
    exists s1. split; [exact Hk|]. split; lia.
Qed.

Lemma rmatch_progresses ic r : progresses (min_len r) (rmatch ic r).
Proof.
  induction r as [|c|neg items|r1 IH1 r2 IH2|r1 IH1 r2 IH2|r1 IH1 min max greedy|i r1 IH1| |];
    intros s k s' H; simpl in H.
  - exists s. split; [exact H|]. simpl. split; lia.
  - destruct (rest s) as [|ch tl] eqn:Hrest; [discriminate|].
    destruct (same_char ic c ch); [|discriminate].
    exists (advance s tl). split; [exact H|]. simpl. split; lia.
  - destruct (rest s) as [|ch tl] eqn:Hrest; [discriminate|].
    destruct (xorb neg (in_class ic items ch)); [|discriminate].
    exists (advance s tl). split; [exact H|]. simpl. split; lia.
  - apply IH1 in H as (s1 & H & Hpos1 & Hlen1).
    apply IH2 in H as (s2 & H & Hpos2 & Hlen2).
    exists s2. split; [exact H|]. simpl. split; lia.
  - apply orelse_Some in H as [H | H].
    + apply IH1 in H as (s1 & H & Hpos1 & Hlen1).
      exists s1. split; [exact H|]. simpl. split; lia.
    + apply IH2 in H as (s1 & H & Hpos1 & Hlen1).
      exists s1. split; [exact H|]. simpl. split; lia.
  - assert (progresses (min_len r1)
              (fun s0 k0 => rmatch ic r1 (uncapture (groups_of r1) s0) k0)) as Honce.
    { intros s0 k0 s0' H0. apply IH1 in H0. exact H0. }
    apply (rep_required_progress _ _ Honce) in H as (s1 & H & Hpos1 & Hlen1).
    apply (rep_optional_progress _ _ _ Honce) in H as (s2 & H & Hpos2 & Hlen2).
    exists s2. split; [exact H|]. simpl. split; lia.
  - apply IH1 in H as (s1 & H & Hpos1 & Hlen1).
    eexists. split; [exact H|]. simpl. split; lia.
  - destruct (pos s =? 0); [|discriminate].
    exists s. split; [exact H|]. simpl. split; lia.
  - destruct (rest s) eqn:Hrest; [|discriminate].
    exists s. split; [exact H|]. rewrite Hrest. simpl. split; lia.
Qed.

(** A successful search starts at or after the position asked for and ends
    inside the text, at least [min_len] characters after its start. *)
Lemma search_progress ic r : forall tl p i s,
  search ic r p tl = Some (i, s) ->
  p <= i /\ i + min_len r <= pos s /\ pos s <= p + length tl.
Proof.
  induction tl as [|c tl IH]; intros p i s H; simpl in H.
  - destruct (rmatch ic r _ Some) as [s0|] eqn:Hm; [|discriminate].
    injection H as <- <-.
    apply rmatch_progresses in Hm as (s1 & [= <-] & Hpos & Hlen). simpl in *. lia.
  - destruct (rmatch ic r _ Some) as [s0|] eqn:Hm.
    + injection H as <- <-.
      apply rmatch_progresses in Hm as (s1 & [= <-] & Hpos & Hlen). simpl in *. lia.
    + apply IH in H. simpl. lia.
Qed.

(* ===================================================================== *)
(** ** [exec] and the loops over it *)
(* ===================================================================== *)

Lemma exec_not_global re text :
  global re = false -> exec re text = (re, exec1 re text).
Proof.
  intros Hg. unfold exec1, exec. rewrite Hg. simpl.
  destruct (search _ _ _ _) as [[i s]|]; reflexivity.
Qed.

Lemma exec1_set_lastIndex re n text :
  global re = false -> exec1 (set_lastIndex re n) text = exec1 re text.
Proof.
  intros Hg. unfold exec1, exec. simpl. rewrite Hg. simpl.
  destruct (search _ _ _ _) as [[i s]|]; reflexivity.
Qed.

(** A loop over a RegExp object without the [g] flag never leaves once the
    pattern matches the text: [exec] starts from the beginning each time,
    whatever the body assigns to [lastIndex]. *)
Lemma while_exec_never_leaves {A} (body : Match -> RegExp -> A -> RegExp * A) text :
  (forall m re acc, exists n, (body m re acc).1 = set_lastIndex re n) ->
  forall fuel re acc,
    global re = false -> is_Some (exec1 re text) ->
    while_exec fuel body re text acc = None.
Proof.
  intros Hbody. induction fuel as [|fuel IH]; intros re acc Hg [m Hm]; [reflexivity|].
  simpl. rewrite (exec_not_global _ _ Hg), Hm.
  destruct (Hbody m re acc) as [n Hn].
  destruct (body m re acc) as [re' acc'] eqn:Hb. simpl in Hn. subst re'.
  apply IH.
  - exact Hg.
  - rewrite exec1_set_lastIndex by exact Hg. rewrite Hm. eauto.
Qed.

Lemma while_exec_fuel_mono {A} (body : Match -> RegExp -> A -> RegExp * A) text :
  forall fuel fuel' re acc r,
    fuel <= fuel' ->
    while_exec fuel body re text acc = Some r ->
    while_exec fuel' body re text acc = Some r.
Proof.
  induction fuel as [|fuel IH]; intros fuel' re acc r Hle H; [discriminate|].
  destruct fuel' as [|fuel']; [lia|]. simpl in *.
  destruct (exec re text) as [re' [m|]]; [|exact H].
  destruct (body m re' acc) as [re'' acc']. apply (IH fuel'); [lia | exact H].
Qed.

(** With the [g] flag and a pattern that cannot match the empty string,
    each match moves [lastIndex] forward inside the text. *)
Lemma exec_global_progress re text re' m :
  global re = true -> 0 < min_len (source re) ->
  exec re text = (re', Some m) ->
  re' = set_lastIndex re (lastIndex re')
  /\ lastIndex re < lastIndex re' /\ lastIndex re' <= length text.
Proof.
  intros Hg Hmin. unfold exec. rewrite Hg.
  destruct (length text <? lastIndex re) eqn:Hlen; [discriminate|].
  apply Nat.ltb_ge in Hlen.
  destruct (search _ _ _ _) as [[i s]|] eqn:Hs; [|discriminate].
  intros [= <- <-]. apply search_progress in Hs as (H1 & H2 & H3).
  rewrite length_skipn in H3. simpl. split; [reflexivity|]. lia.
Qed.

(** Such a loop, whose body leaves the RegExp object alone, returns within
    [length text + 2] iterations. *)
Lemma while_exec_terminates {A} (body : Match -> RegExp -> A -> RegExp * A) text :
  (forall m re acc, (body m re acc).1 = re) ->
  forall fuel re acc,
    global re = true -> 0 < min_len (source re) ->
    length text + 2 <= fuel + Nat.min (lastIndex re) (S (length text)) ->
    is_Some (while_exec fuel body re text acc).
Proof.
  intros Hbody. induction fuel as [|fuel IH]; intros re acc Hg Hmin Hfuel; [lia|].
  simpl. destruct (exec re text) as [re' [m|]] eqn:He; [|eauto].
  destruct (exec_global_progress _ _ _ _ Hg Hmin He) as (Hre' & Hlt & Hle).
  specialize (Hbody m re' acc). destruct (body m re' acc) as [re'' acc'].
  simpl in Hbody. subst re''. apply IH.
  - rewrite Hre'. exact Hg.
  - rewrite Hre'. exact Hmin.
  - lia.
Qed.

(** A loop whose body folds the matches returns the fold over the
    successive matches. *)
Lemma while_exec_folds_from {A} (body : Match -> RegExp -> A -> RegExp * A) f text :
  folds body f ->
  forall fuel re acc ms,
    while_exec fuel body re text (foldl f acc ms)
    = (fun r => (r.1, foldl f acc r.2)) <$> while_exec fuel record_match re text ms.
Proof.
  intros Hbody. induction fuel as [|fuel IH]; intros re acc ms; [reflexivity|].
  simpl. destruct (exec re text) as [re' [m|]]; [|reflexivity].
  rewrite Hbody. unfold record_match at 1.
  replace (f (foldl f acc ms) m) with (foldl f acc (ms ++ [m]))
    by (rewrite foldl_app; reflexivity).
  apply IH.
Qed.

Lemma while_exec_folds {A} (body : Match -> RegExp -> A -> RegExp * A) f text :
  folds body f ->
  forall fuel re acc,
    snd <$> while_exec fuel body re text acc
    = foldl f acc <$> all_matches fuel re text.
Proof.
  intros Hbody fuel re acc. unfold all_matches.
  pose proof (while_exec_folds_from body f text Hbody fuel re acc []) as H.
  simpl in H. rewrite H.
  destruct (while_exec fuel record_match re text []) as [[re' ms]|]; reflexivity.
Qed.

(* ===================================================================== *)
(** ** The FTP extractor *)
(* ===================================================================== *)

Lemma push_server_sets_lastIndex m re acc :
  exists n, (push_server m re acc).1 = set_lastIndex re n.
Proof. eexists. reflexivity. Qed.

(** A collection over patterns without the [g] flag never finishes when
    one of the patterns matches the text. *)
Lemma collect_never_leaves {A} (body : Match -> RegExp -> A -> RegExp * A) text :
  (forall m re acc, exists n, (body m re acc).1 = set_lastIndex re n) ->
  forall patterns fuel acc,
    Forall (fun re => global re = false) patterns ->
    Exists (fun re => is_Some (exec1 re text)) patterns ->
    collect fuel body patterns text acc = None.
Proof.
  intros Hbody. induction patterns as [|re patterns IH]; intros fuel acc Hg Hex.
  - inversion Hex.
  - inversion Hg as [|? ? Hg1 Hg2]; subst. simpl.
    destruct (while_exec fuel body re text acc) as [[re' acc']|] eqn:Hw;
      [|reflexivity].
    simpl. apply IH; [exact Hg2|].
    inversion Hex as [? ? Hm|? ? Hm]; subst; [|exact Hm].
    rewrite (while_exec_never_leaves body text Hbody fuel re acc Hg1 Hm) in Hw.
    discriminate.
Qed.

Lemma ftpServer_patterns_not_global :
  Forall (fun re => global re = false) FtpPatterns.ftpServer.
Proof. repeat constructor. Qed.

Lemma collect_fuel_mono {A} (body : Match -> RegExp -> A -> RegExp * A) text fuel fuel' :
  fuel <= fuel' ->
  forall patterns acc r,
    collect fuel body patterns text acc = Some r ->
    collect fuel' body patterns text acc = Some r.
Proof.
  intros Hle. induction patterns as [|re patterns IH]; intros acc r H; simpl in *;
    [exact H|].
  destruct (while_exec fuel body re text acc) as [r'|] eqn:Hw; [|discriminate].
  rewrite (while_exec_fuel_mono body text fuel fuel' re acc r' Hle Hw).
  simpl in *. apply IH, H.
Qed.

(** Over patterns without the [g] flag none of which matches the text, the
    collection leaves each loop at once. *)
Lemma collect_no_match {A} (body : Match -> RegExp -> A -> RegExp * A) text fuel :
  forall patterns acc,
    Forall (fun re => global re = false /\ exec1 re text = None) patterns ->
    collect (S fuel) body patterns text acc = Some acc.
Proof.
  induction patterns as [|re patterns IH]; intros acc Hall; [reflexivity|].
  inversion Hall as [|? ? [Hg Hnone] Hall']; subst.
  cbn [collect while_exec]. rewrite (exec_not_global _ _ Hg), Hnone.
  cbn. apply IH, Hall'.
Qed.

(** The FTP extractor returns exactly on the texts that none of its three
    server patterns matches. *)
Lemma extractFtpCredentials_returns_iff text :
  is_Some (extractFtpCredentials (length text + 2) text)
  <-> Forall (fun re => exec1 re text = None) FtpPatterns.ftpServer.
Proof.
  split.
  - intros [accounts H].
    destruct (decide (Forall (fun re => exec1 re text = None) FtpPatterns.ftpServer))
      as [Hall | Hex]; [exact Hall|].
    apply not_Forall_Exists in Hex; [|intros re; apply option_eq_None_dec || tauto].
    unfold extractFtpCredentials in H.
    rewrite (collect_never_leaves push_server _ push_server_sets_lastIndex) in H.
    + discriminate.
    + apply ftpServer_patterns_not_global.
    + eapply Exists_impl; [exact Hex|]. intros re Hre. simpl in Hre.
      destruct (exec1 re text); [eauto | congruence].
  - intros Hall. unfold extractFtpCredentials.
    replace (length text + 2) with (S (length text + 1)) by lia.
    rewrite collect_no_match.
    + unfold mbind, option_bind.
      destruct (while_exec_terminates (push_ftp_ip text) text) with
        (fuel := S (length text + 1)) (re := FtpPatterns.ipRegex)
        (acc := @nil serverAnchor) as [r Hr].
      * intros m re acc. unfold push_ftp_ip. destruct (_ || _); reflexivity.
      * reflexivity.
      * simpl. lia.
      * simpl. lia.
      * rewrite Hr. eauto.
    + pose proof ftpServer_patterns_not_global as Hg.
      revert Hall Hg. generalize FtpPatterns.ftpServer.
      induction l as [|re l IH]; intros Hall Hg; [constructor|].
      inversion Hall; inversion Hg; subst. constructor; auto.
Qed.

(** The per-server step of the FTP extractor follows the acceptance policy:
    no account without a user name; with one, the server of the anchor, the
    default port 21 when no port is found, and confidence 0.9 with a
    password and 0.7 without. *)
Lemma ftp_account_near_policy text server :
  let nearbyText := getNearbyText text (anchor_index server) 300 in
  match ftp_account_near text server with
  | None =>
      first_match FtpPatterns.ftpUsername nearbyText = None
      \/ exists m, first_match FtpPatterns.ftpUsername nearbyText = Some m
                   /\ group_text m 1 = []
  | Some a =>
      ftp_server a = anchor_server server
      /\ (exists m, first_match FtpPatterns.ftpUsername nearbyText = Some m
                    /\ ftp_username a = group_text m 1)
      /\ (first_match FtpPatterns.ftpPort nearbyText = None -> ftp_port a = Int 21)
      /\ (first_match FtpPatterns.ftpPassword nearbyText = None ->
          ftp_password a = None /\ ftp_confidence a = 0.7%Q)
      /\ (forall m, first_match FtpPatterns.ftpPassword nearbyText = Some m ->
                    group_text m 1 <> [] ->
                    ftp_password a = Some (group_text m 1) /\ ftp_confidence a = 0.9%Q)
  end.
Proof.
  intros nearbyText. unfold ftp_account_near. fold nearbyText.
  destruct (first_match FtpPatterns.ftpUsername nearbyText) as [mu|]; simpl; [|auto].
  destruct (str_truthy (group_text mu 1)) eqn:Hu.
  - split; [reflexivity|]. split; [eauto|].
    split; [intros ->; reflexivity|].
    split; [intros ->; split; reflexivity|].
    intros m -> Hm. simpl. split; [reflexivity|].
    destruct (group_text m 1); [congruence | reflexivity].
  - right. exists mu. split; [reflexivity|].
    destruct (group_text mu 1); [reflexivity | discriminate].
Qed.

(** When the FTP extractor returns, its accounts are those the per-server
    step finds around the servers collected. *)
Lemma extractFtpCredentials_accounts fuel text accounts :
  extractFtpCredentials fuel text = Some accounts ->
  forall a, a ∈ accounts -> exists server, ftp_account_near text server = Some a.
Proof.
  unfold extractFtpCredentials. intros H a Ha.
  destruct (collect fuel push_server FtpPatterns.ftpServer text []) as [servers|];
    [|discriminate].
  unfold mbind, option_bind in H.
  destruct (while_exec fuel (push_ftp_ip text) FtpPatterns.ipRegex text servers)
    as [found|]; [|discriminate].
  injection H as <-. apply list_elem_of_omap in Ha as (server & _ & Hs). eauto.
Qed.

(** The first server pattern finds the server of the specification's
    example at position 0, and around it the step finds the account the
    specification expects. *)
Lemma ftp_account_near_example :
  first_match FtpPatterns.ftpServer ftp_example
  = Some {| index := 0; matched := js "serwer FTP: ftp.example.com";
            captures := [(1, js "ftp.example.com")] |}
  /\ ftp_account_near ftp_example
       {| anchor_server := js "ftp.example.com"; anchor_index := 0 |}
     = Some {| ftp_server := js "ftp.example.com"; ftp_username := js "alice";
               ftp_password := Some (js "s3cret"); ftp_port := Int 21;
               ftp_type := js "ftp"; ftp_confidence := 0.9%Q |}.
Proof. split; vm_compute; reflexivity. Qed.

(** C2 (the code at the failing input).  On the text of the specification's
    FTP example, "serwer FTP: ftp.example.com / login: alice / hasło:
    s3cret", [extractFtpCredentials] does not return the one expected
    account: its first loop runs over a RegExp object without the [g] flag,
    whose [exec] finds the same server at position 0 at every iteration, and
    the call is still in that loop after any number of iterations. *)
Theorem extractFtpCredentials_example_never_returns :
  forall fuel, extractFtpCredentials fuel ftp_example = None.
Proof.
  intros fuel. unfold extractFtpCredentials.
  rewrite (collect_never_leaves push_server _ push_server_sets_lastIndex);
    [reflexivity | | ].
  - apply ftpServer_patterns_not_global.
  - apply Exists_cons_hd. vm_compute. eauto.
Qed.

(** The server extractor has the same loops over patterns without the [g]
    flag: on a text that names a server it does not return either. *)
Lemma extractServerCredentials_never_returns :
  forall fuel, extractServerCredentials fuel server_message = None.
Proof.
  intros fuel. unfold extractServerCredentials.
  assert (forall acc, collect fuel push_server ServerPatterns.serverAddress
                        server_message acc = None) as Hservers.
  { intros acc. apply (collect_never_leaves push_server _ push_server_sets_lastIndex).
    - repeat constructor.
    - apply Exists_cons_hd. vm_compute. eauto. }
  destruct (collect fuel push_cpanel ServerPatterns.cpanel server_message [])
    as [panels|]; [|reflexivity].
  unfold mbind, option_bind at 1.
  destruct (collect fuel push_panelUrl ServerPatterns.panelUrl server_message panels)
    as [panels'|]; [|reflexivity].
  unfold mbind, option_bind at 1.
  rewrite Hservers. reflexivity.
Qed.

(** [extractDnsRecords] has no [return] statement: whatever the text, the
    call evaluates to [undefined] and not to an array. *)
Lemma extractDnsRecords_returns_undefined text : extractDnsRecords text = None.
Proof. reflexivity. Qed.

(** C1 (the code at the failing input).  On a text that names an FTP server,
    here "Dane FTP: ftp.example.com, login: alice", neither
    [extractFtpCredentials] nor [extractAllCredentials], which calls it
    first, returns: the loop over the second server pattern never leaves,
    whatever the extractors taken as parameters do. *)
Theorem extractAllCredentials_never_returns :
  forall (Web Db Gen : Type)
         (extractWebsites : nat -> jsstr -> option (list Web))
         (extractDatabaseCredentials : nat -> jsstr -> option (list Db))
         (extractGenericCredentials : nat -> jsstr -> option (list Gen))
         (fuel : nat),
    extractFtpCredentials fuel ftp_message = None
    /\ extractAllCredentials extractWebsites extractDatabaseCredentials
         extractGenericCredentials fuel ftp_message = None.
Proof.
  intros.
  assert (extractFtpCredentials fuel ftp_message = None) as Hftp.
  { unfold extractFtpCredentials.
    rewrite (collect_never_leaves push_server _ push_server_sets_lastIndex);
      [reflexivity | | ].
    - apply ftpServer_patterns_not_global.
    - apply Exists_cons_tl, Exists_cons_hd. vm_compute. eauto. }
  split; [exact Hftp|].
  unfold extractAllCredentials.
  replace (negb (str_truthy ftp_message) || (length (trim ftp_message) =? 0))
    with false by (vm_compute; reflexivity).
  rewrite Hftp. reflexivity.
Qed.

(* ===================================================================== *)
(** ** The e-mail extractor *)
(* ===================================================================== *)

Lemma length_substring s a b : length (substring s a b) <= length s.
Proof.
  unfold substring. rewrite length_take, length_drop. lia.
Qed.


Lemma foldl_filter_skip {A B} (f : A -> B -> A) (P : B -> bool) :
  (forall acc m, P m = false -> f acc m = acc) ->
  forall ms acc, foldl f acc (filter (fun m => P m = true) ms) = foldl f acc ms.
Proof.
  intros Hskip. induction ms as [|m ms IH]; intros acc; [reflexivity|].
  rewrite filter_cons. destruct (decide (P m = true)) as [Hm|Hm]; simpl.
  - apply IH.
  - rewrite Hskip by (destruct (P m); congruence). apply IH.
Qed.



(* ===================================================================== *)
(** ** The domain extractor *)
(* ===================================================================== *)

Lemma while_exec_invariant {A} (P : A -> Prop)
    (body : Match -> RegExp -> A -> RegExp * A) text :
  (forall m re acc, P acc -> P (body m re acc).2) ->
  forall fuel re acc r,
    P acc -> while_exec fuel body re text acc = Some r -> P r.2.
Proof.
  intros Hbody. induction fuel as [|fuel IH]; intros re acc r HP H; [discriminate|].
  simpl in H. destruct (exec re text) as [re' [m|]].
  - specialize (Hbody m re' acc HP). destruct (body m re' acc) as [re'' acc'].
    exact (IH _ _ _ Hbody H).
  - injection H as <-. exact HP.
Qed.

Lemma collect_terminates {A} (body : Match -> RegExp -> A -> RegExp * A) text fuel :
  (forall m re acc, (body m re acc).1 = re) ->
  length text + 2 <= fuel ->
  forall patterns acc,
    Forall steady patterns -> is_Some (collect fuel body patterns text acc).
Proof.
  intros Hbody Hfuel. induction patterns as [|re patterns IH]; intros acc Hst; simpl;
    [eauto|].
  inversion Hst as [|? ? (Hg & Hmin & Hli) Hst']; subst.
  destruct (while_exec_terminates body text Hbody fuel re acc Hg Hmin) as [r Hr]; [lia|].
  rewrite Hr. simpl. apply IH, Hst'.
Qed.

Lemma collect_invariant {A} (P : A -> Prop)
    (body : Match -> RegExp -> A -> RegExp * A) text fuel :
  (forall m re acc, P acc -> P (body m re acc).2) ->
  forall patterns acc r,
    P acc -> collect fuel body patterns text acc = Some r -> P r.
Proof.
  intros Hbody. induction patterns as [|re patterns IH]; intros acc r HP H; simpl in H.
  - injection H as <-. exact HP.
  - destruct (while_exec fuel body re text acc) as [r'|] eqn:Hw; [|discriminate].
    simpl in H. eapply IH; [|exact H].
    exact (while_exec_invariant P body text Hbody fuel re acc r' HP Hw).
Qed.

Lemma push_domain_regexp nameservers grp confidence m re acc :
  (push_domain nameservers grp confidence m re acc).1 = re.
Proof. unfold push_domain. destruct (existsb _ _); reflexivity. Qed.

Lemma nameserver_patterns_steady : Forall steady DomainPatterns.nameserver.
Proof. repeat constructor; simpl; lia. Qed.

Lemma domain_patterns_steady : Forall steady DomainPatterns.domain.
Proof. repeat constructor; simpl; lia. Qed.

Lemma find_nameservers_terminates text fuel :
  length text + 2 <= fuel -> is_Some (find_nameservers fuel text).
Proof.
  intros Hfuel. unfold find_nameservers.
  destruct (first_match DomainPatterns.nameserverSection text) as [nsMatch|]; [|eauto].
  set (nsBlock := substring text _ _).
  destruct (collect_terminates push_nameserver nsBlock fuel (fun _ _ _ => eq_refl))
    with (patterns := DomainPatterns.nameserver) (acc := @nil jsstr) as [ns Hns].
  - pose proof (length_substring text (index nsMatch)
                  (Nat.min (length text) (index nsMatch + 400))).
    fold nsBlock in H. lia.
  - apply nameserver_patterns_steady.
  - rewrite Hns. simpl. eauto.
Qed.

Lemma push_domain_folds nameservers grp confidence :
  folds (push_domain nameservers grp confidence) (domain_step nameservers grp confidence).
Proof.
  intros m re acc. unfold domain_step, push_domain. destruct (existsb _ _); reflexivity.
Qed.

(** The domain extractor returns. *)
Lemma extractDomainInfo_terminates text fuel :
  length text + 2 <= fuel -> is_Some (extractDomainInfo fuel text).
Proof.
  intros Hfuel. unfold extractDomainInfo.
  destruct (find_nameservers_terminates text fuel Hfuel) as [ns Hns]. rewrite Hns.
  cbn -[collect while_exec DomainPatterns.domain DomainPatterns.websiteRegex].
  destruct (collect_terminates (push_domain ns 1 0.9%Q) text fuel
              (push_domain_regexp ns 1 0.9%Q) Hfuel DomainPatterns.domain [])
    as [ds Hds]; [apply domain_patterns_steady|].
  rewrite Hds.
  cbn -[collect while_exec DomainPatterns.domain DomainPatterns.websiteRegex].
  destruct (_ && _); [|eauto].
  destruct (while_exec_terminates (push_domain ns 2 0.8%Q) text) with
    (fuel := fuel) (re := DomainPatterns.websiteRegex) (acc := ds) as [r Hr].
  - apply push_domain_regexp.
  - reflexivity.
  - simpl. lia.
  - simpl. lia.
  - rewrite Hr. simpl. eauto.
Qed.

Lemma find_nameservers_fuel_mono text fuel fuel' ns :
  fuel <= fuel' ->
  find_nameservers fuel text = Some ns -> find_nameservers fuel' text = Some ns.
Proof.
  unfold find_nameservers. intros Hle H.
  destruct (first_match DomainPatterns.nameserverSection text) as [nsMatch|]; [|exact H].
  destruct (collect fuel push_nameserver _ _ []) as [found|] eqn:Hc; [|discriminate].
  rewrite (collect_fuel_mono _ _ fuel fuel' Hle _ _ _ Hc). exact H.
Qed.

(** More iterations allowed do not change what the extractor returns. *)
Lemma extractDomainInfo_fuel_mono text fuel fuel' ds :
  fuel <= fuel' ->
  extractDomainInfo fuel text = Some ds ->
  extractDomainInfo fuel' text = Some ds.
Proof.
  unfold extractDomainInfo. intros Hle H.
  destruct (find_nameservers fuel text) as [ns|] eqn:Hns; [|discriminate].
  rewrite (find_nameservers_fuel_mono text fuel fuel' ns Hle Hns).
  unfold mbind, option_bind in *. cbv beta iota in *.
  destruct (collect fuel (push_domain ns 1 0.9%Q) DomainPatterns.domain text [])
    as [explicit|] eqn:Hc; [|discriminate].
  rewrite (collect_fuel_mono _ _ fuel fuel' Hle _ _ _ Hc).
  destruct (_ && _); [|exact H].
  destruct (while_exec fuel _ DomainPatterns.websiteRegex text explicit) as [r|] eqn:Hw;
    [|discriminate].
  rewrite (while_exec_fuel_mono _ text fuel fuel' _ _ r Hle Hw). exact H.
Qed.

(** Every domain the loops push carries the nameservers found before. *)
Lemma push_domain_nameservers nameservers grp confidence m re acc :
  Forall (fun d => dom_nameservers d = nameservers) acc ->
  Forall (fun d => dom_nameservers d = nameservers)
         (push_domain nameservers grp confidence m re acc).2.
Proof.
  intros H. unfold push_domain. destruct (existsb _ _); simpl; [exact H|].
  apply Forall_app. split; [exact H|]. repeat constructor.
Qed.

(** Where the domains a fold over matches returns come from, and that every
    match is covered by one of them. *)
Lemma domain_step_origin nameservers grp confidence : forall ms acc d,
  d ∈ foldl (domain_step nameservers grp confidence) acc ms ->
  d ∈ acc \/ exists m, m ∈ ms /\ dom_domain d = group_text m grp
                       /\ dom_confidence d = confidence /\ dom_index d = index m.
Proof.
  induction ms as [|m ms IH]; intros acc d Hd; simpl in Hd; [auto|].
  apply IH in Hd as [Hd | (m' & Hin & Hm')].
  - unfold domain_step, push_domain in Hd.
    destruct (existsb _ _); simpl in Hd; [auto|].
    apply elem_of_app in Hd as [Hd | Hd]; [auto|].
    apply list_elem_of_singleton in Hd as ->.
    right. exists m. split; [left | auto].
  - right. exists m'. split; [right; exact Hin | exact Hm'].
Qed.

Lemma domain_step_keeps nameservers grp confidence : forall ms acc d,
  d ∈ acc -> d ∈ foldl (domain_step nameservers grp confidence) acc ms.
Proof.
  induction ms as [|m ms IH]; intros acc d Hd; simpl; [exact Hd|].
  apply IH. unfold domain_step, push_domain.
  destruct (existsb _ _); simpl; [exact Hd|]. apply elem_of_app. auto.
Qed.

Lemma domain_step_covers nameservers grp confidence : forall ms acc m,
  m ∈ ms ->
  exists d, d ∈ foldl (domain_step nameservers grp confidence) acc ms
            /\ dom_domain d = group_text m grp.
Proof.
  induction ms as [|m0 ms IH]; intros acc m Hm; [inversion Hm|].
  apply elem_of_cons in Hm as [-> | Hm]; [|simpl; apply IH, Hm].
  simpl.
  assert (exists d, d ∈ domain_step nameservers grp confidence acc m0
                    /\ dom_domain d = group_text m0 grp) as (d & Hd & Heq).
  { unfold domain_step, push_domain.
    destruct (existsb _ acc) eqn:Hex; simpl.
    - apply existsb_exists in Hex as (d & Hd & Heq).
      exists d. split; [apply list_elem_of_In, Hd|].
      unfold jsstr_eqb in Heq. apply bool_decide_eq_true in Heq. exact Heq.
    - eexists. split; [apply elem_of_app; right; left|]. reflexivity. }
  exists d. split; [|exact Heq]. apply domain_step_keeps, Hd.
Qed.

(** C4 (counterexample).  With the nameserver block of the specification's
    example and the domain written as there, "domena: foo.com", the domain
    extractor returns no record at all: its patterns know the forms "domeny",
    "domenę" and "domain", and the text holds no URL to fall back on. *)
Lemma domena_example_no_domain :
  find_nameservers (length domena_example + 2) domena_example
  = Some [js "ns1.foo.com"; js "ns2.foo.com"]
  /\ extractDomainInfo (length domena_example + 2) domena_example = Some [].
Proof. split; vm_compute; reflexivity. Qed.

(** C4 (as amended).  The domain extractor returns for every text.  All
    the domains of its result carry the nameservers of the first nameserver
    section of the text (none when there is no such section).  When
    nameservers were found and no pattern for an explicit domain matched,
    the domains are those of the URLs of the text, one per host name, with
    confidence 0.8; otherwise they are the explicit ones.  A domain counts as
    explicit when it follows "domeny", "domenę" or "domain" (or a redirection
    phrase): with the nameservers ns1.foo.com and ns2.foo.com and "domeny:
    foo.com" the result is the one record for foo.com with both
    nameservers. *)
Theorem extractDomainInfo_nameservers :
  (forall text, is_Some (extractDomainInfo (length text + 2) text))
  /\ (forall fuel text ds,
        extractDomainInfo fuel text = Some ds ->
        exists ns explicit,
          find_nameservers fuel text = Some ns
          /\ collect fuel (push_domain ns 1 0.9%Q) DomainPatterns.domain text []
             = Some explicit
          /\ Forall (fun d => dom_nameservers d = ns) ds
          /\ (ns = [] \/ explicit <> [] -> ds = explicit)
          /\ (ns <> [] -> explicit = [] ->
              exists ms,
                all_matches fuel DomainPatterns.websiteRegex text = Some ms
                /\ (forall d, d ∈ ds ->
                      exists m, m ∈ ms /\ dom_domain d = group_text m 2
                                /\ dom_confidence d = 0.8%Q)
                /\ (forall m, m ∈ ms ->
                      exists d, d ∈ ds /\ dom_domain d = group_text m 2)))
  /\ extractDomainInfo (length domeny_example + 2) domeny_example
     = Some [ {| dom_domain := js "foo.com";
                 dom_nameservers := [js "ns1.foo.com"; js "ns2.foo.com"];
                 dom_type := js "domain";
                 dom_index := 37;
                 dom_confidence := 0.9%Q |} ]
  /\ (fun d => (dom_domain d, dom_nameservers d))
       <$> default [] (extractDomainInfo (length sites_example + 2) sites_example)
     = [ (js "www.bar.pl", [js "ns1.foo.com"; js "ns2.foo.com"]);
         (js "baz.org", [js "ns1.foo.com"; js "ns2.foo.com"]) ].
Proof.
  split; [intros text; apply extractDomainInfo_terminates; lia|].
  split; [|split; vm_compute; reflexivity].
  intros fuel text ds H. unfold extractDomainInfo in H.
  destruct (find_nameservers fuel text) as [ns|] eqn:Hns; [|discriminate].
  unfold mbind, option_bind in H. cbv beta iota in H.
  destruct (collect fuel (push_domain ns 1 0.9%Q) DomainPatterns.domain text [])
    as [explicit|] eqn:Hex; [|discriminate].
  pose proof (collect_invariant (Forall (fun d => dom_nameservers d = ns)) _ text fuel
                (fun m re0 acc0 => push_domain_nameservers ns 1 0.9%Q m re0 acc0)
                _ _ _ (List.Forall_nil _) Hex) as Hall.
  exists ns, explicit. split; [reflexivity|]. split; [exact Hex|].
  destruct ((0 <? length ns) && (length explicit =? 0)) eqn:Hcond.
  - apply andb_true_iff in Hcond as [Hn He].
    apply Nat.ltb_lt in Hn. apply Nat.eqb_eq in He.
    destruct explicit; [|discriminate]. clear He.
    pose proof (while_exec_folds _ _ text (push_domain_folds ns 2 0.8%Q)
                  fuel DomainPatterns.websiteRegex []) as Hfold.
    rewrite H in Hfold.
    destruct (all_matches fuel DomainPatterns.websiteRegex text) as [ms|] eqn:Hms;
      [|discriminate].
    injection Hfold as Hfold.
    split; [|split].
    + destruct (while_exec fuel _ DomainPatterns.websiteRegex text [])
        as [r|] eqn:Hw; [|discriminate].
      injection H as <-.
      exact (while_exec_invariant _ _ text
               (fun m re0 acc0 => push_domain_nameservers ns 2 0.8%Q m re0 acc0)
               fuel _ _ r (List.Forall_nil _) Hw).
    + intros [-> | Hne]; [simpl in Hn; lia | congruence].
    + intros _ _. exists ms. split; [reflexivity|]. split.
      * intros d Hd. rewrite Hfold in Hd.
        apply domain_step_origin in Hd as [Hd | (m & Hin & Hdom & Hconf & _)];
          [inversion Hd|].
        exists m. auto.
      * intros m Hm. rewrite Hfold. apply domain_step_covers, Hm.
  - injection H as <-. split; [exact Hall|]. split; [reflexivity|].
    intros Hne He. subst explicit. simpl in Hcond.
    destruct ns; [congruence | discriminate].
Qed.

(* ===================================================================== *)
(** ** [mergeCredentials] *)
(* ===================================================================== *)

Lemma foldl_merge_step l : forall seen acc,
  (foldl merge_step (seen, acc) l).2 = acc ++ keep_first seen l.
Proof.
  induction l as [|cred l IH]; intros seen acc; simpl.
  - rewrite app_nil_r. reflexivity.
  - destruct (decide (uniqueKey cred ∈ seen)).
    + apply IH.
    + rewrite IH, <- app_assoc. reflexivity.
Qed.

Lemma mergeCredentials_keep_first arrays :
  mergeCredentials arrays = keep_first ∅ (concat arrays).
Proof. unfold mergeCredentials. rewrite foldl_merge_step. reflexivity. Qed.


Lemma keep_first_fresh l : forall seen cred,
  cred ∈ keep_first seen l -> uniqueKey cred ∉ seen.
Proof.
  induction l as [|c l IH]; intros seen cred H; simpl in H; [inversion H|].
  destruct (decide (uniqueKey c ∈ seen)) as [Hin|Hout].
  - apply IH, H.
  - apply elem_of_cons in H as [-> | H]; [exact Hout|].
    apply IH in H. set_solver.
Qed.

Lemma keep_first_NoDup l : forall seen, NoDup (uniqueKey <$> keep_first seen l).
Proof.
  induction l as [|c l IH]; intros seen; simpl; [constructor|].
  destruct (decide (uniqueKey c ∈ seen)); [apply IH|].
  rewrite fmap_cons. constructor; [|apply IH].
  intros (c' & Heq & Hin)%list_elem_of_fmap.
  apply keep_first_fresh in Hin. set_solver.
Qed.



(** A list without two equal keys, none of them seen, is kept whole. *)
Lemma keep_first_id l : forall seen,
  NoDup (uniqueKey <$> l) -> (forall cred, cred ∈ l -> uniqueKey cred ∉ seen) ->
  keep_first seen l = l.
Proof.
  induction l as [|c l IH]; intros seen Hnd Hseen; simpl; [reflexivity|].
  rewrite fmap_cons in Hnd. apply NoDup_cons in Hnd as [Hc Hnd].
  destruct (decide (uniqueKey c ∈ seen)) as [Hin|Hout].
  - exfalso. apply (Hseen c); [left | exact Hin].
  - f_equal. apply IH; [exact Hnd|].
    intros cred Hcred Hin. apply elem_of_union in Hin as [Hin | Hin].
    + apply elem_of_singleton in Hin. apply Hc. rewrite <- Hin.
      apply list_elem_of_fmap. eauto.
    + apply (Hseen cred); [right; exact Hcred | exact Hin].
Qed.




(** C9.  Merging is idempotent: merging the array a merge returned gives
    that array back, whatever candidate arrays the first merge was given
    (those an extraction produced included). *)
Theorem mergeCredentials_idempotent :
  forall arrays : list (list credential),
    mergeCredentials [mergeCredentials arrays] = mergeCredentials arrays.
Proof.
  intros arrays. rewrite (mergeCredentials_keep_first [_]). simpl.
  rewrite app_nil_r. apply keep_first_id.
  - rewrite mergeCredentials_keep_first. apply keep_first_NoDup.
  - set_solver.
Qed.

(* ===================================================================== *)
(** ** The formatters and the export guards *)
(* ===================================================================== *)

Lemma formatWebsite_throws now cred e :
  formatWebsite now cred = Throw e -> e = TypeError.
Proof.
  unfold formatWebsite. destruct (is_truthy _); [|discriminate].
  destruct (URL.hostname _); [discriminate|]. simpl. congruence.
Qed.

Lemma format_throws now cred e : format now cred = Throw e -> e = TypeError.
Proof.
  unfold format. destruct (classify cred); try discriminate.
  destruct (formatWebsite now cred) eqn:H; [discriminate|].
  simpl. intros [= <-]. eapply formatWebsite_throws, H.
Qed.

Lemma for_each_throws {A St} (step : St -> A -> completion St) (P : exn -> Prop) :
  (forall s x e, step s x = Throw e -> P e) ->
  forall l s e, for_each step l s = Throw e -> P e.
Proof.
  intros Hstep. induction l as [|x l IH]; intros s e H; simpl in H; [discriminate|].
  destruct (step s x) as [s'|e'] eqn:Hs; simpl in H.
  - eapply IH, H.
  - injection H as <-. eapply Hstep, Hs.
Qed.

Lemma categorize_step_throws now result cred e :
  categorize_step now result cred = Throw e -> e = TypeError.
Proof.
  unfold categorize_step. destruct result. destruct (classify cred); try discriminate.
  destruct (formatWebsite now cred) eqn:H; [discriminate|].
  simpl. intros [= <-]. eapply formatWebsite_throws, H.
Qed.

Lemma group_step_throws now groupedData cred e :
  group_step now groupedData cred = Throw e -> e = TypeError.
Proof.
  unfold group_step.
  destruct (get (match get groupedData _ with Missing => _ | _ => _ end) _) as [entry| |];
    [|congruence..].
  destruct (get (tickets entry) _) as [t| |]; [| congruence |];
    (destruct (format now cred) eqn:H; [discriminate|];
     simpl; intros [= <-]; eapply format_throws, H).
Qed.

Lemma categorizeMigrationData_throws now credentials e :
  categorizeMigrationData now credentials = Throw e -> e = TypeError.
Proof.
  destruct credentials as [|[|cred creds]]; try discriminate.
  apply (for_each_throws _ _ (categorize_step_throws now)).
Qed.

Lemma groupCredentialsByClient_throws now credentials e :
  groupCredentialsByClient now credentials = Throw e -> e = TypeError.
Proof.
  destruct credentials as [|[|cred creds]]; try discriminate.
  apply (for_each_throws _ _ (group_step_throws now)).
Qed.

(** C7.  Both export functions refuse an argument that holds no records,
    be it an empty array or not an array at all: each throws its [Error]
    ("Brak danych uwierzytelniających do eksportu" for JSON, "Brak danych do
    eksportu" for CSV) to its caller and builds nothing.  For a non-empty
    array neither function ever throws that error; what it can still throw
    is the [TypeError] of a formatter. *)
Theorem export_refuses_no_records :
  forall (now : jsstr) (credentials : argument) (grouped categorized : bool),
    if is_empty_argument credentials then
      createJsonFile now credentials grouped categorized
      = Throw (Error (js "Brak danych uwierzytelniających do eksportu"))
      /\ exportCredentialsToCSV now credentials
         = Throw (Error (js "Brak danych do eksportu"))
    else
      (forall e, createJsonFile now credentials grouped categorized = Throw e ->
                 is_export_error e = false)
      /\ (forall e, exportCredentialsToCSV now credentials = Throw e ->
                    is_export_error e = false).
Proof.
  intros now [|[|cred creds]] grouped categorized; cbn [is_empty_argument];
    [split; reflexivity..|].
  split; intros e H; (assert (e = TypeError) as ->; [|reflexivity]).
  - unfold createJsonFile in H. destruct categorized; [|destruct grouped].
    + destruct (categorizeMigrationData now (AnArray (cred :: creds))) eqn:Hc;
        [discriminate|].
      injection H as <-. eapply categorizeMigrationData_throws, Hc.
    + destruct (groupCredentialsByClient now (AnArray (cred :: creds))) eqn:Hc;
        [discriminate|].
      injection H as <-. eapply groupCredentialsByClient_throws, Hc.
    + destruct (for_each _ (cred :: creds) []) eqn:Hc; [discriminate|].
      injection H as <-. revert Hc.
      apply (for_each_throws _ (fun e => e = TypeError)).
      intros done x e' Hx. destruct (format now x) eqn:Hf; [discriminate|].
      injection Hx as <-. eapply format_throws, Hf.
  - unfold exportCredentialsToCSV in H.
    destruct (categorizeMigrationData now (AnArray (cred :: creds))) eqn:Hc;
      [discriminate|].
    injection H as <-. eapply categorizeMigrationData_throws, Hc.
Qed.

(** C8 (counterexample).  A candidate that carries the confidence 0 comes
    out of the formatter with confidence 1.0. *)
Lemma zero_confidence_replaced :
  Credential.confidence zero_confidence = Val 0%Q
  /\ FTP.confidence (formatFTPAccount clock zero_confidence) = 1.0%Q
  /\ record_confidence <$> format clock zero_confidence = Normal 1.0%Q
  /\ ~ (1.0 == 0)%Q.
Proof.
  split; [reflexivity|]. split; [reflexivity|]. split; [vm_compute; reflexivity|].
  discriminate.
Qed.

(** C8 (as amended).  Each of the five formatters, and so the formatting
    of a credential by its kind, hands on the confidence the candidate
    carries when it is a number other than 0, and puts 1.0 when the
    candidate carries none ([undefined] or [null]) or carries 0. *)
Theorem format_confidence :
  forall (now : jsstr) (cred : credential),
    let expected :=
      match Credential.confidence cred with
      | Val q => if Qeq_bool q 0 then 1.0%Q else q
      | _ => 1.0%Q
      end in
    FTP.confidence (formatFTPAccount now cred) = expected
    /\ (forall r, formatWebsite now cred = Normal r -> Website.confidence r = expected)
    /\ Domain.confidence (formatDomain now cred) = expected
    /\ Email.confidence (formatEmailAccount now cred) = expected
    /\ Generic.confidence (formatGenericCredential now cred) = expected
    /\ (forall r, format now cred = Normal r -> record_confidence r = expected).
Proof.
  intros now cred expected.
  assert (or_value (Credential.confidence cred) 1.0%Q = expected) as Hor.
  { unfold expected, or_value, truthy, number_truthy.
    destruct (Credential.confidence cred) as [| |q]; [reflexivity..|].
    destruct (Qeq_bool q 0); reflexivity. }
  assert (forall r, formatWebsite now cred = Normal r -> Website.confidence r = expected)
    as Hweb.
  { intros r H. unfold formatWebsite in H.
    destruct (if is_truthy (Credential.url cred) then _ else _) as [h|]; [|discriminate].
    injection H as <-. exact Hor. }
  repeat split; try exact Hor; try exact Hweb.
  intros r H. unfold format in H. destruct (classify cred).
  - injection H as <-. exact Hor.
  - destruct (formatWebsite now cred) as [w|] eqn:Hw; [|discriminate].
    injection H as <-. apply Hweb. reflexivity.
  - injection H as <-. exact Hor.
  - injection H as <-. exact Hor.
  - injection H as <-. exact Hor.
Qed.

(** When [categorizeMigrationData] returns, every credential of the array
    went to one bucket. *)
Lemma for_each_categorize_total now : forall creds r0 r,
  for_each (categorize_step now) creds r0 = Normal r ->
  bucket_total r = bucket_total r0 + length creds.
Proof.
  induction creds as [|cred creds IH]; intros r0 r H; simpl in H.
  - injection H as <-. simpl. lia.
  - destruct (categorize_step now r0 cred) as [r1|] eqn:Hs; [|discriminate].
    simpl in H. apply IH in H. rewrite H. simpl.
    assert (bucket_total r1 = bucket_total r0 + 1) as ->; [|lia].
    unfold categorize_step in Hs. destruct r0 as [ftp web dom mail other].
    destruct (classify cred);
      try (injection Hs as <-; unfold bucket_total; simpl;
           rewrite ?length_app; simpl; lia).
    destruct (formatWebsite now cred) as [site|]; [|discriminate].
    injection Hs as <-. unfold bucket_total. simpl. rewrite ?length_app. simpl. lia.
Qed.

Lemma categorizeMigrationData_partition now creds r :
  categorizeMigrationData now (AnArray creds) = Normal r ->
  bucket_total r = length creds.
Proof.
  destruct creds as [|cred creds]; [intros [= <-]; reflexivity|].
  intros H. apply (for_each_categorize_total now (cred :: creds) Categorized.empty r H).
Qed.

(** C10 (the code at the failing input).  An array with a site whose
    address has no scheme, "www.example.com": [formatWebsite] hands it to the
    URL constructor, which throws, and [categorizeMigrationData] leaves with
    that [TypeError] instead of returning the five buckets. *)
Theorem categorizeMigrationData_throws_on_bad_url :
  URL.hostname (js "www.example.com") = None
  /\ classify bad_site = KWebsite
  /\ forall now,
       categorizeMigrationData now (AnArray [ftp_first; bad_site]) = Throw TypeError.
Proof.
  split; [|split]; [vm_compute; reflexivity ..|].
  intros now. vm_compute. reflexivity.
Qed.

(* ===================================================================== *)
(** ** Grouping and flattening *)
(* ===================================================================== *)

Lemma jsstr_eqb_true a b : jsstr_eqb a b = true <-> a = b.
Proof. unfold jsstr_eqb. apply bool_decide_eq_true. Qed.

Lemma jsstr_eqb_false a b : jsstr_eqb a b = false <-> a <> b.
Proof. unfold jsstr_eqb. apply bool_decide_eq_false. Qed.

Lemma own_set_eq {A} (o : obj A) k a : own (set o k a) k = Some a.
Proof.
  induction o as [|[k' a'] o IH]; simpl.
  - replace (jsstr_eqb k k) with true by (symmetry; apply jsstr_eqb_true; reflexivity).
    reflexivity.
  - destruct (jsstr_eqb k' k) eqn:Hk; simpl; rewrite Hk; [reflexivity | exact IH].
Qed.

Lemma own_set_ne {A} (o : obj A) k k' a : k' <> k -> own (set o k a) k' = own o k'.
Proof.
  intros Hne. induction o as [|[k0 a0] o IH]; simpl.
  - replace (jsstr_eqb k k') with false
      by (symmetry; apply jsstr_eqb_false; congruence).
    reflexivity.
  - destruct (jsstr_eqb k0 k) eqn:Hk; simpl.
    + apply jsstr_eqb_true in Hk as ->.
      replace (jsstr_eqb k k') with false
        by (symmetry; apply jsstr_eqb_false; congruence).
      reflexivity.
    + destruct (jsstr_eqb k0 k'); [reflexivity | exact IH].
Qed.

Lemma get_Own {A} (o : obj A) k a : get o k = Own a <-> own o k = Some a.
Proof.
  unfold get. destruct (own o k); [|destruct (bool_decide _)]; split; congruence.
Qed.

Lemma get_not_Own {A} (o : obj A) k : get o k = Missing \/ get o k = Inherited -> own o k = None.
Proof.
  unfold get. destruct (own o k); [|reflexivity]. intros [H|H]; discriminate.
Qed.

(** Writing a property changes the flat records of an object by what the
    new value adds to the old one. *)
Lemma flat_map_set {A B} (h : jsstr * A -> list B) k v extra : forall o : obj A,
  (forall v0, own o k = Some v0 -> h (k, v) ≡ₚ h (k, v0) ++ extra) ->
  (own o k = None -> h (k, v) ≡ₚ extra) ->
  flat_map h (set o k v) ≡ₚ flat_map h o ++ extra.
Proof.
  induction o as [|[k' a'] o IH]; intros Hsome Hnone; simpl.
  - rewrite app_nil_r. apply Hnone. reflexivity.
  - destruct (jsstr_eqb k' k) eqn:Hk; simpl.
    + apply jsstr_eqb_true in Hk as ->.
      rewrite (Hsome a') by (simpl; rewrite (proj2 (jsstr_eqb_true k k) eq_refl); reflexivity).
      rewrite <- !app_assoc. apply Permutation_app_head, Permutation_app_comm.
    + rewrite <- app_assoc. apply Permutation_app_head. apply IH.
      * intros v0 H0. apply Hsome. simpl. rewrite Hk. exact H0.
      * intros H0. apply Hnone. simpl. rewrite Hk. exact H0.
Qed.

Lemma flat_map_Permutation {A B} (f g : A -> list B) l l' :
  (forall x, f x ≡ₚ g x) -> l ≡ₚ l' -> flat_map f l ≡ₚ flat_map g l'.
Proof.
  intros Hfg Hl. induction Hl as [|x l l' Hl IH|x y l|l1 l2 l3 H12 IH12 H23 IH23]; simpl.
  - reflexivity.
  - rewrite (Hfg x), IH. reflexivity.
  - rewrite (Hfg x), (Hfg y), !app_assoc.
    apply Permutation_app; [apply Permutation_app_comm|].
    clear -Hfg. induction l as [|z l IH]; simpl; [reflexivity|].
    rewrite (Hfg z), IH. reflexivity.
  - rewrite IH12. rewrite <- IH23.
    clear -Hfg. induction l2 as [|z l IH]; simpl; [reflexivity|].
    rewrite IH. rewrite (Hfg z). reflexivity.
Qed.

(** [Object.keys] lists the own properties, each once. *)
Lemma entries_Permutation {A} (o : obj A) : entries o ≡ₚ o.
Proof.
  unfold entries. rewrite merge_sort_Permutation. apply filter_app_complement.
Qed.

Lemma flatten_as_created groupedData :
  flattenGroupedCredentials groupedData ≡ₚ flatten_created groupedData.
Proof.
  unfold flattenGroupedCredentials, flatten_created.
  apply flat_map_Permutation; [|apply entries_Permutation].
  intros [clientId entry]. unfold flatten_client. simpl.
  apply flat_map_Permutation; [|apply entries_Permutation].
  intros [ticketId t]. reflexivity.
Qed.

(** Filing one formatted credential under a client and a ticket adds one
    flat record and leaves the other clients alone. *)
Lemma filed_spec (g1 : obj client) k tk entry t0 f :
  own g1 k = Some entry ->
  own (tickets entry) tk = Some t0
  \/ (own (tickets entry) tk = None /\ credentials t0 = []) ->
  let entry' :=
    {| clientName := clientName entry;
       clientInfo_id := clientInfo_id entry;
       clientInfo_dateAdded := clientInfo_dateAdded entry;
       tickets := set (tickets entry) tk
                    {| credentials := credentials t0 ++ [f];
                       metadata_dateCreated := metadata_dateCreated t0 |} |} in
  own (set g1 k entry') k = Some entry'
  /\ (forall k', k' <> k -> own (set g1 k entry') k' = own g1 k')
  /\ flatten_created (set g1 k entry')
     ≡ₚ flatten_created g1
        ++ [{| flat_cred := f; flat_clientId := k;
               flat_clientName := clientName entry; flat_ticketId := tk |}].
Proof.
  intros Hown Hticket entry'.
  split; [apply own_set_eq|]. split; [intros k' Hk'; apply own_set_ne, Hk'|].
  unfold flatten_created. apply flat_map_set.
  - intros v0 Hv0. rewrite Hown in Hv0. injection Hv0 as <-.
    unfold flatten_client. simpl. apply flat_map_set.
    + intros t Ht. destruct Hticket as [Ht0 | [Ht0 _]]; rewrite Ht0 in Ht; [|discriminate].
      injection Ht as <-. unfold flatten_ticket. simpl. rewrite map_app. reflexivity.
    + intros Ht. destruct Hticket as [Ht0 | [_ Hnil]]; [congruence|].
      unfold flatten_ticket. simpl. rewrite Hnil. reflexivity.
  - intros Hnone. congruence.
Qed.

Lemma group_step_spec now (g : obj client) cred g' :
  group_step now g cred = Normal g' ->
  exists f entry',
    format now cred = Normal f
    /\ own g' (client_key cred) = Some entry'
    /\ clientName entry'
       = match own g (client_key cred) with
         | Some entry => clientName entry
         | None => client_label cred
         end
    /\ (forall k, k <> client_key cred -> own g' k = own g k)
    /\ flatten_created g'
       ≡ₚ flatten_created g
          ++ [{| flat_cred := f; flat_clientId := client_key cred;
                 flat_clientName := clientName entry';
                 flat_ticketId := ticket_key cred |}].
Proof.
  unfold group_step. fold (client_key cred). fold (ticket_key cred).
  fold (client_label cred).
  set (fresh := {| clientName := client_label cred;
                   clientInfo_id := _; clientInfo_dateAdded := _; tickets := [] |}).
  set (g1 := match get g (client_key cred) with Missing => _ | _ => g end).
  assert ((exists entry,
             own g1 (client_key cred) = Some entry
             /\ clientName entry
                = match own g (client_key cred) with
                  | Some e => clientName e
                  | None => client_label cred
                  end
             /\ (forall k, k <> client_key cred -> own g1 k = own g k)
             /\ flatten_created g1 ≡ₚ flatten_created g)
          \/ get g1 (client_key cred) = Inherited) as [(entry & Hown & Hname & Hother & Hflat) | Hinh].
  { subst g1. destruct (get g (client_key cred)) as [e| |] eqn:Hget.
    - left. apply get_Own in Hget. exists e. rewrite Hget. auto.
    - right. exact Hget.
    - left. assert (own g (client_key cred) = None) as Hnone by (apply get_not_Own; auto).
      exists fresh. rewrite Hnone. split; [apply own_set_eq|]. split; [reflexivity|].
      split; [intros k Hk; apply own_set_ne, Hk|].
      unfold flatten_created.
      rewrite (flat_map_set flatten_client (client_key cred) fresh []).
      + rewrite app_nil_r. reflexivity.
      + congruence.
      + reflexivity. }
  2: { rewrite Hinh. discriminate. }
  rewrite (proj2 (get_Own g1 _ entry) Hown).
  intros H.
  assert (exists t0,
            (own (tickets entry) (ticket_key cred) = Some t0
             \/ (own (tickets entry) (ticket_key cred) = None /\ credentials t0 = []))
            /\ exists f, format now cred = Normal f
                 /\ g' = set g1 (client_key cred)
                           {| clientName := clientName entry;
                              clientInfo_id := clientInfo_id entry;
                              clientInfo_dateAdded := clientInfo_dateAdded entry;
                              tickets :=
                                set (tickets entry) (ticket_key cred)
                                  {| credentials := credentials t0 ++ [f];
                                     metadata_dateCreated := metadata_dateCreated t0 |} |})
    as (t0 & Hticket & f & Hf & ->).
  { destruct (get (tickets entry) (ticket_key cred)) as [t| |] eqn:Ht; [| discriminate |].
    - exists t. split; [left; apply get_Own, Ht|].
      destruct (format now cred) as [f|]; [|discriminate].
      injection H as <-. eauto.
    - exists {| credentials := []; metadata_dateCreated := now |}.
      split; [right; split; [apply get_not_Own; auto | reflexivity]|].
      destruct (format now cred) as [f|]; [|discriminate].
      injection H as <-. eauto. }
  destruct (filed_spec g1 _ _ entry t0 f Hown Hticket) as (Hown' & Hother' & Hflat').
  eexists f, _. split; [exact Hf|]. split; [exact Hown'|]. split; [exact Hname|].
  split.
  - intros k Hk. rewrite Hother' by exact Hk. apply Hother, Hk.
  - rewrite Hflat', Hflat. reflexivity.
Qed.

Lemma first_label_cons cred creds k :
  first_label (cred :: creds) k
  = if jsstr_eqb (client_key cred) k then client_label cred else first_label creds k.
Proof. unfold first_label. simpl. destruct (jsstr_eqb _ _); reflexivity. Qed.

(** The loop of [groupCredentialsByClient], from any grouped structure. *)
Lemma for_each_group_spec now : forall creds (g0 g : obj client),
  for_each (group_step now) creds g0 = Normal g ->
  exists fs,
    Forall2 (fun cred f => format now cred = Normal f) creds fs
    /\ flatten_created g
       ≡ₚ flatten_created g0
          ++ zip_with (fun f cred =>
                         {| flat_cred := f; flat_clientId := client_key cred;
                            flat_clientName := name_in g (client_key cred);
                            flat_ticketId := ticket_key cred |}) fs creds
    /\ (forall k, name_in g k
                  = match own g0 k with
                    | Some entry => clientName entry
                    | None => first_label creds k
                    end).
Proof.
  induction creds as [|cred creds IH]; intros g0 g H; simpl in H.
  - injection H as <-. exists []. split; [constructor|]. split.
    + simpl. rewrite app_nil_r. reflexivity.
    + intros k. unfold name_in. destruct (own g0 k); reflexivity.
  - destruct (group_step now g0 cred) as [g1|] eqn:Hstep; [|discriminate].
    simpl in H.
    apply group_step_spec in Hstep as (f & entry1 & Hf & Hown1 & Hname1 & Hother & Hflat1).
    apply IH in H as (fs & Hfs & Hflat & Hnames).
    exists (f :: fs). split; [constructor; assumption|]. split.
    + rewrite Hflat, Hflat1, <- app_assoc. simpl.
      rewrite (Hnames (client_key cred)), Hown1. reflexivity.
    + intros k. rewrite Hnames, first_label_cons.
      destruct (jsstr_eqb (client_key cred) k) eqn:Hk.
      * apply jsstr_eqb_true in Hk as <-. rewrite Hown1, Hname1.
        destruct (own g0 (client_key cred)); reflexivity.
      * apply jsstr_eqb_false in Hk. rewrite Hother by congruence.
        destruct (own g0 k); reflexivity.
Qed.

(** C6 (counterexample).  Two records of the client "c1", the second filed
    under the name "Acme Ltd": after grouping and flattening both carry the
    name of the first, "ACME", and no record carries "Acme Ltd". *)
Lemma flatten_group_loses_client_name :
  Credential.clientName acme_domain = Val (js "Acme Ltd")
  /\ (fun rs => (fun r => (flat_clientId r, flat_clientName r, flat_ticketId r)) <$> rs)
     <$> (flattenGroupedCredentials
          <$> groupCredentialsByClient clock (AnArray [acme_ftp; acme_domain]))
     = Normal [ (js "c1", js "ACME", js "t1"); (js "c1", js "ACME", js "t2") ].
Proof. split; [reflexivity|]. vm_compute. reflexivity. Qed.

(** C6 (as amended).  When [groupCredentialsByClient] returns for an array
    of records, flattening what it returned yields, up to the order across
    groups, one record per record of the array: its formatted form (the
    record as the formatter of its kind writes it), with the client id it
    was filed under ("unknown" when it has none), its ticket id ("general"
    when it has none), and the client name of the first record of the array
    filed under that client id ("Nieznany Klient" when that one has none). *)
Theorem flatten_group_roundtrip :
  forall (now : jsstr) (creds : list credential) (g : obj client),
    groupCredentialsByClient now (AnArray creds) = Normal g ->
    exists fs,
      Forall2 (fun cred f => format now cred = Normal f) creds fs
      /\ flattenGroupedCredentials g ≡ₚ zip_with (regrouped creds) fs creds.
Proof.
  intros now creds g H.
  assert (for_each (group_step now) creds [] = Normal g) as Hloop.
  { destruct creds; exact H. }
  apply for_each_group_spec in Hloop as (fs & Hfs & Hflat & Hnames).
  exists fs. split; [exact Hfs|].
  rewrite flatten_as_created, Hflat. simpl.
  erewrite zip_with_ext; [reflexivity | | reflexivity | reflexivity].
  intros f cred. unfold regrouped. rewrite Hnames. reflexivity.
Qed.

Lemma flatten_group_roundtrip_witness :
  exists g,
    groupCredentialsByClient clock (AnArray [acme_ftp; acme_domain]) = Normal g
    /\ exists fs,
         Forall2 (fun cred f => format clock cred = Normal f) [acme_ftp; acme_domain] fs
         /\ flattenGroupedCredentials g
            ≡ₚ zip_with (regrouped [acme_ftp; acme_domain]) fs [acme_ftp; acme_domain].
Proof.
  eexists. split; [vm_compute; reflexivity|].
  apply (flatten_group_roundtrip clock [acme_ftp; acme_domain]).
  vm_compute. reflexivity.
Defined.
(* ===================================================================== *)
(** ** Loops over patterns without the [g] flag *)
(* ===================================================================== *)

(** A loop over a RegExp object without the [g] flag returns only when its
    first [exec] finds nothing, and then with its variables untouched. *)
Lemma while_exec_not_global_returns {A} (body : Match -> RegExp -> A -> RegExp * A) text :
  (forall m re acc, exists n, (body m re acc).1 = set_lastIndex re n) ->
  forall fuel re acc r,
    global re = false ->
    while_exec fuel body re text acc = Some r ->
    r = (re, acc) /\ exec1 re text = None.
Proof.
  intros Hbody [|fuel] re acc r Hg H; [discriminate|].
  simpl in H. rewrite (exec_not_global _ _ Hg) in H.
  destruct (exec1 re text) as [m|] eqn:Hm.
  - exfalso.
    destruct (Hbody m re acc) as [n Hn].
    destruct (body m re acc) as [re' acc'] eqn:Hb. simpl in Hn. subst re'.
    rewrite (while_exec_never_leaves body text Hbody) in H; [discriminate| |].
    + exact Hg.
    + rewrite exec1_set_lastIndex by exact Hg. rewrite Hm. eauto.
  - injection H as <-. auto.
Qed.

Lemma collect_not_global_returns {A} (body : Match -> RegExp -> A -> RegExp * A) text :
  (forall m re acc, exists n, (body m re acc).1 = set_lastIndex re n) ->
  forall patterns fuel acc r,
    Forall (fun re => global re = false) patterns ->
    collect fuel body patterns text acc = Some r ->
    r = acc /\ Forall (fun re => exec1 re text = None) patterns.
Proof.
  intros Hbody. induction patterns as [|re patterns IH]; intros fuel acc r Hg H.
  - injection H as <-. split; [reflexivity | constructor].
  - inversion Hg as [|? ? Hg1 Hg2]; subst. simpl in H.
    destruct (while_exec fuel body re text acc) as [r'|] eqn:Hw; [|discriminate].
    apply (while_exec_not_global_returns body text Hbody) in Hw as [-> Hnone];
      [|exact Hg1].
    simpl in H. apply IH in H as [-> Hall]; [|exact Hg2].
    split; [reflexivity | constructor; assumption].
Qed.

Lemma not_global_no_match (patterns : list RegExp) text :
  Forall (fun re => global re = false) patterns ->
  Forall (fun re => exec1 re text = None) patterns ->
  Forall (fun re => global re = false /\ exec1 re text = None) patterns.
Proof.
  induction patterns as [|re patterns IH]; intros Hg Hn; [constructor|].
  inversion Hg; inversion Hn; subst. constructor; auto.
Qed.

Lemma push_cpanel_sets_lastIndex m re acc :
  exists n, (push_cpanel m re acc).1 = set_lastIndex re n.
Proof. eexists. reflexivity. Qed.

Lemma push_panelUrl_sets_lastIndex m re acc :
  exists n, (push_panelUrl m re acc).1 = set_lastIndex re n.
Proof. eexists. reflexivity. Qed.

Lemma extractServerCredentials_returns fuel text found :
  extractServerCredentials fuel text = Some found ->
  found = []
  /\ Forall (fun re => exec1 re text = None)
       (ServerPatterns.cpanel ++ ServerPatterns.panelUrl ++ ServerPatterns.serverAddress).
Proof.
  intros H. unfold extractServerCredentials in H.
  destruct (collect fuel push_cpanel ServerPatterns.cpanel text []) as [panels|] eqn:H1;
    [|discriminate].
  apply (collect_not_global_returns _ _ push_cpanel_sets_lastIndex) in H1 as [-> Hn1];
    [|repeat constructor].
  unfold mbind, option_bind in H.
  destruct (collect fuel push_panelUrl ServerPatterns.panelUrl text []) as [panels|] eqn:H2;
    [|discriminate].
  apply (collect_not_global_returns _ _ push_panelUrl_sets_lastIndex) in H2 as [-> Hn2];
    [|repeat constructor].
  unfold mbind, option_bind in H.
  destruct (collect fuel push_server ServerPatterns.serverAddress text []) as [servers|] eqn:H3;
    [|discriminate].
  apply (collect_not_global_returns _ _ push_server_sets_lastIndex) in H3 as [-> Hn3];
    [|repeat constructor].
  injection H as <-. split; [reflexivity|].
  rewrite !Forall_app. auto.
Qed.

Lemma extractServerCredentials_no_match fuel text :
  Forall (fun re => exec1 re text = None)
    (ServerPatterns.cpanel ++ ServerPatterns.panelUrl ++ ServerPatterns.serverAddress) ->
  extractServerCredentials (S fuel) text = Some [].
Proof.
  rewrite !Forall_app. intros (Hn1 & Hn2 & Hn3).
  unfold extractServerCredentials.
  assert (forall {A} (body : Match -> RegExp -> A -> RegExp * A) patterns acc,
            Forall (fun re => global re = false) patterns ->
            Forall (fun re => exec1 re text = None) patterns ->
            collect (S fuel) body patterns text acc = Some acc) as Hnone.
  { intros A body patterns acc Hg Hn. apply collect_no_match.
    apply not_global_no_match; assumption. }
  rewrite (Hnone _ push_cpanel ServerPatterns.cpanel [] ltac:(repeat constructor) Hn1).
  unfold mbind, option_bind at 1.
  rewrite (Hnone _ push_panelUrl ServerPatterns.panelUrl [] ltac:(repeat constructor) Hn2).
  unfold mbind, option_bind at 1.
  rewrite (Hnone _ push_server ServerPatterns.serverAddress [] ltac:(repeat constructor) Hn3).
  reflexivity.
Qed.

(** X1.  Whenever [extractServerCredentials] returns, it returns the empty
    array: it returns exactly on the texts that none of its five anchor
    patterns (two for cPanel addresses, one for panel addresses, two for
    server addresses) matches.  On a text that one of them matches, the loop
    over that pattern, which has no [g] flag, never leaves. *)
Theorem extractServerCredentials_finds_nothing :
  forall (fuel : nat) (text : jsstr),
    let anchors :=
      ServerPatterns.cpanel ++ ServerPatterns.panelUrl ++ ServerPatterns.serverAddress in
    (forall found, extractServerCredentials fuel text = Some found -> found = [])
    /\ (is_Some (extractServerCredentials (S fuel) text)
        <-> Forall (fun re => exec1 re text = None) anchors).
Proof.
  intros fuel text anchors.
  split; [intros found H; apply (extractServerCredentials_returns fuel text found H)|].
  split.
  - intros [found H]. apply (extractServerCredentials_returns (S fuel) text found H).
  - intros Hnone. rewrite (extractServerCredentials_no_match fuel text Hnone). eauto.
Qed.

(** X2.  [extractFtpCredentials] returns only on texts that none of its
    three server patterns matches, and every account it then returns is
    built around an IP address: its server is the address of an occurrence
    of "IP: a.b.c.d" (or "adres IP: a.b.c.d") in the text. *)
Theorem extractFtpCredentials_accounts_from_IP :
  forall (fuel : nat) (text : jsstr) (accounts : list ftpAccount),
    extractFtpCredentials fuel text = Some accounts ->
    Forall (fun re => exec1 re text = None) FtpPatterns.ftpServer
    /\ exists ms,
         all_matches fuel FtpPatterns.ipRegex text = Some ms
         /\ forall a, a ∈ accounts ->
              exists m, m ∈ ms
                        /\ ftp_server a = group_text m 1
                        /\ ftp_account_near text
                             {| anchor_server := group_text m 1; anchor_index := index m |}
                           = Some a.
Proof.
  intros fuel text accounts H. unfold extractFtpCredentials in H.
  destruct (collect fuel push_server FtpPatterns.ftpServer text []) as [servers|] eqn:Hc;
    [|discriminate].
  apply (collect_not_global_returns _ _ push_server_sets_lastIndex) in Hc as [-> Hnone];
    [|apply ftpServer_patterns_not_global].
  split; [exact Hnone|].
  unfold mbind, option_bind in H.
  set (f := fun (acc : list serverAnchor) (m : Match) =>
              (push_ftp_ip text m FtpPatterns.ipRegex acc).2).
  assert (folds (push_ftp_ip text) f) as Hfolds.
  { intros m re acc. unfold f, push_ftp_ip. destruct (_ || _); reflexivity. }
  pose proof (while_exec_folds _ _ text Hfolds fuel FtpPatterns.ipRegex []) as Hfold.
  destruct (while_exec fuel (push_ftp_ip text) FtpPatterns.ipRegex text []) as [found|];
    [|discriminate].
  destruct (all_matches fuel FtpPatterns.ipRegex text) as [ms|]; [|discriminate].
  injection Hfold as Hfold. injection H as <-.
  exists ms. split; [reflexivity|].
  intros a Ha. apply list_elem_of_omap in Ha as (server & Hin & Hs).
  rewrite Hfold in Hin.
  assert (forall ms acc s, s ∈ foldl f acc ms ->
            s ∈ acc \/ exists m, m ∈ ms /\ s = {| anchor_server := group_text m 1;
                                                  anchor_index := index m |}) as Horigin.
  { clear. induction ms as [|m ms IH]; intros acc s Hs; simpl in Hs; [auto|].
    apply IH in Hs as [Hs | (m' & Hin & Hm')].
    - unfold f, push_ftp_ip in Hs. destruct (_ || _); simpl in Hs; [|auto].
      apply elem_of_app in Hs as [Hs | Hs]; [auto|].
      apply list_elem_of_singleton in Hs as ->.
      right. exists m. split; [left | reflexivity].
    - right. exists m'. split; [right; exact Hin | exact Hm']. }
  apply Horigin in Hin as [Hin | (m & Hm & ->)]; [inversion Hin|].
  exists m. split; [exact Hm|]. split; [|exact Hs].
  pose proof (ftp_account_near_policy text
                {| anchor_server := group_text m 1; anchor_index := index m |}) as Hp.
  cbv zeta in Hp. rewrite Hs in Hp. apply Hp.
Qed.

Lemma extractFtpCredentials_accounts_from_IP_witness :
  let text := js "serwer, adres IP: 10.0.0.1, login: bob" in
  extractFtpCredentials 40 text
  = Some [ {| ftp_server := js "10.0.0.1"; ftp_username := js "bob";
              ftp_password := None; ftp_port := Int 21; ftp_type := js "ftp";
              ftp_confidence := 0.7%Q |} ]
  /\ Forall (fun re => exec1 re text = None) FtpPatterns.ftpServer.
Proof.
  intros text. split; [vm_compute; reflexivity|].
  apply (extractFtpCredentials_accounts_from_IP 40 text
           [ {| ftp_server := js "10.0.0.1"; ftp_username := js "bob";
                ftp_password := None; ftp_port := Int 21; ftp_type := js "ftp";
                ftp_confidence := 0.7%Q |} ]).
  vm_compute. reflexivity.
Defined.

(** X3.  [extractAllCredentials] hands out a result only for an empty or
    blank text, and then the object of empty arrays.  For any other text it
    never returns one: while the text matches one of the patterns for an FTP
    server, a panel or a server, the call stays in the loop over that
    pattern, and when it matches none of them, the call throws the
    [TypeError] of [extractEmailAccounts], whatever the extractors taken as
    parameters do. *)
Theorem extractAllCredentials_returns_nothing :
  forall (Web Db Gen : Type)
         (extractWebsites : nat -> jsstr -> option (list Web))
         (extractDatabaseCredentials : nat -> jsstr -> option (list Db))
         (extractGenericCredentials : nat -> jsstr -> option (list Gen))
         (text : jsstr),
    let extractAll :=
      extractAllCredentials extractWebsites extractDatabaseCredentials
        extractGenericCredentials in
    let anchors :=
      FtpPatterns.ftpServer ++ ServerPatterns.cpanel ++ ServerPatterns.panelUrl
      ++ ServerPatterns.serverAddress in
    if negb (str_truthy text) || (length (trim text) =? 0) then
      forall fuel,
        extractAll fuel text
        = Some (Normal {| ftpAccounts := []; serverCredentials := []; emailAccounts := [];
                          websites := []; domains := []; dnsRecords := Some [];
                          databases := []; genericCredentials := [] |})
    else
      (forall fuel,
         extractAll fuel text = None \/ extractAll fuel text = Some (Throw TypeError))
      /\ (Exists (fun re => is_Some (exec1 re text)) anchors ->
          forall fuel, extractAll fuel text = None)
      /\ (Forall (fun re => exec1 re text = None) anchors ->
          extractAll (length text + 2) text = Some (Throw TypeError)).
Proof.
  intros Web Db Gen extractWebsites extractDatabaseCredentials extractGenericCredentials
    text extractAll anchors.
  unfold extractAll, extractAllCredentials.
  destruct (negb (str_truthy text) || (length (trim text) =? 0)); [reflexivity|].
  split; [|split].
  - intros fuel.
    destruct (extractFtpCredentials fuel text); [|left; reflexivity].
    destruct (extractServerCredentials fuel text); [|left; reflexivity].
    right. reflexivity.
  - unfold anchors. rewrite Exists_app. intros [Hftp | Hserver] fuel.
    + unfold extractFtpCredentials.
      rewrite (collect_never_leaves push_server _ push_server_sets_lastIndex);
        [reflexivity | apply ftpServer_patterns_not_global | exact Hftp].
    + destruct (extractFtpCredentials fuel text); [|reflexivity].
      destruct (extractServerCredentials fuel text) as [found|] eqn:Hs; [|reflexivity].
      exfalso. apply extractServerCredentials_returns in Hs as [_ Hnone].
      apply Exists_exists in Hserver as (re & Hin & [m Hm]).
      rewrite Forall_forall in Hnone. rewrite (Hnone re Hin) in Hm. discriminate.
  - unfold anchors. rewrite Forall_app. intros [Hftp Hserver].
    apply extractFtpCredentials_returns_iff in Hftp as [accounts ->].
    replace (length text + 2) with (S (length text + 1)) by lia.
    rewrite (extractServerCredentials_no_match _ _ Hserver). reflexivity.
Qed.

(* ===================================================================== *)
(** ** What the e-mail and domain extractors return *)
(* ===================================================================== *)

Lemma push_domain_distinct nameservers grp confidence m re acc :
  NoDup (dom_domain <$> acc) ->
  NoDup (dom_domain <$> (push_domain nameservers grp confidence m re acc).2).
Proof.
  intros Hnd. unfold push_domain.
  destruct (existsb _ acc) eqn:Hex; simpl; [exact Hnd|].
  rewrite fmap_app. simpl. apply NoDup_app. split; [exact Hnd|].
  split; [|apply NoDup_singleton].
  intros x Hx Hin. apply list_elem_of_singleton in Hin as ->.
  apply list_elem_of_fmap in Hx as (d & Heq & Hd).
  assert (existsb (fun d => jsstr_eqb (dom_domain d) (group_text m grp)) acc = true) as Ht.
  { apply existsb_exists. exists d. split; [apply list_elem_of_In, Hd|].
    apply jsstr_eqb_true. congruence. }
  congruence.
Qed.

Lemma push_domain_tagged nameservers grp confidence m re acc :
  Forall (fun d => dom_type d = js "domain"
                   /\ (dom_confidence d = 0.9%Q \/ dom_confidence d = 0.8%Q)) acc ->
  confidence = 0.9%Q \/ confidence = 0.8%Q ->
  Forall (fun d => dom_type d = js "domain"
                   /\ (dom_confidence d = 0.9%Q \/ dom_confidence d = 0.8%Q))
         (push_domain nameservers grp confidence m re acc).2.
Proof.
  intros H Hc. unfold push_domain. destruct (existsb _ _); simpl; [exact H|].
  apply Forall_app. split; [exact H|].
  constructor; [|apply List.Forall_nil]. simpl. split; [reflexivity | exact Hc].
Qed.

(** X4.  The array [extractDomainInfo] returns never holds two records for
    the same domain name, whichever loop found them; each record has the type
    "domain" and confidence 0.9 (a domain named in the text) or 0.8 (the host
    of a URL). *)
Theorem extractDomainInfo_distinct_domains :
  forall (fuel : nat) (text : jsstr) (ds : list domainInfo),
    extractDomainInfo fuel text = Some ds ->
    NoDup (dom_domain <$> ds)
    /\ Forall (fun d => dom_type d = js "domain"
                        /\ (dom_confidence d = 0.9%Q \/ dom_confidence d = 0.8%Q)) ds.
Proof.
  intros fuel text ds H. unfold extractDomainInfo in H.
  destruct (find_nameservers fuel text) as [ns|]; [|discriminate].
  unfold mbind, option_bind in H. cbv beta iota in H.
  destruct (collect fuel (push_domain ns 1 0.9%Q) DomainPatterns.domain text [])
    as [explicit|] eqn:Hex; [|discriminate].
  set (P := fun acc : list domainInfo =>
              NoDup (dom_domain <$> acc)
              /\ Forall (fun d => dom_type d = js "domain"
                                  /\ (dom_confidence d = 0.9%Q \/ dom_confidence d = 0.8%Q))
                        acc).
  assert (forall grp c, c = 0.9%Q \/ c = 0.8%Q ->
            forall m re acc, P acc -> P (push_domain ns grp c m re acc).2) as Hstep.
  { intros grp c Hc m re acc [H1 H2]. split.
    - apply push_domain_distinct, H1.
    - apply push_domain_tagged; assumption. }
  assert (P explicit) as Hexplicit.
  { eapply (collect_invariant P); [apply (Hstep 1 0.9%Q); auto | | exact Hex].
    split; [apply NoDup_nil_2 | apply List.Forall_nil]. }
  destruct (_ && _).
  - destruct (while_exec fuel _ DomainPatterns.websiteRegex text explicit) as [r|] eqn:Hw;
      [|discriminate].
    injection H as <-.
    exact (while_exec_invariant P _ text (Hstep 2 0.8%Q (or_intror eq_refl))
             fuel _ _ r Hexplicit Hw).
  - injection H as <-. exact Hexplicit.
Qed.

Lemma extractDomainInfo_distinct_domains_witness :
  exists ds,
    extractDomainInfo (length sites_example + 2) sites_example = Some ds
    /\ length ds = 2
    /\ NoDup (dom_domain <$> ds)
    /\ Forall (fun d => dom_type d = js "domain"
                        /\ (dom_confidence d = 0.9%Q \/ dom_confidence d = 0.8%Q)) ds.
Proof.
  eexists. split; [vm_compute; reflexivity|]. split; [reflexivity|].
  apply (extractDomainInfo_distinct_domains (length sites_example + 2) sites_example).
  vm_compute. reflexivity.
Defined.

Lemma push_new_NoDup x arr : NoDup arr -> NoDup (push_new x arr).
Proof.
  intros H. unfold push_new. destruct (bool_decide (x ∈ arr)) eqn:Hx; [exact H|].
  apply bool_decide_eq_false in Hx.
  apply NoDup_app. split; [exact H|]. split; [|apply NoDup_singleton].
  intros y Hy Hin. apply list_elem_of_singleton in Hin as ->. contradiction.
Qed.

Lemma find_nameservers_NoDup fuel text ns :
  find_nameservers fuel text = Some ns -> NoDup ns.
Proof.
  unfold find_nameservers.
  destruct (first_match DomainPatterns.nameserverSection text) as [nsMatch|];
    [|intros [= <-]; constructor].
  set (nsBlock := substring text _ _).
  destruct (collect fuel push_nameserver DomainPatterns.nameserver nsBlock [])
    as [found|] eqn:Hc; [|discriminate].
  simpl. intros [= <-].
  assert (NoDup found) as Hfound.
  { eapply (collect_invariant (fun acc => NoDup acc)); [|apply NoDup_nil_2|exact Hc].
    intros m re acc Hacc. unfold push_nameserver. simpl. apply push_new_NoDup, Hacc. }
  unfold push_hostname_lines. generalize (skipn 1 (split_on 10%N nsBlock)).
  intros lines. clear Hc. revert found Hfound.
  induction lines as [|line lines IH]; intros found Hfound; simpl; [exact Hfound|].
  apply IH. destruct (test _ _); [apply push_new_NoDup|]; exact Hfound.
Qed.

(** X5.  In every record [extractDomainInfo] returns, the list of
    nameservers names no nameserver twice, and all records of one call carry
    the same list. *)
Theorem extractDomainInfo_nameservers_once :
  forall (fuel : nat) (text : jsstr) (ds : list domainInfo),
    extractDomainInfo fuel text = Some ds ->
    exists ns,
      NoDup ns /\ Forall (fun d => dom_nameservers d = ns) ds.
Proof.
  intros fuel text ds H. unfold extractDomainInfo in H.
  destruct (find_nameservers fuel text) as [ns|] eqn:Hns; [|discriminate].
  exists ns. split; [eapply find_nameservers_NoDup, Hns|].
  unfold mbind, option_bind in H. cbv beta iota in H.
  destruct (collect fuel (push_domain ns 1 0.9%Q) DomainPatterns.domain text [])
    as [explicit|] eqn:Hex; [|discriminate].
  pose proof (collect_invariant (Forall (fun d => dom_nameservers d = ns)) _ text fuel
                (fun m re0 acc0 => push_domain_nameservers ns 1 0.9%Q m re0 acc0)
                _ _ _ (List.Forall_nil _) Hex) as Hall.
  destruct (_ && _).
  - destruct (while_exec fuel _ DomainPatterns.websiteRegex text explicit) as [r|] eqn:Hw;
      [|discriminate].
    injection H as <-.
    exact (while_exec_invariant _ _ text
             (fun m re0 acc0 => push_domain_nameservers ns 2 0.8%Q m re0 acc0)
             fuel _ _ r Hall Hw).
  - injection H as <-. exact Hall.
Qed.

Lemma extractDomainInfo_nameservers_once_witness :
  exists ds,
    extractDomainInfo (length domeny_example + 2) domeny_example = Some ds
    /\ length ds = 1
    /\ exists ns, NoDup ns /\ Forall (fun d => dom_nameservers d = ns) ds.
Proof.
  eexists. split; [vm_compute; reflexivity|]. split; [reflexivity|].
  apply (extractDomainInfo_nameservers_once (length domeny_example + 2) domeny_example).
  vm_compute. reflexivity.
Defined.

(* ===================================================================== *)
(** ** What the categoriser returns, and when it throws *)
(* ===================================================================== *)

Lemma formatWebsite_throws_iff now cred :
  formatWebsite now cred = Throw TypeError
  <-> is_truthy (Credential.url cred) = true
      /\ URL.hostname (template (Credential.url cred)) = None.
Proof.
  unfold formatWebsite. destruct (is_truthy (Credential.url cred)).
  - destruct (URL.hostname _); simpl; split; try tauto; try discriminate.
    intros [_ H]. discriminate.
  - simpl. split; [discriminate | intros [H _]; discriminate].
Qed.

Lemma formatWebsite_cases now cred :
  formatWebsite now cred = Throw TypeError \/ exists site, formatWebsite now cred = Normal site.
Proof.
  destruct (formatWebsite now cred) as [site|e] eqn:H; [eauto|].
  apply formatWebsite_throws in H as ->. auto.
Qed.

(** The loop of [categorizeMigrationData] from any state of the buckets. *)
Lemma for_each_categorize_buckets now : forall creds r0 r,
  for_each (categorize_step now) creds r0 = Normal r ->
  Categorized.ftpAccounts r
  = Categorized.ftpAccounts r0
    ++ (formatFTPAccount now <$> filter (fun c => classify c = KFtp) creds)
  /\ (exists sites,
        Categorized.websites r = Categorized.websites r0 ++ sites
        /\ Forall2 (fun c site => formatWebsite now c = Normal site)
             (filter (fun c => classify c = KWebsite) creds) sites)
  /\ Categorized.domains r
     = Categorized.domains r0
       ++ (formatDomain now <$> filter (fun c => classify c = KDomain) creds)
  /\ Categorized.emailAccounts r
     = Categorized.emailAccounts r0
       ++ (formatEmailAccount now <$> filter (fun c => classify c = KEmail) creds)
  /\ Categorized.otherCredentials r
     = Categorized.otherCredentials r0
       ++ (formatGenericCredential now <$> filter (fun c => classify c = KGeneric) creds).
Proof.
  induction creds as [|cred creds IH]; intros r0 r H; simpl in H.
  - injection H as <-. rewrite !filter_nil. simpl. rewrite !app_nil_r.
    repeat split; try reflexivity. exists []. rewrite app_nil_r. split; [reflexivity|constructor].
  - destruct (categorize_step now r0 cred) as [r1|] eqn:Hs; [|discriminate].
    simpl in H. apply IH in H as (Hf & (sites & Hw & Hsites) & Hd & He & Ho).
    rewrite !filter_cons.
    unfold categorize_step in Hs. destruct r0 as [ftp web dom mail other].
    destruct (classify cred) eqn:Hk.
    + injection Hs as <-. simpl in *.
      rewrite Hf, Hw, Hd, He, Ho.
      repeat (destruct (decide _); try congruence). simpl.
      rewrite <- !app_assoc. repeat split; try reflexivity. eauto.
    + destruct (formatWebsite now cred) as [site|] eqn:Hsite; [|discriminate].
      injection Hs as <-. simpl in *.
      rewrite Hf, Hw, Hd, He, Ho.
      repeat (destruct (decide _); try congruence). simpl.
      rewrite <- !app_assoc. repeat split; try reflexivity.
      exists (site :: sites). split; [reflexivity|]. constructor; assumption.
    + injection Hs as <-. simpl in *.
      rewrite Hf, Hw, Hd, He, Ho.
      repeat (destruct (decide _); try congruence). simpl.
      rewrite <- !app_assoc. repeat split; try reflexivity. eauto.
    + injection Hs as <-. simpl in *.
      rewrite Hf, Hw, Hd, He, Ho.
      repeat (destruct (decide _); try congruence). simpl.
      rewrite <- !app_assoc. repeat split; try reflexivity. eauto.
    + injection Hs as <-. simpl in *.
      rewrite Hf, Hw, Hd, He, Ho.
      repeat (destruct (decide _); try congruence). simpl.
      rewrite <- !app_assoc. repeat split; try reflexivity. eauto.
Qed.

Lemma categorizeMigrationData_buckets_of now creds r :
  categorizeMigrationData now (AnArray creds) = Normal r ->
  Categorized.ftpAccounts r
  = (formatFTPAccount now <$> filter (fun c => classify c = KFtp) creds)
  /\ Forall2 (fun c site => formatWebsite now c = Normal site)
       (filter (fun c => classify c = KWebsite) creds) (Categorized.websites r)
  /\ Categorized.domains r
     = (formatDomain now <$> filter (fun c => classify c = KDomain) creds)
  /\ Categorized.emailAccounts r
     = (formatEmailAccount now <$> filter (fun c => classify c = KEmail) creds)
  /\ Categorized.otherCredentials r
     = (formatGenericCredential now <$> filter (fun c => classify c = KGeneric) creds).
Proof.
  intros H.
  assert (for_each (categorize_step now) creds Categorized.empty = Normal r) as Hloop.
  { destruct creds; exact H. }
  apply for_each_categorize_buckets in Hloop as (Hf & (sites & Hw & Hsites) & Hd & He & Ho).
  simpl in *. rewrite Hw. auto.
Qed.



Lemma categorize_step_cases now r0 cred :
  (categorize_step now r0 cred = Throw TypeError
   /\ classify cred = KWebsite /\ formatWebsite now cred = Throw TypeError)
  \/ (exists r1, categorize_step now r0 cred = Normal r1
      /\ ~ (classify cred = KWebsite /\ formatWebsite now cred = Throw TypeError)).
Proof.
  unfold categorize_step. destruct r0 as [ftp web dom mail other].
  destruct (classify cred) eqn:Hk;
    try (right; eexists; split; [reflexivity | intros [? ?]; discriminate]).
  destruct (formatWebsite_cases now cred) as [Ht | [site Hn]].
  - left. rewrite Ht. auto.
  - right. rewrite Hn. eexists. split; [reflexivity|]. intros [_ ?]. congruence.
Qed.

(** In the model, where [URL.hostname] stands for the URL parser, the
    categoriser throws exactly when it meets a credential of the website
    kind whose [url] is a non-empty string that the parser rejects. *)
Lemma categorizeMigrationData_throws_when_rejected :
  forall (now : jsstr) (creds : list credential),
    let rejected (c : credential) :=
      classify c = KWebsite
      /\ is_truthy (Credential.url c) = true
      /\ URL.hostname (template (Credential.url c)) = None in
    (categorizeMigrationData now (AnArray creds) = Throw TypeError <-> Exists rejected creds)
    /\ ((exists r, categorizeMigrationData now (AnArray creds) = Normal r)
        <-> ~ Exists rejected creds).
Proof.
  intros now creds rejected.
  assert (forall creds r0,
            (for_each (categorize_step now) creds r0 = Throw TypeError /\ Exists rejected creds)
            \/ (exists r, for_each (categorize_step now) creds r0 = Normal r)
               /\ ~ Exists rejected creds) as Hloop.
  { clear creds. induction creds as [|cred creds IH]; intros r0; simpl.
    - right. split; [eauto|]. intros H. inversion H.
    - destruct (categorize_step_cases now r0 cred) as [(Hs & Hk & Hw) | (r1 & Hs & Hok)];
        rewrite Hs; simpl.
      + left. split; [reflexivity|]. apply Exists_cons_hd.
        apply formatWebsite_throws_iff in Hw. unfold rejected. tauto.
      + destruct (IH r1) as [[Ht Hex] | [Hr Hnex]].
        * left. split; [exact Ht | apply Exists_cons_tl, Hex].
        * right. split; [exact Hr|]. intros Hex.
          apply Exists_cons in Hex as [(Hk & Hu & Hh) | Hex]; [|contradiction].
          apply Hok. split; [exact Hk|]. apply formatWebsite_throws_iff. auto. }
  assert (categorizeMigrationData now (AnArray creds)
          = for_each (categorize_step now) creds Categorized.empty) as ->.
  { destruct creds; reflexivity. }
  destruct (Hloop creds Categorized.empty) as [[Ht Hex] | [[r Hr] Hnex]].
  - rewrite Ht. split; [tauto|]. split; [intros [? ?]; discriminate | tauto].
  - rewrite Hr. split.
    + split; [discriminate | contradiction].
    + split; [auto | eauto].
Qed.

(** A string without a colon has no scheme: the URL parser rejects it. *)
Lemma scan_scheme_no_colon : forall s acc, cu ":" ∉ s -> URL.scan_scheme s acc = None.
Proof.
  induction s as [|c s IH]; intros acc H; [reflexivity|]. simpl.
  apply not_elem_of_cons in H as [Hc Hs].
  destruct (c =? 58)%N eqn:E; [apply N.eqb_eq in E; subst; contradiction|].
  destruct (_ || _); [apply IH, Hs | reflexivity].
Qed.

Lemma drop_while_subseteq p : forall s : jsstr, URL.drop_while p s ⊆ s.
Proof.
  induction s as [|c s IH]; simpl; [set_solver|].
  destruct (p c); set_solver.
Qed.

Lemma hostname_no_colon u : cu ":" ∉ u -> URL.hostname u = None.
Proof.
  intros H. unfold URL.hostname.
  assert (cu ":" ∉ URL.clean u) as Hclean.
  { intros Hin. apply H. unfold URL.clean in Hin.
    apply list_elem_of_filter in Hin as [_ Hin].
    apply list_elem_of_In, in_rev, list_elem_of_In in Hin.
    apply drop_while_subseteq in Hin.
    apply list_elem_of_In, in_rev, list_elem_of_In in Hin.
    apply drop_while_subseteq in Hin. exact Hin. }
  unfold URL.scheme_of. destruct (URL.clean u) as [|c s] eqn:E; [reflexivity|].
  destruct (URL.is_ascii_alpha c); [|reflexivity].
  rewrite scan_scheme_no_colon by exact Hclean. reflexivity.
Qed.

(** X7.  [categorizeMigrationData] can fail on one kind of credential only:
    whenever it throws, what it throws is the [TypeError] of the URL
    constructor, and the array holds a credential of the website kind with a
    non-empty [url].  An array without such a credential is always
    categorised.  And if the [url] of a credential of the website kind is a
    non-empty string without a colon (so without a scheme, as
    "www.example.com"), the call throws whatever else the array holds. *)
Theorem categorizeMigrationData_fails_on_sites_only :
  forall (now : jsstr) (creds : list credential),
    let site (cred : credential) :=
      classify cred = KWebsite
      /\ exists url, Credential.url cred = Val url /\ url <> [] in
    (forall e,
       categorizeMigrationData now (AnArray creds) = Throw e ->
       e = TypeError /\ Exists site creds)
    /\ (Forall (fun cred => ~ site cred) creds ->
        exists r, categorizeMigrationData now (AnArray creds) = Normal r)
    /\ (Exists (fun cred =>
                  classify cred = KWebsite
                  /\ exists url, Credential.url cred = Val url /\ url <> []
                                 /\ cu ":" ∉ url) creds ->
        categorizeMigrationData now (AnArray creds) = Throw TypeError).
Proof.
  intros now creds site.
  destruct (categorizeMigrationData_throws_when_rejected now creds) as [Hthrow Hret].
  cbv zeta in Hthrow, Hret.
  assert (forall cred, is_truthy (Credential.url cred) = true <->
            exists url, Credential.url cred = Val url /\ url <> []) as Htruthy.
  { intros cred. destruct (Credential.url cred) as [| |[|c url]].
    - split; [discriminate | intros (? & [=] & _)].
    - split; [discriminate | intros (? & [=] & _)].
    - split; [discriminate | intros (? & [= <-] & ?); congruence].
    - split; [intros _; eexists; split; [reflexivity | discriminate] | reflexivity]. }
  split; [|split].
  - intros e He.
    assert (e = TypeError) as -> by (eapply categorizeMigrationData_throws, He).
    split; [reflexivity|]. apply Hthrow in He.
    eapply Exists_impl; [exact He|]. intros cred (Hk & Hu & _).
    split; [exact Hk | apply Htruthy, Hu].
  - intros Hnone. apply Hret. intros Hex.
    apply Exists_exists in Hex as (cred & Hin & Hk & Hu & _).
    rewrite Forall_forall in Hnone. apply (Hnone cred Hin).
    split; [exact Hk | apply Htruthy, Hu].
  - intros Hex. apply Hthrow.
    eapply Exists_impl; [exact Hex|]. intros cred (Hk & url & Hurl & Hne & Hcolon).
    split; [exact Hk|]. split; [apply Htruthy; eauto|].
    rewrite Hurl. simpl. apply hostname_no_colon, Hcolon.
Qed.

(* ===================================================================== *)
(** ** Client and ticket ids that name a property of [Object.prototype] *)
(* ===================================================================== *)

Lemma get_inherited {A} (o : obj A) k :
  k ∈ prototype_keys -> own o k = None -> get o k = Inherited.
Proof.
  intros Hk Hown. unfold get. rewrite Hown.
  rewrite bool_decide_eq_true_2 by exact Hk. reflexivity.
Qed.

Lemma get_missing {A} (o : obj A) k :
  get o k = Missing -> (k ∉ prototype_keys) /\ own o k = None.
Proof.
  unfold get. destruct (own o k); [discriminate|].
  destruct (bool_decide (k ∈ prototype_keys)) eqn:Hk; [discriminate|].
  apply bool_decide_eq_false in Hk. auto.
Qed.

Lemma get_own_plain {A} (o : obj A) k a :
  (forall k', k' ∈ prototype_keys -> own o k' = None) ->
  get o k = Own a -> k ∉ prototype_keys.
Proof.
  intros Hplain Hget Hk. apply get_Own in Hget. rewrite (Hplain k Hk) in Hget. discriminate.
Qed.

(** One step of the loop of [groupCredentialsByClient] on a structure with
    plain names: it goes through only for a credential whose client id and
    ticket id are no names of [Object.prototype], and the names stay
    plain. *)
Lemma group_step_plain now (g : obj client) cred g' :
  plain_names g ->
  group_step now g cred = Normal g' ->
  (client_key cred ∉ prototype_keys) /\ (ticket_key cred ∉ prototype_keys) /\ plain_names g'.
Proof.
  intros [Hclients Htickets]. unfold group_step.
  fold (client_key cred). fold (ticket_key cred). fold (client_label cred).
  set (fresh := {| clientName := client_label cred;
                   clientInfo_id := _; clientInfo_dateAdded := _; tickets := [] |}).
  set (g1 := match get g (client_key cred) with Missing => _ | _ => g end).
  assert (client_key cred ∉ prototype_keys -> plain_names g1) as Hg1.
  { intros Hk. subst g1. destruct (get g (client_key cred)); try (split; assumption).
    split.
    - intros k Hin. rewrite own_set_ne by (intros ->; contradiction). apply Hclients, Hin.
    - intros k entry Hown tk Htk.
      destruct (decide (k = client_key cred)) as [->|Hne].
      + rewrite own_set_eq in Hown. injection Hown as <-. reflexivity.
      + rewrite own_set_ne in Hown by exact Hne. eapply Htickets; eauto. }
  destruct (decide (client_key cred ∈ prototype_keys)) as [Hk|Hk].
  { assert (g1 = g) as ->.
    { subst g1. rewrite (get_inherited g _ Hk (Hclients _ Hk)). reflexivity. }
    rewrite (get_inherited g _ Hk (Hclients _ Hk)). discriminate. }
  destruct (Hg1 Hk) as [Hclients1 Htickets1].
  destruct (get g1 (client_key cred)) as [entry| |] eqn:Hget; [|discriminate..].
  apply get_Own in Hget.
  pose proof (Htickets1 _ _ Hget) as Hentry.
  destruct (decide (ticket_key cred ∈ prototype_keys)) as [Htk|Htk].
  { rewrite (get_inherited _ _ Htk (Hentry _ Htk)). discriminate. }
  intros H.
  assert (exists t f,
            g' = set g1 (client_key cred)
                   {| clientName := clientName entry;
                      clientInfo_id := clientInfo_id entry;
                      clientInfo_dateAdded := clientInfo_dateAdded entry;
                      tickets := set (tickets entry) (ticket_key cred)
                                   {| credentials := credentials t ++ [f];
                                      metadata_dateCreated := metadata_dateCreated t |} |})
    as (t & f & ->).
  { destruct (get (tickets entry) (ticket_key cred)) as [t| |]; [| discriminate |].
    - destruct (format now cred) as [f|]; [|discriminate].
      injection H as <-. exists t, f. reflexivity.
    - destruct (format now cred) as [f|]; [|discriminate].
      injection H as <-.
      exists {| credentials := []; metadata_dateCreated := now |}, f. reflexivity. }
  split; [exact Hk|]. split; [exact Htk|]. split.
  - intros k Hin. rewrite own_set_ne by (intros ->; contradiction). apply Hclients1, Hin.
  - intros k e Hown tk Hin.
    destruct (decide (k = client_key cred)) as [->|Hne].
    + rewrite own_set_eq in Hown. injection Hown as <-. simpl.
      rewrite own_set_ne by (intros ->; contradiction). apply Hentry, Hin.
    + rewrite own_set_ne in Hown by exact Hne. eapply Htickets1; eauto.
Qed.

Lemma for_each_group_plain now : forall creds (g0 g : obj client),
  plain_names g0 ->
  for_each (group_step now) creds g0 = Normal g ->
  Forall (fun c => (client_key c ∉ prototype_keys) /\ (ticket_key c ∉ prototype_keys)) creds.
Proof.
  induction creds as [|cred creds IH]; intros g0 g Hplain H; simpl in H; [constructor|].
  destruct (group_step now g0 cred) as [g1|] eqn:Hstep; [|discriminate].
  simpl in H. apply group_step_plain in Hstep as (Hk & Htk & Hplain1); [|exact Hplain].
  constructor; [auto|]. eapply IH; eauto.
Qed.

(** X8.  [groupCredentialsByClient] throws a [TypeError] for every array
    that holds a credential whose client id or ticket id is the name of a
    property every object inherits from [Object.prototype] ("constructor",
    "toString", "valueOf", "hasOwnProperty", "__proto__" and the like): the
    test [!groupedData[clientId]] finds the inherited property and the entry
    of the client or of the ticket is never created. *)
Theorem groupCredentialsByClient_inherited_name :
  forall (now : jsstr) (creds : list credential),
    Exists (fun c => client_key c ∈ prototype_keys \/ ticket_key c ∈ prototype_keys) creds ->
    groupCredentialsByClient now (AnArray creds) = Throw TypeError.
Proof.
  intros now creds Hex.
  destruct (groupCredentialsByClient now (AnArray creds)) as [g|e] eqn:H.
  - exfalso.
    assert (for_each (group_step now) creds [] = Normal g) as Hloop.
    { destruct creds; [inversion Hex | exact H]. }
    apply for_each_group_plain in Hloop.
    + rewrite Forall_forall in Hloop. apply Exists_exists in Hex as (c & Hin & Hc).
      destruct (Hloop c Hin) as [Hk Htk]. tauto.
    + split; [reflexivity|]. intros k entry Hown. discriminate.
  - apply groupCredentialsByClient_throws in H as ->. reflexivity.
Qed.

Lemma groupCredentialsByClient_inherited_name_witness :
  client_key constructor_client = js "constructor"
  /\ groupCredentialsByClient clock (AnArray [acme_ftp; constructor_client]) = Throw TypeError.
Proof.
  split; [reflexivity|].
  apply (groupCredentialsByClient_inherited_name clock [acme_ftp; constructor_client]).
  apply Exists_cons_tl, Exists_cons_hd. left. vm_compute. left.
Defined.

(* ===================================================================== *)
(** ** Strings *)
(* ===================================================================== *)

Lemma starts_with_app needle rest : starts_with needle (needle ++ rest) = true.
Proof.
  induction needle as [|c needle IH]; simpl; [reflexivity|].
  rewrite N.eqb_refl. exact IH.
Qed.

Lemma starts_with_app_l a b : forall hay,
  starts_with (a ++ b) hay = true -> starts_with a hay = true.
Proof.
  induction a as [|c a IH]; intros hay H; simpl in *; [reflexivity|].
  destruct hay as [|h hay]; [discriminate|].
  apply andb_true_iff in H as [Hc H]. rewrite Hc. simpl. apply IH, H.
Qed.

Lemma includes_starts_with hay needle :
  starts_with needle hay = true -> includes hay needle = true.
Proof. intros H. destruct hay; simpl; rewrite H; reflexivity. Qed.

(** A string that holds [a ++ b] holds [a]. *)
Lemma includes_app_l a b : forall hay,
  includes hay (a ++ b) = true -> includes hay a = true.
Proof.
  induction hay as [|h hay IH]; intros H; simpl in *.
  - rewrite orb_false_r in *. apply (starts_with_app_l a b), H.
  - apply orb_true_iff in H as [H|H].
    + rewrite (starts_with_app_l a b _ H). reflexivity.
    + rewrite (IH H). apply orb_true_r.
Qed.

Lemma replace_first_prefix needle by_ rest :
  replace_first needle by_ (needle ++ rest) = by_ ++ rest.
Proof.
  destruct (needle ++ rest) as [|c s] eqn:Heq; simpl.
  - destruct needle; [|discriminate]. simpl in Heq. subst rest. reflexivity.
  - rewrite <- Heq, starts_with_app, skipn_app, Nat.sub_diag, skipn_all. reflexivity.
Qed.

Lemma replace_first_last c s : c ∉ s -> replace_first [c] [] (s ++ [c]) = s.
Proof.
  induction s as [|x s IH]; intros Hc; simpl.
  - rewrite N.eqb_refl. reflexivity.
  - apply not_elem_of_cons in Hc as [Hne Hc].
    replace (c =? x)%N with false by (symmetry; apply N.eqb_neq; exact Hne).
    simpl. rewrite (IH Hc). reflexivity.
Qed.

(* ===================================================================== *)
(** ** The formatters on their own *)
(* ===================================================================== *)

Lemma code_points_cons c s :
  is_high_surrogate c = false -> code_points (c :: s) = c :: code_points s.
Proof. intros H. destruct s; simpl; rewrite ?H; reflexivity. Qed.

(** X9.  A credential that has no server of its own and whose [system] is
    the label "FTP (host)", as the analysis service writes it, is sorted
    with the FTP accounts, and [formatFTPAccount] recovers the host from the
    label as its server, for every non-empty host without a closing
    parenthesis. *)
Theorem formatFTPAccount_server_of_label :
  forall (now : jsstr) (cred : credential) (host : jsstr),
    is_truthy (Credential.server cred) = false ->
    Credential.system cred = Val (js "FTP (" ++ host ++ js ")") ->
    host <> [] -> cu ")" ∉ host ->
    classify cred = KFtp
    /\ FTP.server (formatFTPAccount now cred) = Val host.
Proof.
  intros now cred host Hserver Hsystem Hne Hparen. split.
  - unfold classify. rewrite Hsystem. unfold lower_includes.
    replace (includes (toLowerCase (js "FTP (" ++ host ++ js ")")) (js "ftp")) with true.
    { rewrite orb_true_r. reflexivity. }
    symmetry. apply includes_starts_with.
    unfold toLowerCase.
    change (js "FTP (" ++ host ++ js ")")
      with (cu "F" :: cu "T" :: cu "P" :: cu " " :: cu "(" :: host ++ js ")").
    rewrite !code_points_cons by reflexivity.
    change (lower_points false (cu "F" :: cu "T" :: cu "P" :: ?rest))
      with (js "ftp" ++ lower_points true rest).
    apply starts_with_app.
  - unfold formatFTPAccount. simpl. rewrite Hsystem.
    rewrite replace_first_prefix. simpl.
    change (js ")") with [cu ")"]. rewrite (replace_first_last _ _ Hparen).
    unfold or_field at 2. rewrite Hserver.
    unfold or_field. simpl.
    destruct host; [congruence | reflexivity].
Qed.

Lemma formatFTPAccount_server_of_label_witness :
  classify labelled_ftp = KFtp
  /\ FTP.server (formatFTPAccount clock labelled_ftp) = Val (js "ftp.example.com").
Proof.
  apply (formatFTPAccount_server_of_label clock labelled_ftp (js "ftp.example.com")).
  - reflexivity.
  - reflexivity.
  - discriminate.
  - apply (bool_decide_unpack _). vm_compute. exact I.
Defined.

(** X10.  [detectCMS] answers "WordPress" exactly for the strings that
    hold, in any letter case, "wordpress" or "/wp-" (its third test, for
    "/wp-admin", never decides), whatever other system the string names;
    and it answers [null] exactly for the strings that hold none of the
    eight marks it looks for. *)
Theorem detectCMS_marks :
  forall s : jsstr,
    let holds (mark : string) := includes (toLowerCase s) (js mark) in
    (detectCMS s = Val (js "WordPress")
     <-> holds "wordpress"%string = true \/ holds "/wp-"%string = true)
    /\ (detectCMS s = Null
        <-> Forall (fun mark => holds mark = false)
              ["wordpress"; "/wp-"; "joomla"; "drupal"; "magento"; "prestashop";
               "woocommerce"; "shopify"]%string).
Proof.
  intros s holds.
  assert (holds "/wp-admin"%string = true -> holds "/wp-"%string = true) as Hadmin.
  { unfold holds. change (js "/wp-admin") with (js "/wp-" ++ js "admin").
    apply includes_app_l. }
  unfold detectCMS. fold (holds "wordpress"%string) (holds "/wp-"%string)
    (holds "/wp-admin"%string) (holds "joomla"%string) (holds "drupal"%string)
    (holds "magento"%string) (holds "prestashop"%string) (holds "woocommerce"%string)
    (holds "shopify"%string).
  destruct (holds "wordpress"%string) eqn:H1; simpl.
  { split; [tauto|]. split; [discriminate|]. intros H. inversion H. congruence. }
  destruct (holds "/wp-"%string) eqn:H2; simpl.
  { split; [tauto|]. split; [discriminate|].
    intros H. inversion H as [|? ? _ H']. inversion H'. congruence. }
  destruct (holds "/wp-admin"%string) eqn:H3; [specialize (Hadmin eq_refl); discriminate|].
  simpl.
  destruct (holds "joomla"%string) eqn:H4;
    [|destruct (holds "drupal"%string) eqn:H5;
      [|destruct (holds "magento"%string) eqn:H6;
        [|destruct (holds "prestashop"%string) eqn:H7;
          [|destruct (holds "woocommerce"%string) eqn:H8;
            [|destruct (holds "shopify"%string) eqn:H9]]]]];
    (split; [split; [intros [= Hd]; vm_compute in Hd; discriminate Hd
                    | intros [?|?]; discriminate]|]);
    (split; [try discriminate | ]);
    try (intros H; repeat (apply Forall_cons in H as [? H]); congruence).
  intros _. repeat (constructor; [assumption|]). constructor.
Qed.

(** Evaluates the tests [type === "name"] on literals. *)
Ltac literal_tests :=
  repeat match goal with
         | |- context [is_literal (Val (js ?a)) ?b] =>
             let v := eval vm_compute in (is_literal (Val (js a)) b) in
             change (is_literal (Val (js a)) b) with v
         end;
  cbv beta iota.

Ltac validate_in H :=
  unfold validateCredential in H; cbv beta iota zeta in H;
  revert H; literal_tests; intros H.

(** X11.  A credential that passes [validateCredential] for a type keeps
    the fields that identify it when the formatter of that type formats it:
    the server and user name of an FTP account, the URL and user name of a
    website, the domain of a domain, the user name of a generic credential,
    and for an e-mail account a non-empty address taken from [email] or else
    from [username].  Nothing that is not an object passes, and a type that
    is none of the five names is checked as "generic". *)
Theorem validateCredential_keeps_identity :
  forall (now : jsstr) (cred : credential),
    (validateCredential (Some cred) (Val (js "ftp")) = true ->
       FTP.server (formatFTPAccount now cred) = Credential.server cred
       /\ FTP.username (formatFTPAccount now cred) = Credential.username cred)
    /\ (validateCredential (Some cred) (Val (js "website")) = true ->
        forall site, formatWebsite now cred = Normal site ->
          Website.url site = Credential.url cred
          /\ Website.loginDetails_username site = Credential.username cred)
    /\ (validateCredential (Some cred) (Val (js "domain")) = true ->
        Domain.domain (formatDomain now cred) = Credential.domain cred)
    /\ (validateCredential (Some cred) (Val (js "email")) = true ->
        is_truthy (Email.email (formatEmailAccount now cred)) = true
        /\ (Email.email (formatEmailAccount now cred) = Credential.email cred
            \/ Email.email (formatEmailAccount now cred) = Credential.username cred))
    /\ (validateCredential (Some cred) Undefined = true ->
        Generic.username (formatGenericCredential now cred) = Credential.username cred)
    /\ (forall type, validateCredential None type = false)
    /\ (forall type,
          type ∉ [js "ftp"; js "website"; js "domain"; js "email"] ->
          validateCredential (Some cred) (Val type)
          = validateCredential (Some cred) Undefined).
Proof.
  intros now cred.
  assert (forall f : field jsstr, is_truthy f = true -> or_field f Null = f) as Hkeep.
  { intros f H. unfold or_field. rewrite H. reflexivity. }
  split; [|split; [|split; [|split; [|split; [|split]]]]].
  - intros H. validate_in H. apply andb_true_iff in H as [Hs Hu]. simpl.
    rewrite (Hkeep _ Hu). split; [|reflexivity].
    unfold or_field at 2. rewrite Hs. apply Hkeep, Hs.
  - intros H site Hsite. validate_in H. apply andb_true_iff in H as [Hurl Hu].
    unfold formatWebsite in Hsite. rewrite Hurl in Hsite.
    destruct (URL.hostname _); [|discriminate]. injection Hsite as <-. simpl.
    rewrite (Hkeep _ Hurl), (Hkeep _ Hu). auto.
  - intros H. validate_in H. simpl. unfold or_field at 2. rewrite H. apply Hkeep, H.
  - intros H. validate_in H.
    change (Email.email (formatEmailAccount now cred))
      with (or_field (or_field (Credential.email cred) (Credential.username cred)) Null).
    destruct (is_truthy (Credential.email cred)) eqn:He.
    + replace (or_field (Credential.email cred) (Credential.username cred))
        with (Credential.email cred) by (unfold or_field; rewrite He; reflexivity).
      rewrite (Hkeep _ He). auto.
    + simpl in H. apply andb_true_iff in H as [Hu _].
      replace (or_field (Credential.email cred) (Credential.username cred))
        with (Credential.username cred) by (unfold or_field; rewrite He; reflexivity).
      rewrite (Hkeep _ Hu). auto.
  - intros H. validate_in H. simpl. apply Hkeep, H.
  - reflexivity.
  - intros type Hnot. unfold validateCredential. cbv beta iota zeta.
    assert (forall name : string, js name ∈ [js "ftp"; js "website"; js "domain"; js "email"] ->
              is_literal (Val type) name = false) as Hno.
    { intros name Hin. unfold is_literal. apply jsstr_eqb_false. intros ->. contradiction. }
    rewrite !Hno by set_solver.
    literal_tests. reflexivity.
Qed.

(* ===================================================================== *)
(** ** The CSV sheets *)
(* ===================================================================== *)

(** A quoted cell can be told from what follows it, as long as that does
    not begin with a quote. *)
Lemma csv_cell_app_inj : forall a b t1 t2,
  head t1 <> Some 34%N -> head t2 <> Some 34%N ->
  csv_cell a ++ t1 = csv_cell b ++ t2 -> a = b /\ t1 = t2.
Proof.
  unfold csv_cell. intros a b t1 t2 Ht1 Ht2 H. simpl in H. injection H as H.
  rewrite <- !app_assoc in H. simpl in H. revert b H.
  induction a as [|x a IH]; intros [|y b] H; simpl in H.
  - injection H as <-. auto.
  - exfalso. destruct (y =? 34)%N eqn:Hy; simpl in H.
    + injection H as H. subst t1. apply Ht1. reflexivity.
    + injection H as H _. apply N.eqb_neq in Hy. congruence.
  - exfalso. destruct (x =? 34)%N eqn:Hx; simpl in H.
    + injection H as H. subst t2. apply Ht2. reflexivity.
    + injection H as H _. apply N.eqb_neq in Hx. congruence.
  - destruct (x =? 34)%N eqn:Hx; destruct (y =? 34)%N eqn:Hy; simpl in H.
    + apply N.eqb_eq in Hx, Hy. subst x y. injection H as H.
      apply IH in H as [-> ->]. auto.
    + exfalso. injection H as H _. apply N.eqb_neq in Hy. congruence.
    + exfalso. injection H as H _. apply N.eqb_neq in Hx. congruence.
    + injection H as -> H. apply IH in H as [-> ->]. auto.
Qed.

Lemma head_csv_cell cell t : head (csv_cell cell ++ t) = Some 34%N.
Proof. reflexivity. Qed.

(** A line of quoted cells can be told from what follows it, as long as
    that begins neither with a quote nor with a comma. *)
Lemma csv_line_app_inj : forall r1 r2 t1 t2,
  r1 <> [] -> r2 <> [] ->
  head t1 <> Some 34%N -> head t1 <> Some 44%N ->
  head t2 <> Some 34%N -> head t2 <> Some 44%N ->
  join (js ",") (csv_cell <$> r1) ++ t1 = join (js ",") (csv_cell <$> r2) ++ t2 ->
  r1 = r2 /\ t1 = t2.
Proof.
  change (js ",") with [44%N].
  induction r1 as [|a r1 IH]; intros r2 t1 t2 Hr1 Hr2 Hq1 Hc1 Hq2 Hc2 H; [congruence|].
  destruct r2 as [|b r2]; [congruence|].
  destruct r1 as [|a' r1]; destruct r2 as [|b' r2].
  - simpl in H. apply csv_cell_app_inj in H as [-> ->]; auto.
  - exfalso. change (csv_cell a ++ t1
                     = (csv_cell b ++ [44%N] ++ join [44%N] (csv_cell <$> b' :: r2)) ++ t2) in H.
    rewrite <- app_assoc in H.
    apply csv_cell_app_inj in H as [_ ->]; [|assumption|discriminate].
    apply Hc1. reflexivity.
  - exfalso. change ((csv_cell a ++ [44%N] ++ join [44%N] (csv_cell <$> a' :: r1)) ++ t1
                     = csv_cell b ++ t2) in H.
    rewrite <- app_assoc in H.
    apply csv_cell_app_inj in H as [_ <-]; [|discriminate|assumption].
    apply Hc2. reflexivity.
  - change ((csv_cell a ++ [44%N] ++ join [44%N] (csv_cell <$> a' :: r1)) ++ t1
            = (csv_cell b ++ [44%N] ++ join [44%N] (csv_cell <$> b' :: r2)) ++ t2) in H.
    rewrite <- !app_assoc in H.
    apply csv_cell_app_inj in H as [-> H]; [|discriminate..].
    apply (app_inv_head [44%N]) in H.
    apply IH in H as [H ->]; [|congruence|congruence|assumption..].
    rewrite H. auto.
Qed.

Lemma head_csv_line r t :
  r <> [] -> head (join (js ",") (csv_cell <$> r) ++ t) = Some 34%N.
Proof. destruct r as [|a [|b r]]; [congruence|reflexivity..]. Qed.

(** The lines of a sheet determine its rows. *)
Lemma csv_lines_inj : forall rows1 rows2,
  Forall (fun r => r <> []) rows1 -> Forall (fun r => r <> []) rows2 ->
  join [10%N] ((fun row => join (js ",") (csv_cell <$> row)) <$> rows1)
  = join [10%N] ((fun row => join (js ",") (csv_cell <$> row)) <$> rows2) ->
  rows1 = rows2.
Proof.
  set (line := fun row => join (js ",") (csv_cell <$> row)).
  pose (more := fun rows : list (list jsstr) =>
                  match rows with
                  | [] => []
                  | _ :: _ => 10%N :: join [10%N] (line <$> rows)
                  end).
  assert (forall r rows, join [10%N] (line <$> r :: rows) = line r ++ more rows) as Hjoin.
  { intros r [|r' rows]; simpl; [rewrite app_nil_r|]; reflexivity. }
  assert (forall rows, head (more rows) <> Some 34%N /\ head (more rows) <> Some 44%N)
    as Hhead.
  { intros [|r rows]; split; discriminate. }
  induction rows1 as [|r1 rows1 IH]; intros [|r2 rows2] H1 H2 H.
  - reflexivity.
  - exfalso. inversion H2 as [|? ? Hr2 _]; subst. rewrite Hjoin in H.
    pose proof (head_csv_line r2 (more rows2) Hr2) as Hh.
    fold (line r2) in Hh. rewrite <- H in Hh. discriminate.
  - exfalso. inversion H1 as [|? ? Hr1 _]; subst. rewrite Hjoin in H.
    pose proof (head_csv_line r1 (more rows1) Hr1) as Hh.
    fold (line r1) in Hh. rewrite H in Hh. discriminate.
  - inversion H1 as [|? ? Hr1 H1']; inversion H2 as [|? ? Hr2 H2']; subst.
    rewrite !Hjoin in H.
    apply csv_line_app_inj in H as [-> H]; try assumption; try apply Hhead.
    destruct rows1 as [|r1' rows1]; destruct rows2 as [|r2' rows2]; try discriminate.
    + reflexivity.
    + injection H as H. f_equal. apply IH; assumption.
Qed.

Lemma csvContent_inj headers rows1 rows2 :
  Forall (fun r => r <> []) rows1 -> Forall (fun r => r <> []) rows2 ->
  csvContent headers rows1 = csvContent headers rows2 -> rows1 = rows2.
Proof.
  intros H1 H2. unfold csvContent.
  set (line := fun row => join (js ",") (map csv_cell row)).
  set (header := join (js ",") (map js headers)).
  assert (forall rows, join [10%N] (header :: map line rows)
                       = header ++ match rows with
                                   | [] => []
                                   | _ :: _ => 10%N :: join [10%N] (map line rows)
                                   end) as Hjoin.
  { intros [|r rows]; simpl; [rewrite app_nil_r|]; reflexivity. }
  rewrite !Hjoin. intros H. apply app_inv_head in H.
  destruct rows1 as [|r1 rows1]; destruct rows2 as [|r2 rows2]; try discriminate.
  - reflexivity.
  - injection H as H. apply csv_lines_inj; assumption.
Qed.

Lemma join_not_empty sep first rest : first <> [] -> join sep (first :: rest) <> [].
Proof.
  intros Hne. destruct rest as [|second rest]; simpl; [exact Hne|].
  destruct first; [congruence | discriminate].
Qed.

(** A sheet is empty exactly when it is given no credential, and two
    sheets of one type are equal only if their rows are. *)
Lemma sheet_inj {A} headers (row : A -> list jsstr) (creds1 creds2 : list A) :
  join (js ",") (map js headers) <> [] ->
  (forall cred, row cred <> []) ->
  match creds1 with [] => [] | _ :: _ => csvContent headers (map row creds1) end
  = match creds2 with [] => [] | _ :: _ => csvContent headers (map row creds2) end ->
  row <$> creds1 = row <$> creds2.
Proof.
  intros Hheader Hrow H.
  assert (forall creds : list A, Forall (fun r => r <> []) (map row creds)) as Hrows.
  { intros creds. apply Forall_map, Forall_forall. intros cred _. apply Hrow. }
  assert (forall creds, csvContent headers (map row creds) <> []) as Hne.
  { intros creds. apply join_not_empty, Hheader. }
  destruct creds1 as [|c1 creds1]; destruct creds2 as [|c2 creds2].
  - reflexivity.
  - exfalso. eapply Hne. symmetry. exact H.
  - exfalso. eapply Hne. exact H.
  - apply (csvContent_inj headers); [apply Hrows..|exact H].
Qed.

(** X12.  The text of a CSV sheet determines the table it was written
    from: two arrays of formatted records of one type give the same sheet
    only if they give the same rows of cell texts, whatever quotes, commas
    or line breaks the cells hold; in particular a sheet is empty only for
    an empty array. *)
Theorem createCsvForCredentialType_unambiguous :
  (forall creds1 creds2 : list FTP.t,
     createCsvForCredentialType (OfFtp creds1) = createCsvForCredentialType (OfFtp creds2) ->
     ftp_row <$> creds1 = ftp_row <$> creds2)
  /\ (forall creds1 creds2 : list Website.t,
        createCsvForCredentialType (OfWebsite creds1)
        = createCsvForCredentialType (OfWebsite creds2) ->
        website_row <$> creds1 = website_row <$> creds2)
  /\ (forall creds1 creds2 : list Domain.t,
        createCsvForCredentialType (OfDomain creds1)
        = createCsvForCredentialType (OfDomain creds2) ->
        domain_row <$> creds1 = domain_row <$> creds2)
  /\ (forall creds1 creds2 : list Email.t,
        createCsvForCredentialType (OfEmail creds1)
        = createCsvForCredentialType (OfEmail creds2) ->
        email_row <$> creds1 = email_row <$> creds2)
  /\ (forall creds1 creds2 : list Generic.t,
        createCsvForCredentialType (OfGeneric creds1)
        = createCsvForCredentialType (OfGeneric creds2) ->
        generic_row <$> creds1 = generic_row <$> creds2).
Proof.
  repeat split; intros creds1 creds2 H;
    (eapply sheet_inj; [| |exact H]; [vm_compute; discriminate | intros cred; discriminate]).
Qed.

(* ===================================================================== *)
(** ** The three shapes of the JSON export *)
(* ===================================================================== *)

(** The loop of the flat branch of [createJsonFile]. *)
Lemma for_each_format_spec now : forall creds done0 done,
  for_each (fun done cred => r ← format now cred; Normal (done ++ [r])) creds done0
  = Normal done
  <-> exists fs, Forall2 (fun cred f => format now cred = Normal f) creds fs
                 /\ done = done0 ++ fs.
Proof.
  induction creds as [|cred creds IH]; intros done0 done; simpl.
  - split.
    + intros [= <-]. exists []. split; [constructor | rewrite app_nil_r; reflexivity].
    + intros (fs & Hfs & ->). inversion Hfs. rewrite app_nil_r. reflexivity.
  - destruct (format now cred) as [f|e] eqn:Hf; simpl.
    + rewrite IH. split.
      * intros (fs & Hfs & ->). exists (f :: fs).
        split; [constructor; assumption | rewrite <- app_assoc; reflexivity].
      * intros (fs & Hfs & ->). inversion Hfs as [|? f' ? fs' Hf' Hfs']; subst.
        rewrite Hf in Hf'. injection Hf' as <-.
        exists fs'. split; [assumption | rewrite <- app_assoc; reflexivity].
    + split; [discriminate|].
      intros (fs & Hfs & _). inversion Hfs; subst. congruence.
Qed.

Lemma bucket_records_step now r0 cred r1 :
  categorize_step now r0 cred = Normal r1 ->
  exists f, format now cred = Normal f /\ bucket_records r1 ≡ₚ bucket_records r0 ++ [f].
Proof.
  unfold categorize_step, format, bucket_records.
  destruct r0 as [ftp web dom mail other]. destruct (classify cred);
    try (intros [= <-]; eexists; split; [reflexivity|]; cbn -[fmap];
         rewrite fmap_app; cbn; solve_Permutation).
  destruct (formatWebsite now cred) as [site|]; [|discriminate].
  intros [= <-]. eexists. split; [reflexivity|]. cbn -[fmap].
  rewrite fmap_app. cbn. solve_Permutation.
Qed.

Lemma for_each_categorize_records now : forall creds r0 r,
  for_each (categorize_step now) creds r0 = Normal r ->
  exists fs, Forall2 (fun cred f => format now cred = Normal f) creds fs
             /\ bucket_records r ≡ₚ bucket_records r0 ++ fs.
Proof.
  induction creds as [|cred creds IH]; intros r0 r H; simpl in H.
  - injection H as <-. exists []. split; [constructor | rewrite app_nil_r; reflexivity].
  - destruct (categorize_step now r0 cred) as [r1|] eqn:Hs; [|discriminate].
    simpl in H. apply bucket_records_step in Hs as (f & Hf & Hp).
    apply IH in H as (fs & Hfs & Hperm).
    exists (f :: fs). split; [constructor; assumption|].
    rewrite Hperm, Hp, <- app_assoc. reflexivity.
Qed.

Lemma for_each_categorize_returns now : forall creds fs r0,
  Forall2 (fun cred f => format now cred = Normal f) creds fs ->
  exists r, for_each (categorize_step now) creds r0 = Normal r.
Proof.
  induction creds as [|cred creds IH]; intros fs r0 Hfs; simpl; [eauto|].
  inversion Hfs as [|? f ? fs' Hf Hfs']; subst.
  destruct (categorize_step_cases now r0 cred) as [(_ & Hk & Hw) | (r1 & Hs & _)].
  - unfold format in Hf. rewrite Hk, Hw in Hf. discriminate.
  - rewrite Hs. simpl. eapply IH, Hfs'.
Qed.

Lemma Forall2_format_functional now creds fs fs' :
  Forall2 (fun cred f => format now cred = Normal f) creds fs ->
  Forall2 (fun cred f => format now cred = Normal f) creds fs' ->
  fs = fs'.
Proof.
  intros H. revert fs'. induction H as [|cred f creds fs Hf _ IH]; intros fs' H'.
  - inversion H'. reflexivity.
  - inversion H' as [|? f' ? fs'' Hf' Hfs']; subst.
    rewrite Hf in Hf'. injection Hf' as <-. f_equal. apply IH, Hfs'.
Qed.

Lemma flat_cred_zip_with {C : Type} (mk : formatted -> C -> flatCredential) :
  (forall f c, flat_cred (mk f c) = f) ->
  forall (fs : list formatted) (cs : list C),
    length fs = length cs -> flat_cred <$> zip_with mk fs cs = fs.
Proof.
  intros Hmk. induction fs as [|f fs IH]; intros [|c cs] Hlen; simpl in *;
    try reflexivity; try discriminate.
  rewrite Hmk. f_equal. apply IH. lia.
Qed.

Lemma createJsonFile_flat now cred creds :
  createJsonFile now (AnArray (cred :: creds)) false false
  = FlatData <$> for_each (fun done c => r ← format now c; Normal (done ++ [r]))
                   (cred :: creds) [].
Proof. reflexivity. Qed.

Lemma createJsonFile_categorized now cred creds grouped :
  createJsonFile now (AnArray (cred :: creds)) grouped true
  = CategorizedData <$> for_each (categorize_step now) (cred :: creds) Categorized.empty.
Proof. reflexivity. Qed.

Lemma createJsonFile_grouped now cred creds :
  createJsonFile now (AnArray (cred :: creds)) true false
  = GroupedData <$> for_each (group_step now) (cred :: creds) [].
Proof. reflexivity. Qed.

(** X13.  The three shapes [createJsonFile] can export hold the same
    records.  For a non-empty array: the flat shape, when it is built, is
    the array of the formatted credentials in the order of the input; the
    categorised shape is built exactly when the flat one is, and its five
    buckets together hold the records of the flat shape; and whenever the
    grouped shape is built, so is the flat one, and flattening the groups
    gives back its records (in each case up to the order). *)
Theorem createJsonFile_shapes_agree :
  forall (now : jsstr) (cred : credential) (creds : list credential),
    let credentials := AnArray (cred :: creds) in
    (forall fs,
       createJsonFile now credentials false false = Normal (FlatData fs) ->
       Forall2 (fun c f => format now c = Normal f) (cred :: creds) fs
       /\ forall grouped,
            exists r, createJsonFile now credentials grouped true = Normal (CategorizedData r))
    /\ (forall grouped r,
          createJsonFile now credentials grouped true = Normal (CategorizedData r) ->
          exists fs, createJsonFile now credentials false false = Normal (FlatData fs)
                     /\ bucket_records r ≡ₚ fs)
    /\ (forall g,
          createJsonFile now credentials true false = Normal (GroupedData g) ->
          exists fs, createJsonFile now credentials false false = Normal (FlatData fs)
                     /\ flat_cred <$> flattenGroupedCredentials g ≡ₚ fs).
Proof.
  intros now cred creds credentials. subst credentials.
  assert (forall fs, Forall2 (fun c f => format now c = Normal f) (cred :: creds) fs ->
            createJsonFile now (AnArray (cred :: creds)) false false = Normal (FlatData fs))
    as Hflat.
  { intros fs Hfs. rewrite createJsonFile_flat.
    replace (for_each _ (cred :: creds) []) with (Normal (A:=list formatted) fs);
      [reflexivity|].
    symmetry. apply for_each_format_spec. exists fs. auto. }
  split; [|split].
  - intros fs H. rewrite createJsonFile_flat in H.
    destruct (for_each _ (cred :: creds) []) as [done|] eqn:Hloop; [|discriminate].
    injection H as ->.
    apply for_each_format_spec in Hloop as (fs' & Hfs & ->).
    rewrite app_nil_l.
    split; [exact Hfs|]. intros grouped.
    destruct (for_each_categorize_returns now _ _ Categorized.empty Hfs) as [r Hr].
    exists r. rewrite createJsonFile_categorized, Hr. reflexivity.
  - intros grouped r H. rewrite createJsonFile_categorized in H.
    destruct (for_each (categorize_step now) (cred :: creds) Categorized.empty)
      as [r'|] eqn:Hloop; [|discriminate].
    injection H as ->.
    apply for_each_categorize_records in Hloop as (fs & Hfs & Hperm).
    exists fs. split; [apply Hflat, Hfs | exact Hperm].
  - intros g H. rewrite createJsonFile_grouped in H.
    destruct (for_each (group_step now) (cred :: creds) []) as [g'|] eqn:Hloop;
      [|discriminate].
    injection H as ->.
    apply for_each_group_spec in Hloop as (fs & Hfs & Hperm & _).
    exists fs. split; [apply Hflat, Hfs|].
    rewrite flatten_as_created, Hperm. simpl.
    rewrite flat_cred_zip_with; [reflexivity | reflexivity |].
    symmetry. eapply Forall2_length, Hfs.
Qed.

(* ===================================================================== *)
(** ** The sheets of the CSV export *)
(* ===================================================================== *)

Lemma filter_nil_iff {A} (P : A -> Prop) `{forall x, Decision (P x)} (l : list A) :
  filter P l = [] <-> Forall (fun x => ~ P x) l.
Proof.
  induction l as [|x l IH]; [split; [constructor | reflexivity]|].
  rewrite filter_cons. destruct (decide (P x)) as [Hx|Hx].
  - split; [discriminate|]. intros Hall. inversion Hall. contradiction.
  - rewrite IH. split; [constructor; assumption|]. intros Hall. inversion Hall. assumption.
Qed.

Lemma sheet_empty_iff {A} headers (row : A -> list jsstr) (l : list A) :
  join (js ",") (map js headers) <> [] ->
  match l with [] => [] | _ :: _ => csvContent headers (map row l) end = [] <-> l = [].
Proof.
  intros Hheader. destruct l as [|x l]; [tauto|].
  split; [|discriminate]. intros Hnil. exfalso. revert Hnil.
  apply join_not_empty, Hheader.
Qed.

Lemma sheet_header {A} headers (row : A -> list jsstr) (l : list A) :
  match l with [] => [] | _ :: _ => csvContent headers (map row l) end <> [] ->
  starts_with (join (js ",") (map js headers))
    match l with [] => [] | _ :: _ => csvContent headers (map row l) end = true.
Proof.
  destruct l as [|x l]; [congruence|]. intros _. unfold csvContent.
  destruct (map _ (x :: l)) as [|line lines] eqn:Hl; [discriminate|].
  cbn [join]. apply starts_with_app.
Qed.

Lemma fmap_nil_iff {A B} (f : A -> B) (l : list A) : f <$> l = [] <-> l = [].
Proof. destruct l; split; (reflexivity || discriminate). Qed.

(** X14.  In the object [exportCredentialsToCSV] returns for an array,
    each of the five sheets is empty exactly when the array holds no
    credential of its kind, and a sheet that is not empty begins with its
    line of column names. *)
Theorem exportCredentialsToCSV_sheets :
  forall (now : jsstr) (creds : list credential) (sheets : csvExport),
    exportCredentialsToCSV now (AnArray creds) = Normal sheets ->
    (ftpCsv sheets = [] <-> Forall (fun c => classify c <> KFtp) creds)
    /\ (websitesCsv sheets = [] <-> Forall (fun c => classify c <> KWebsite) creds)
    /\ (domainsCsv sheets = [] <-> Forall (fun c => classify c <> KDomain) creds)
    /\ (emailCsv sheets = [] <-> Forall (fun c => classify c <> KEmail) creds)
    /\ (genericCsv sheets = [] <-> Forall (fun c => classify c <> KGeneric) creds)
    /\ (ftpCsv sheets <> [] ->
        starts_with (js "Server,Username,Password,Port,Encryption") (ftpCsv sheets) = true)
    /\ (websitesCsv sheets <> [] ->
        starts_with (js "URL,Hostname,Username,Password,CMS") (websitesCsv sheets) = true)
    /\ (domainsCsv sheets <> [] ->
        starts_with (js "Domain,Nameservers") (domainsCsv sheets) = true)
    /\ (emailCsv sheets <> [] ->
        starts_with (js "Email,Password,Server,IMAP Port,SMTP Port,POP3 Port")
          (emailCsv sheets) = true)
    /\ (genericCsv sheets <> [] ->
        starts_with (js "Username,Password,System") (genericCsv sheets) = true).
Proof.
  intros now creds sheets H.
  destruct creds as [|cred creds]; [discriminate|].
  unfold exportCredentialsToCSV in H.
  destruct (categorizeMigrationData now (AnArray (cred :: creds))) as [r|] eqn:Hr;
    [|discriminate].
  injection H as <-.
  apply categorizeMigrationData_buckets_of in Hr as (Hf & Hw & Hd & He & Ho).
  cbn [ftpCsv websitesCsv domainsCsv emailCsv genericCsv createCsvForCredentialType].
  split; [|split; [|split; [|split; [|split]]]].
  - rewrite sheet_empty_iff by (vm_compute; discriminate).
    rewrite Hf, fmap_nil_iff. apply filter_nil_iff.
  - rewrite sheet_empty_iff by (vm_compute; discriminate).
    rewrite <- filter_nil_iff. split.
    + intros Hnil. rewrite Hnil in Hw. apply Forall2_nil_inv_r in Hw. exact Hw.
    + intros Hnil. rewrite Hnil in Hw. apply Forall2_nil_inv_l in Hw. exact Hw.
  - rewrite sheet_empty_iff by (vm_compute; discriminate).
    rewrite Hd, fmap_nil_iff. apply filter_nil_iff.
  - rewrite sheet_empty_iff by (vm_compute; discriminate).
    rewrite He, fmap_nil_iff. apply filter_nil_iff.
  - rewrite sheet_empty_iff by (vm_compute; discriminate).
    rewrite Ho, fmap_nil_iff. apply filter_nil_iff.
  - repeat apply conj; apply sheet_header.
Qed.

Lemma exportCredentialsToCSV_sheets_witness :
  exists sheets,
    exportCredentialsToCSV clock (AnArray [ftp_first; acme_domain]) = Normal sheets
    /\ ftpCsv sheets <> [] /\ domainsCsv sheets <> []
    /\ (emailCsv sheets = [] <-> Forall (fun c => classify c <> KEmail) [ftp_first; acme_domain]).
Proof.
  eexists. split; [vm_compute; reflexivity|].
  split; [discriminate|]. split; [discriminate|].
  apply (exportCredentialsToCSV_sheets clock [ftp_first; acme_domain]).
  vm_compute. reflexivity.
Defined.

(* ===================================================================== *)
(** ** The extractors of the analysis service return *)
(* ===================================================================== *)

(** The successive matches of a pattern with the [g] flag that cannot match
    the empty string are finitely many. *)
Lemma all_matches_terminates re text fuel :
  global re = true -> 0 < min_len (source re) ->
  length text + 2 <= fuel ->
  is_Some (all_matches fuel re text).
Proof.
  intros Hg Hmin Hfuel. unfold all_matches.
  destruct (while_exec_terminates record_match text (fun _ _ _ => eq_refl)
              fuel re [] Hg Hmin) as [r Hr]; [lia|].
  rewrite Hr. simpl. eauto.
Qed.

(** A loop whose body folds the matches returns the fold over them. *)
Lemma while_exec_fold_matches {A} (body : Match -> RegExp -> A -> RegExp * A) f text
    fuel re acc ms :
  folds body f ->
  all_matches fuel re text = Some ms ->
  snd <$> while_exec fuel body re text acc = Some (foldl f acc ms).
Proof.
  intros Hbody Hms. rewrite (while_exec_folds body f text Hbody), Hms. reflexivity.
Qed.

Lemma foldl_push {A B} (p : B -> bool) (g : B -> A) : forall ms acc,
  foldl (fun acc m => if p m then acc ++ [g m] else acc) acc ms
  = acc ++ (g <$> filter (fun m => p m = true) ms).
Proof.
  induction ms as [|m ms IH]; intros acc; simpl; [rewrite app_nil_r; reflexivity|].
  rewrite IH, filter_cons. destruct (p m) eqn:Hp.
  - rewrite decide_True by reflexivity. rewrite fmap_cons, <- app_assoc. reflexivity.
  - rewrite decide_False by discriminate. reflexivity.
Qed.

Lemma foldl_push_all {A B} (g : B -> A) : forall ms acc,
  foldl (fun acc m => acc ++ [g m]) acc ms = acc ++ (g <$> ms).
Proof.
  induction ms as [|m ms IH]; intros acc; simpl; [rewrite app_nil_r; reflexivity|].
  rewrite IH, <- app_assoc. reflexivity.
Qed.

Lemma fmap_snd_Some {A} (m : option (RegExp * A)) (a : A) :
  snd <$> m = Some a -> exists re, m = Some (re, a).
Proof. destruct m as [[re a']|]; simpl; [intros [= ->]; eauto | discriminate]. Qed.

Lemma while_exec_steady_returns {A} (body : Match -> RegExp -> A -> RegExp * A) text
    fuel re acc :
  (forall m re acc, (body m re acc).1 = re) ->
  steady re -> length text + 2 <= fuel ->
  exists r, while_exec fuel body re text acc = Some r.
Proof.
  intros Hbody (Hg & Hmin & Hli) Hfuel.
  apply (while_exec_terminates body text Hbody fuel re acc Hg Hmin). lia.
Qed.

Lemma push_ipAddress_regexp text m re acc : (Service.push_ipAddress text m re acc).1 = re.
Proof.
  unfold Service.push_ipAddress. destruct (Service.near_server_mention text m); reflexivity.
Qed.

Lemma Service_extractFtpAccounts_terminates text fuel :
  length text + 2 <= fuel -> is_Some (Service.extractFtpAccounts fuel text).
Proof.
  intros Hfuel. unfold Service.extractFtpAccounts.
  destruct (while_exec_steady_returns Service.push_ftpServer text fuel
              Service.ftpServerRegex []) as [r1 H1];
    [reflexivity | repeat split; vm_compute; lia | exact Hfuel |].
  rewrite H1. cbn [mbind option_bind].
  destruct (while_exec_steady_returns Service.push_ftpServer text fuel
              Service.ftpServerRegex2 r1.2) as [r2 H2];
    [reflexivity | repeat split; vm_compute; lia | exact Hfuel |].
  rewrite H2. cbn [mbind option_bind].
  destruct (while_exec_steady_returns (Service.push_ipAddress text) text fuel
              Service.ipAddressRegex r2.2) as [r3 H3];
    [apply push_ipAddress_regexp | repeat split; vm_compute; lia | exact Hfuel |].
  rewrite H3. simpl. eauto.
Qed.

(** The loops of [extractFtpAccounts] in closed form. *)
Lemma Service_extractFtpAccounts_closed_form :
  forall text : jsstr,
    exists ms1 ms2 ms3,
      all_matches (length text + 2) Service.ftpServerRegex text = Some ms1
      /\ all_matches (length text + 2) Service.ftpServerRegex2 text = Some ms2
      /\ all_matches (length text + 2) Service.ipAddressRegex text = Some ms3
      /\ Service.extractFtpAccounts (length text + 2) text
         = Some (omap (Service.account_near text)
                   (Service.anchor_of
                    <$> ms1 ++ ms2
                        ++ filter (fun m => Service.near_server_mention text m = true) ms3)).
Proof.
  intros text.
  destruct (all_matches_terminates Service.ftpServerRegex text (length text + 2))
    as [ms1 H1]; [reflexivity | vm_compute; lia | lia |].
  destruct (all_matches_terminates Service.ftpServerRegex2 text (length text + 2))
    as [ms2 H2]; [reflexivity | vm_compute; lia | lia |].
  destruct (all_matches_terminates Service.ipAddressRegex text (length text + 2))
    as [ms3 H3]; [reflexivity | vm_compute; lia | lia |].
  exists ms1, ms2, ms3. split; [exact H1|]. split; [exact H2|]. split; [exact H3|].
  unfold Service.extractFtpAccounts.
  assert (folds Service.push_ftpServer (fun acc m => acc ++ [Service.anchor_of m])) as Hf
    by (intros m re acc; reflexivity).
  assert (folds (Service.push_ipAddress text)
            (fun acc m => if Service.near_server_mention text m
                          then acc ++ [Service.anchor_of m] else acc)) as Hip.
  { intros m re acc. unfold Service.push_ipAddress.
    destruct (Service.near_server_mention text m); reflexivity. }
  pose proof (while_exec_fold_matches _ _ text _ _ [] ms1 Hf H1) as E1.
  apply fmap_snd_Some in E1 as [re1 E1].
  rewrite E1. cbn [mbind option_bind snd].
  pose proof (while_exec_fold_matches _ _ text _ _
                (foldl (fun acc m => acc ++ [Service.anchor_of m]) [] ms1) ms2 Hf H2) as E2.
  apply fmap_snd_Some in E2 as [re2 E2].
  rewrite E2. cbn [mbind option_bind snd].
  pose proof (while_exec_fold_matches _ _ text _ _
                (foldl (fun acc m => acc ++ [Service.anchor_of m])
                   (foldl (fun acc m => acc ++ [Service.anchor_of m]) [] ms1) ms2)
                ms3 Hip H3) as E3.
  apply fmap_snd_Some in E3 as [re3 E3].
  rewrite E3. cbn [mbind option_bind snd].
  rewrite foldl_push, !foldl_push_all, !fmap_app, app_nil_l, <- app_assoc. reflexivity.
Qed.

Lemma omap_fmap {A B C} (f : A -> B) (g : B -> option C) (l : list A) :
  omap g (f <$> l) = omap (fun a => g (f a)) l.
Proof.
  induction l as [|a l IH]; [reflexivity|].
  rewrite fmap_cons. cbn [omap list_omap]. rewrite <- IH. reflexivity.
Qed.

(** X15.  [extractFtpAccounts], the extractor of the analysis service,
    returns for every text.  Its accounts are, in this order, those found
    around the servers that follow "serwer FTP:" or "adres FTP:", around
    those that follow "FTP:", and around the IP addresses with "ftp",
    "serwer" or "server" within 50 characters.  An account is made only
    where a user name is found within 300 characters of the server, and it
    holds that server, that user name and the password found in the same
    window, or the empty string when none is found. *)
Theorem Service_extractFtpAccounts_returns :
  forall text : jsstr,
    exists ms1 ms2 ms3,
      all_matches (length text + 2) Service.ftpServerRegex text = Some ms1
      /\ all_matches (length text + 2) Service.ftpServerRegex2 text = Some ms2
      /\ all_matches (length text + 2) Service.ipAddressRegex text = Some ms3
      /\ let around (m : Match) (reach : nat) :=
           substring text (index m - reach) (Nat.min (length text) (index m + reach)) in
         let mentions (m : Match) (word : jsstr) :=
           includes (toLowerCase (around m 50)) word in
         let account (m : Match) :=
           match exec1 Service.nearbyLoginRegex (around m 300) with
           | Some loginMatch =>
               Some {| Service.account_server := group_text m 1;
                       Service.account_username := group_text loginMatch 1;
                       Service.account_password :=
                         match exec1 Service.nearbyPasswordRegex (around m 300) with
                         | Some passwordMatch => group_text passwordMatch 1
                         | None => []
                         end |}
           | None => None
           end in
         Service.extractFtpAccounts (length text + 2) text
         = Some (omap account
                   (ms1 ++ ms2
                    ++ filter (fun m => mentions m (js "ftp") || mentions m (js "serwer")
                                        || mentions m (js "server") = true) ms3)).
Proof.
  intros text.
  destruct (Service_extractFtpAccounts_closed_form text) as (ms1 & ms2 & ms3 & H1 & H2 & H3 & H).
  exists ms1, ms2, ms3. split; [exact H1|]. split; [exact H2|]. split; [exact H3|].
  cbv zeta. rewrite H, omap_fmap. reflexivity.
Qed.

Lemma folds_leaves_regexp {A} (body : Match -> RegExp -> A -> RegExp * A) f :
  folds body f -> forall m re acc, (body m re acc).1 = re.
Proof. intros H m re acc. rewrite H. reflexivity. Qed.

(** *** [extractWebsites] *)

Lemma push_website_folds :
  folds Service.push_website
    (fun acc m => (Service.push_website m Service.websiteRegex acc).2).
Proof.
  intros m re acc. unfold Service.push_website.
  destruct (exec1 Service.urlRegex (matched m)); reflexivity.
Qed.

Lemma push_bareUrl_folds :
  folds Service.push_bareUrl
    (fun acc m => (Service.push_bareUrl m Service.bareUrlRegex acc).2).
Proof.
  intros m re acc. unfold Service.push_bareUrl. destruct (negb _); reflexivity.
Qed.

(** A loop that pushes the element made from a match unless an element
    with the same key is in the array already: it adds elements with new
    keys only, each key once, and leaves out no match it can make an
    element from. *)
Lemma foldl_push_fresh {A} (key : A -> jsstr) (k : Match -> jsstr) (mk : Match -> option A)
    (f : list A -> Match -> list A) :
  (forall m a, mk m = Some a -> key a = k m) ->
  (forall acc m,
     f acc m = if existsb (fun a => jsstr_eqb (key a) (k m)) acc then acc
               else match mk m with Some a => acc ++ [a] | None => acc end) ->
  forall ms acc,
    exists added,
      foldl f acc ms = acc ++ added
      /\ NoDup (key <$> added)
      /\ (forall a, a ∈ added ->
            (key a ∉ (key <$> acc)) /\ exists m, m ∈ ms /\ mk m = Some a)
      /\ (forall m, m ∈ ms -> is_Some (mk m) -> k m ∈ (key <$> acc ++ added)).
Proof.
  intros Hkey Hf. induction ms as [|m ms IH]; intros acc.
  - exists []. simpl. rewrite app_nil_r. split; [reflexivity|]. split; [constructor|].
    split; intros ? H; inversion H.
  - simpl. rewrite Hf.
    assert (forall a, existsb (fun a' => jsstr_eqb (key a') (k m)) acc = false ->
              a ∈ acc -> key a <> k m) as Hfresh.
    { intros a Hex Hin Heq.
      assert (existsb (fun a' => jsstr_eqb (key a') (k m)) acc = true) as Ht.
      { apply existsb_exists. exists a. split; [apply list_elem_of_In, Hin|].
        apply jsstr_eqb_true, Heq. }
      congruence. }
    destruct (existsb _ acc) eqn:Hex.
    + destruct (IH acc) as (added & Heq & Hnd & Hfrom & Hcov).
      exists added. split; [exact Heq|]. split; [exact Hnd|]. split.
      * intros a Ha. destruct (Hfrom a Ha) as (Hnew & m' & Hm' & Hmk).
        split; [exact Hnew|]. exists m'. split; [right; exact Hm' | exact Hmk].
      * intros m' Hm' Hsome. apply elem_of_cons in Hm' as [-> | Hm']; [|apply Hcov; auto].
        apply existsb_exists in Hex as (a & Hin & Heqb).
        apply jsstr_eqb_true in Heqb. rewrite fmap_app. apply elem_of_app. left.
        apply list_elem_of_fmap. exists a. split; [auto | apply list_elem_of_In, Hin].
    + destruct (mk m) as [a|] eqn:Hmk.
      * destruct (IH (acc ++ [a])) as (added & Heq & Hnd & Hfrom & Hcov).
        exists (a :: added). split; [rewrite Heq, <- app_assoc; reflexivity|].
        split; [|split].
        -- rewrite fmap_cons. constructor; [|exact Hnd].
           intros Hin. apply list_elem_of_fmap in Hin as (a' & Ha' & Hin).
           destruct (Hfrom a' Hin) as (Hnew & _). apply Hnew.
           rewrite fmap_app. apply elem_of_app. right. simpl. rewrite <- Ha'. left.
        -- intros a' Ha'. apply elem_of_cons in Ha' as [-> | Ha'].
           ++ split; [|exists m; split; [left | exact Hmk]].
              intros Hin. apply list_elem_of_fmap in Hin as (a' & Ha' & Hin).
              apply (Hfresh a' eq_refl Hin). rewrite <- Ha'. apply Hkey, Hmk.
           ++ destruct (Hfrom a' Ha') as (Hnew & m' & Hm' & Hmk'). split.
              ** intros Hin. apply Hnew. rewrite fmap_app. apply elem_of_app. auto.
              ** exists m'. split; [right; exact Hm' | exact Hmk'].
        -- intros m' Hm' Hsome. rewrite <- app_assoc in Hcov. simpl in Hcov.
           apply elem_of_cons in Hm' as [-> | Hm']; [|apply Hcov; auto].
           rewrite fmap_app. apply elem_of_app. right. rewrite fmap_cons.
           rewrite (Hkey _ _ Hmk). left.
      * destruct (IH acc) as (added & Heq & Hnd & Hfrom & Hcov).
        exists added. split; [exact Heq|]. split; [exact Hnd|]. split.
        -- intros a Ha. destruct (Hfrom a Ha) as (Hnew & m' & Hm' & Hmk').
           split; [exact Hnew|]. exists m'. split; [right; exact Hm' | exact Hmk'].
        -- intros m' Hm' Hsome. apply elem_of_cons in Hm' as [-> | Hm']; [|apply Hcov; auto].
           rewrite Hmk in Hsome. destruct Hsome as [? Hsome]. discriminate.
Qed.

(** The loop over bare URLs, from the sites [named] so far. *)
Lemma foldl_push_bareUrl : forall ms named,
  exists bare,
    foldl (fun acc m => (Service.push_bareUrl m Service.bareUrlRegex acc).2) named ms
    = named ++ bare
    /\ NoDup (Service.website_url <$> bare)
    /\ (forall site, site ∈ bare ->
          (Service.website_url site ∉ (Service.website_url <$> named))
          /\ exists m, m ∈ ms
                       /\ site = {| Service.website_url := group_text m 1;
                                    Service.website_index := index m |})
    /\ (forall m, m ∈ ms ->
          group_text m 1 ∈ (Service.website_url <$> named ++ bare)).
Proof.
  intros ms named.
  destruct (foldl_push_fresh Service.website_url (fun m => group_text m 1)
              (fun m => Some {| Service.website_url := group_text m 1;
                                Service.website_index := index m |})
              (fun acc m => (Service.push_bareUrl m Service.bareUrlRegex acc).2))
    with (ms := ms) (acc := named) as (bare & Heq & Hnd & Hfrom & Hcov).
  - intros m a [= <-]. reflexivity.
  - intros acc m. unfold Service.push_bareUrl. destruct (existsb _ acc); reflexivity.
  - exists bare. split; [exact Heq|]. split; [exact Hnd|]. split.
    + intros site Hs. destruct (Hfrom site Hs) as (Hnew & m & Hm & [= <-]). eauto.
    + intros m Hm. apply Hcov; eauto.
Qed.

Lemma Service_extractWebsites_terminates text fuel :
  length text + 2 <= fuel -> is_Some (Service.extractWebsites fuel text).
Proof.
  intros Hfuel. unfold Service.extractWebsites.
  destruct (while_exec_steady_returns Service.push_website text fuel
              Service.websiteRegex []) as [r1 H1];
    [apply (folds_leaves_regexp _ _ push_website_folds)
    |repeat split; vm_compute; lia | exact Hfuel |].
  rewrite H1. cbn [mbind option_bind].
  destruct (while_exec_steady_returns Service.push_bareUrl text fuel
              Service.bareUrlRegex r1.2) as [r2 H2];
    [apply (folds_leaves_regexp _ _ push_bareUrl_folds)
    |repeat split; vm_compute; lia | exact Hfuel |].
  rewrite H2. simpl. eauto.
Qed.

(** X16.  [extractWebsites] of the analysis service returns for every
    text.  Its array holds first the sites named in context: for every
    match of the phrase pattern ("strony ...", "www ...", "http ...",
    "przeniesienia ..." up to a URL) the first URL inside the matched text,
    with the position of the phrase, so one site per phrase at most.  Then
    come the bare URLs of the text that are not in the array yet, each once:
    every URL that occurs in the text is the [url] of a site of the array. *)
Theorem Service_extractWebsites_returns :
  forall text : jsstr,
    exists named_matches url_matches bare,
      all_matches (length text + 2) Service.websiteRegex text = Some named_matches
      /\ all_matches (length text + 2) Service.bareUrlRegex text = Some url_matches
      /\ let named :=
           omap (fun m =>
                   (fun urlMatch => {| Service.website_url := group_text urlMatch 1;
                                       Service.website_index := index m |})
                   <$> exec1 Service.urlRegex (matched m))
                named_matches in
         Service.extractWebsites (length text + 2) text = Some (named ++ bare)
         /\ NoDup (Service.website_url <$> bare)
         /\ (forall site, site ∈ bare ->
               (Service.website_url site ∉ (Service.website_url <$> named))
               /\ exists m, m ∈ url_matches
                            /\ site = {| Service.website_url := group_text m 1;
                                         Service.website_index := index m |})
         /\ (forall m, m ∈ url_matches ->
               group_text m 1 ∈ (Service.website_url <$> named ++ bare)).
Proof.
  intros text.
  destruct (all_matches_terminates Service.websiteRegex text (length text + 2))
    as [ms1 H1]; [reflexivity | vm_compute; lia | lia |].
  destruct (all_matches_terminates Service.bareUrlRegex text (length text + 2))
    as [ms2 H2]; [reflexivity | vm_compute; lia | lia |].
  set (mk := fun m : Match =>
               (fun urlMatch => {| Service.website_url := group_text urlMatch 1;
                                   Service.website_index := index m |})
               <$> exec1 Service.urlRegex (matched m)).
  set (f1 := fun acc m => (Service.push_website m Service.websiteRegex acc).2).
  set (f2 := fun acc m => (Service.push_bareUrl m Service.bareUrlRegex acc).2).
  assert (forall ms acc, foldl f1 acc ms = acc ++ omap mk ms) as Hfold.
  { clear. induction ms as [|m ms IH]; intros acc; [simpl; rewrite app_nil_r; reflexivity|].
    cbn [foldl]. rewrite IH. cbn [omap list_omap].
    unfold f1, mk, Service.push_website.
    destruct (exec1 Service.urlRegex (matched m)); simpl; [rewrite <- app_assoc|];
      reflexivity. }
  pose proof (Hfold ms1 []) as Hnamed. rewrite app_nil_l in Hnamed.
  destruct (foldl_push_bareUrl ms2 (omap mk ms1)) as (bare & Heq & Hnd & Hfrom & Hcov).
  exists ms1, ms2, bare.
  split; [exact H1|]. split; [exact H2|]. cbv zeta. fold mk.
  split; [|auto].
  unfold Service.extractWebsites.
  pose proof (while_exec_fold_matches _ _ text _ _ [] ms1 push_website_folds H1) as E1.
  apply fmap_snd_Some in E1 as [re1 E1]. rewrite E1. cbn [mbind option_bind snd].
  rewrite (while_exec_fold_matches _ _ text _ _ _ ms2 push_bareUrl_folds H2).
  fold f1 f2. rewrite Hnamed. fold f2 in Heq. rewrite Heq. reflexivity.
Qed.

(** *** [extractDomains] *)

Lemma push_site_domain_folds nameservers :
  folds (Service.push_site_domain nameservers)
    (fun acc m => (Service.push_site_domain nameservers m Service.siteRegex acc).2).
Proof.
  intros m re acc. unfold Service.push_site_domain. destruct (negb _); reflexivity.
Qed.

Lemma Service_find_nameservers_returns text fuel :
  length text + 2 <= fuel ->
  exists ns, Service.find_nameservers fuel text = Some ns /\ NoDup ns.
Proof.
  intros Hfuel. unfold Service.find_nameservers.
  destruct (exec1 Service.nsRegex text) as [nsMatch|]; [|exists []; split; [auto|constructor]].
  set (nsBlock := substring text _ _).
  destruct (while_exec_steady_returns Service.push_nsEntry nsBlock fuel
              Service.nsEntryRegex []) as [r Hr];
    [reflexivity | repeat split; vm_compute; lia | |].
  { pose proof (length_substring text (index nsMatch)
                  (Nat.min (length text) (index nsMatch + 400))) as Hlen.
    fold nsBlock in Hlen. lia. }
  rewrite Hr. exists r.2. split; [reflexivity|].
  eapply (while_exec_invariant (fun acc => NoDup acc)); [|apply NoDup_nil_2|exact Hr].
  intros m re acc Hacc. simpl. apply push_new_NoDup, Hacc.
Qed.

(** X17.  [extractDomains] of the analysis service returns for every text,
    and all its records carry one list of nameservers, which names no
    nameserver twice.  When the text names domains ("domeny x", "domenę x",
    "domain x"), there is one record per occurrence, in the order of the
    text, repeated occurrences included.  When it names none but has
    nameservers, the records are the hosts of the URLs of the text, each
    host once.  Otherwise there is no record. *)
Theorem Service_extractDomains_returns :
  forall text : jsstr,
    exists ns named urls ds,
      Service.find_nameservers (length text + 2) text = Some ns
      /\ all_matches (length text + 2) Service.domainRegex text = Some named
      /\ all_matches (length text + 2) Service.siteRegex text = Some urls
      /\ Service.extractDomains (length text + 2) text = Some ds
      /\ NoDup ns
      /\ Forall (fun d => Service.entry_nameservers d = ns) ds
      /\ (named <> [] \/ ns = [] ->
          ds = (fun m => {| Service.entry_domain := group_text m 1;
                            Service.entry_nameservers := ns;
                            Service.entry_index := index m |}) <$> named)
      /\ (named = [] -> ns <> [] ->
          NoDup (Service.entry_domain <$> ds)
          /\ (forall d, d ∈ ds ->
                exists m, m ∈ urls /\ Service.entry_domain d = group_text m 2
                          /\ Service.entry_index d = index m)
          /\ (forall m, m ∈ urls -> group_text m 2 ∈ (Service.entry_domain <$> ds))).
Proof.
  intros text.
  destruct (Service_find_nameservers_returns text (length text + 2)) as (ns & Hns & Hnd);
    [lia|].
  destruct (all_matches_terminates Service.domainRegex text (length text + 2))
    as [named H1]; [reflexivity | vm_compute; lia | lia |].
  destruct (all_matches_terminates Service.siteRegex text (length text + 2))
    as [urls H2]; [reflexivity | vm_compute; lia | lia |].
  set (entry := fun m => {| Service.entry_domain := group_text m 1;
                            Service.entry_nameservers := ns;
                            Service.entry_index := index m |}).
  set (mk := fun m => Some {| Service.entry_domain := group_text m 2;
                              Service.entry_nameservers := ns;
                              Service.entry_index := index m |}).
  assert (folds (Service.push_explicit ns) (fun acc m => acc ++ [entry m])) as Hexplicit
    by (intros m re acc; reflexivity).
  pose proof (while_exec_fold_matches _ _ text _ _ [] named Hexplicit H1) as E1.
  apply fmap_snd_Some in E1 as [re1 E1]. rewrite foldl_push_all, app_nil_l in E1.
  destruct (foldl_push_fresh Service.entry_domain (fun m => group_text m 2) mk
              (fun acc m => (Service.push_site_domain ns m Service.siteRegex acc).2))
    with (ms := urls) (acc := @nil Service.domainEntry)
    as (added & Heq & Hnd' & Hfrom & Hcov).
  { intros m a [= <-]. reflexivity. }
  { intros acc m. unfold Service.push_site_domain. destruct (existsb _ acc); reflexivity. }
  rewrite app_nil_l in Heq.
  pose proof (while_exec_fold_matches _ _ text _ _ [] urls (push_site_domain_folds ns) H2)
    as E2.
  rewrite Heq in E2.
  assert (Service.extractDomains (length text + 2) text
          = Some (if (0 <? length ns) && (length (entry <$> named) =? 0)
                  then added else entry <$> named)) as Hds.
  { unfold Service.extractDomains. rewrite Hns. cbn [mbind option_bind].
    rewrite E1. cbn [mbind option_bind snd].
    destruct (_ && _) eqn:Hc; [|reflexivity].
    apply andb_true_iff in Hc as [_ Hc]. apply Nat.eqb_eq in Hc.
    destruct (entry <$> named); [|discriminate]. exact E2. }
  eexists ns, named, urls, _. split; [exact Hns|]. split; [exact H1|].
  split; [exact H2|]. split; [exact Hds|]. split; [exact Hnd|].
  rewrite length_fmap.
  destruct named as [|m0 named]; destruct ns as [|n0 ns]; simpl.
  - split; [constructor|]. split; [reflexivity|]. intros _ Hne. congruence.
  - split; [|split; [intros [?|?]; congruence|]].
    + apply Forall_forall. intros d Hd. destruct (Hfrom d Hd) as (_ & m & _ & [= <-]).
      reflexivity.
    + intros _ _. split; [exact Hnd'|]. split.
      * intros d Hd. destruct (Hfrom d Hd) as (_ & m & Hm & [= <-]). eauto.
      * intros m Hm. apply (Hcov m Hm). eauto.
  - split; [|split; [reflexivity | congruence]].
    constructor; [reflexivity|]. apply Forall_fmap, Forall_forall. intros; reflexivity.
  - split; [|split; [reflexivity | congruence]].
    constructor; [reflexivity|]. apply Forall_fmap, Forall_forall. intros; reflexivity.
Qed.

Lemma Service_extractDomains_terminates text fuel :
  length text + 2 <= fuel -> is_Some (Service.extractDomains fuel text).
Proof.
  intros Hfuel. unfold Service.extractDomains.
  destruct (Service_find_nameservers_returns text fuel Hfuel) as (ns & Hns & _).
  rewrite Hns. cbn [mbind option_bind].
  destruct (while_exec_steady_returns (Service.push_explicit ns) text fuel
              Service.domainRegex []) as [r1 H1];
    [reflexivity | repeat split; vm_compute; lia | exact Hfuel |].
  rewrite H1. cbn [mbind option_bind].
  destruct (_ && _); [|eauto].
  destruct (while_exec_steady_returns (Service.push_site_domain ns) text fuel
              Service.siteRegex r1.2) as [r2 H2];
    [apply (folds_leaves_regexp _ _ (push_site_domain_folds ns))
    |repeat split; vm_compute; lia | exact Hfuel |].
  rewrite H2. simpl. eauto.
Qed.

(** *** [extractEmailAccounts] *)

Lemma push_migration_email_folds text servers :
  folds (Service.push_migration_email text servers)
    (fun acc m => if negb (Service.looks_like_login text m)
                     && Service.mentioned_for_migration text m
                  then acc ++ [Service.account_of text servers m] else acc).
Proof.
  intros m re acc. unfold Service.push_migration_email.
  destruct (Service.looks_like_login text m); [reflexivity|].
  destruct (Service.mentioned_for_migration text m); reflexivity.
Qed.

Lemma push_configured_email_folds text servers :
  str_truthy (Service.servers_server servers) = true ->
  folds (Service.push_configured_email text servers)
    (fun acc m => if negb (Service.looks_like_login text m)
                  then acc ++ [Service.account_of text (Some servers) m] else acc).
Proof.
  intros Hs m re acc. unfold Service.push_configured_email, Service.account_of.
  destruct (Service.looks_like_login text m); [reflexivity|].
  rewrite Hs. reflexivity.
Qed.

Lemma Service_extractEmailAccounts_terminates text fuel :
  length text + 2 <= fuel -> is_Some (Service.extractEmailAccounts fuel text).
Proof.
  intros Hfuel. unfold Service.extractEmailAccounts.
  destruct (while_exec_steady_returns
              (Service.push_migration_email text (Service.find_mailServers text))
              text fuel Service.emailRegex []) as [r1 H1];
    [apply (folds_leaves_regexp _ _ (push_migration_email_folds text _))
    |repeat split; vm_compute; lia | exact Hfuel |].
  rewrite H1. cbn [mbind option_bind].
  destruct (Service.find_mailServers text) as [servers|]; [|eauto].
  destruct (length r1.2 =? 0); [|simpl; eauto].
  destruct (str_truthy (Service.servers_server servers)) eqn:Hs; [|simpl; eauto].
  destruct (while_exec_steady_returns (Service.push_configured_email text servers)
              text fuel Service.emailRegex r1.2) as [r2 H2];
    [apply (folds_leaves_regexp _ _ (push_configured_email_folds text _ Hs))
    |repeat split; vm_compute; lia | exact Hfuel |].
  simpl. rewrite H2. simpl. eauto.
Qed.

Lemma filter_filter_and {A} (p q : A -> bool) (l : list A) :
  filter (fun m => q m = true) (filter (fun m => p m = true) l)
  = filter (fun m => p m && q m = true) l.
Proof.
  rewrite list_filter_filter. apply list_filter_iff.
  intros x. rewrite andb_true_iff. tauto.
Qed.

(** The loops of [extractEmailAccounts] in closed form. *)
Lemma Service_extractEmailAccounts_closed_form :
  forall text : jsstr,
    exists ms,
      all_matches (length text + 2) Service.emailRegex text = Some ms
      /\ let servers := Service.find_mailServers text in
         let configured :=
           match servers with
           | Some servers => str_truthy (Service.servers_server servers)
           | None => false
           end in
         let candidates :=
           filter (fun m => negb (Service.looks_like_login text m) = true) ms in
         let mentioned :=
           filter (fun m => Service.mentioned_for_migration text m = true) candidates in
         Service.extractEmailAccounts (length text + 2) text
         = Some (Service.account_of text servers
                 <$> (if (length mentioned =? 0) && configured
                      then candidates else mentioned)).
Proof.
  intros text.
  destruct (all_matches_terminates Service.emailRegex text (length text + 2))
    as [ms Hms]; [reflexivity | vm_compute; lia | lia |].
  exists ms. split; [exact Hms|]. cbv zeta.
  set (servers := Service.find_mailServers text).
  unfold Service.extractEmailAccounts. fold servers.
  pose proof (while_exec_fold_matches _ _ text _ _ [] ms
                (push_migration_email_folds text servers) Hms) as E1.
  apply fmap_snd_Some in E1 as [re1 E1]. rewrite E1. cbn [mbind option_bind snd].
  rewrite (foldl_push (fun m => negb (Service.looks_like_login text m)
                                && Service.mentioned_for_migration text m)), app_nil_l.
  rewrite filter_filter_and, !length_fmap.
  destruct servers as [s|] eqn:Hservers.
  - destruct (length _ =? 0) eqn:Hlen; [|reflexivity].
    destruct (str_truthy (Service.servers_server s)) eqn:Hs; [|reflexivity].
    cbn [andb].
    rewrite (while_exec_fold_matches _ _ text _ _ _ ms
               (push_configured_email_folds text s Hs) Hms).
    rewrite (foldl_push (fun m => negb (Service.looks_like_login text m))).
    apply Nat.eqb_eq in Hlen. apply length_zero_iff_nil in Hlen. rewrite Hlen.
    reflexivity.
  - rewrite andb_false_r. reflexivity.
Qed.

(** X18.  [extractEmailAccounts] of the analysis service returns for every
    text.  Of the addresses of the text it leaves out those with "login",
    "user" or "name" in the 20 characters before them.  If some of the
    others have "migracj", "przeniesieni", "skrzynki" or "pocztow" within
    200 characters, the accounts are exactly those; if none has and the text
    has a mail server configuration, the accounts are all the others;
    without such a configuration there is none.  The configuration is the
    server named in the 800 characters from the first "dane (do)
    poczty"-like heading, with the ports written there; every account
    carries its server and settings, or [null] when there is none, and the
    password found within 200 characters, or the empty string. *)
Theorem Service_extractEmailAccounts_returns :
  forall text : jsstr,
    exists ms,
      all_matches (length text + 2) Service.emailRegex text = Some ms
      /\ let before (m : Match) := substring text (index m - 20) (index m) in
         let around (m : Match) :=
           substring text (index m - 200) (Nat.min (length text) (index m + 200)) in
         let has (s word : jsstr) := includes (toLowerCase s) word in
         let login (m : Match) :=
           has (before m) (js "login") || has (before m) (js "user")
           || has (before m) (js "name") in
         let migration (m : Match) :=
           has (around m) (js "migracj") || has (around m) (js "przeniesieni")
           || has (around m) (js "skrzynki") || has (around m) (js "pocztow") in
         let servers :=
           match exec1 Service.emailConfigRegex text with
           | Some configMatch =>
               let configBlock :=
                 substring text (index configMatch)
                   (Nat.min (length text) (index configMatch + 800)) in
               match exec1 Service.serverRegex configBlock with
               | Some serverMatch =>
                   let settings (re : RegExp) :=
                     {| Service.settings_host := group_text serverMatch 1;
                        Service.settings_portNumber :=
                          (fun m => parseInt (group_text m 1)) <$> exec1 re configBlock;
                        Service.settings_encryption := js "SSL/TLS" |} in
                   Some {| Service.servers_server := group_text serverMatch 1;
                           Service.servers_imapSettings := settings Service.imapPortRegex;
                           Service.servers_smtpSettings := settings Service.smtpPortRegex;
                           Service.servers_popSettings := settings Service.popPortRegex |}
               | None => None
               end
           | None => None
           end in
         let configured :=
           match servers with
           | Some servers => str_truthy (Service.servers_server servers)
           | None => false
           end in
         let account (m : Match) :=
           {| Service.email_email := group_text m 1;
              Service.email_password :=
                match exec1 Service.passwordRegex (around m) with
                | Some passwordMatch => group_text passwordMatch 1
                | None => []
                end;
              Service.email_server :=
                if configured then Service.servers_server <$> servers else None;
              Service.email_imapSettings := Service.servers_imapSettings <$> servers;
              Service.email_smtpSettings := Service.servers_smtpSettings <$> servers;
              Service.email_popSettings := Service.servers_popSettings <$> servers |} in
         let candidates := filter (fun m => login m = false) ms in
         let mentioned := filter (fun m => migration m = true) candidates in
         Service.extractEmailAccounts (length text + 2) text
         = Some (account <$> (if (length mentioned =? 0) && configured
                              then candidates else mentioned)).
Proof.
  intros text.
  destruct (Service_extractEmailAccounts_closed_form text) as (ms & Hms & H).
  exists ms. split; [exact Hms|]. cbv zeta in *. rewrite H. clear H.
  fold (Service.find_mailServers text).
  assert (forall l : list Match,
            filter (fun m => negb (Service.looks_like_login text m) = true) l
            = filter (fun m => Service.looks_like_login text m = false) l) as Hlogin.
  { intros l. apply list_filter_iff. intros m.
    destruct (Service.looks_like_login text m); simpl; split; congruence. }
  rewrite Hlogin. f_equal.
  apply list_fmap_ext. intros _ m _.
  unfold Service.account_of. f_equal.
  destruct (Service.find_mailServers text) as [servers|]; [|reflexivity].
  simpl. destruct (str_truthy (Service.servers_server servers)); reflexivity.
Qed.

(** *** [extractGeneralCredentials] *)

Lemma includes_cons_r c needle : forall hay,
  includes hay (c :: needle) = true -> includes hay needle = true.
Proof.
  induction hay as [|h hay IH]; intros H; simpl in H.
  - discriminate.
  - apply orb_true_iff in H as [H|H].
    + apply andb_true_iff in H as [_ H].
      cbn [includes]. rewrite (includes_starts_with _ _ H). apply orb_true_r.
    + cbn [includes]. rewrite (IH H). apply orb_true_r.
Qed.

(** The password the loop over the logins finds near a login, if any, and
    the credential it makes of them. *)
Lemma push_simpleLogin_step text acc m :
  (Service.push_simpleLogin text m Service.simpleLoginRegex acc).2
  = if existsb (fun cred => jsstr_eqb (Service.general_username cred) (group_text m 1)) acc
    then acc
    else match
           (fun passwordMatch =>
              {| Service.general_username := group_text m 1;
                 Service.general_password := group_text passwordMatch 1;
                 Service.general_system :=
                   Service.system_of (Service.window text (index m) 100 100);
                 Service.general_index := index m |})
           <$> exec1 Service.nearbyPasswordRegex (Service.window text (index m) 50 200)
         with
         | Some cred => acc ++ [cred]
         | None => acc
         end.
Proof.
  unfold Service.push_simpleLogin. destruct (existsb _ acc); [reflexivity|].
  destruct (exec1 _ _); reflexivity.
Qed.

Lemma push_simpleLogin_folds text :
  folds (Service.push_simpleLogin text)
    (fun acc m => (Service.push_simpleLogin text m Service.simpleLoginRegex acc).2).
Proof.
  intros m re acc. unfold Service.push_simpleLogin. destruct (existsb _ acc); [reflexivity|].
  destruct (exec1 _ _); reflexivity.
Qed.

Lemma Service_extractGeneralCredentials_terminates text fuel :
  length text + 2 <= fuel -> is_Some (Service.extractGeneralCredentials fuel text).
Proof.
  intros Hfuel. unfold Service.extractGeneralCredentials.
  destruct (while_exec_steady_returns (Service.push_loginBlock text) text fuel
              Service.loginBlockRegex []) as [r1 H1];
    [reflexivity | repeat split; vm_compute; lia | exact Hfuel |].
  rewrite H1. cbn [mbind option_bind].
  destruct (while_exec_steady_returns (Service.push_simpleLogin text) text fuel
              Service.simpleLoginRegex
              (omap (M:=list) Service.block_credential r1.2)) as [r2 H2];
    [apply (folds_leaves_regexp _ _ (push_simpleLogin_folds text))
    |repeat split; vm_compute; lia | exact Hfuel |].
  rewrite H2. simpl. eauto.
Qed.

(** The loops of [extractGeneralCredentials] in closed form. *)
Lemma Service_extractGeneralCredentials_closed_form :
  forall text : jsstr,
    exists blocks logins later,
      all_matches (length text + 2) Service.loginBlockRegex text = Some blocks
      /\ all_matches (length text + 2) Service.simpleLoginRegex text = Some logins
      /\ let found :=
           omap (M:=list) Service.block_credential (Service.block_of text <$> blocks) in
         Service.extractGeneralCredentials (length text + 2) text = Some (found ++ later)
         /\ NoDup (Service.general_username <$> later)
         /\ (forall cred, cred ∈ later ->
               (Service.general_username cred ∉ (Service.general_username <$> found))
               /\ exists m passwordMatch,
                    m ∈ logins
                    /\ exec1 Service.nearbyPasswordRegex
                         (Service.window text (index m) 50 200) = Some passwordMatch
                    /\ cred = {| Service.general_username := group_text m 1;
                                 Service.general_password := group_text passwordMatch 1;
                                 Service.general_system :=
                                   Service.system_of
                                     (Service.window text (index m) 100 100);
                                 Service.general_index := index m |})
         /\ (forall m, m ∈ logins ->
               is_Some (exec1 Service.nearbyPasswordRegex
                          (Service.window text (index m) 50 200)) ->
               group_text m 1 ∈ (Service.general_username <$> found ++ later)).
Proof.
  intros text.
  destruct (all_matches_terminates Service.loginBlockRegex text (length text + 2))
    as [blocks H1]; [reflexivity | vm_compute; lia | lia |].
  destruct (all_matches_terminates Service.simpleLoginRegex text (length text + 2))
    as [logins H2]; [reflexivity | vm_compute; lia | lia |].
  set (found := omap (M:=list) Service.block_credential (Service.block_of text <$> blocks)).
  set (mk := fun m =>
               (fun passwordMatch =>
                  {| Service.general_username := group_text m 1;
                     Service.general_password := group_text passwordMatch 1;
                     Service.general_system :=
                       Service.system_of (Service.window text (index m) 100 100);
                     Service.general_index := index m |})
               <$> exec1 Service.nearbyPasswordRegex (Service.window text (index m) 50 200)).
  destruct (foldl_push_fresh Service.general_username (fun m => group_text m 1) mk
              (fun acc m => (Service.push_simpleLogin text m Service.simpleLoginRegex acc).2))
    with (ms := logins) (acc := found) as (later & Heq & Hnd & Hfrom & Hcov).
  { intros m a. unfold mk. destruct (exec1 _ _); [intros [= <-]; reflexivity | discriminate]. }
  { intros acc m. apply push_simpleLogin_step. }
  exists blocks, logins, later. split; [exact H1|]. split; [exact H2|]. cbv zeta.
  fold found. split; [|split; [exact Hnd|split]].
  - unfold Service.extractGeneralCredentials.
    assert (folds (Service.push_loginBlock text)
              (fun acc m => acc ++ [Service.block_of text m])) as Hblocks
      by (intros m re acc; reflexivity).
    pose proof (while_exec_fold_matches _ _ text _ _ [] blocks Hblocks H1) as E1.
    apply fmap_snd_Some in E1 as [re1 E1]. rewrite E1. cbn [mbind option_bind snd].
    rewrite foldl_push_all, app_nil_l. fold found.
    rewrite (while_exec_fold_matches _ _ text _ _ _ logins (push_simpleLogin_folds text) H2).
    rewrite Heq. reflexivity.
  - intros cred Hcred. destruct (Hfrom cred Hcred) as (Hnew & m & Hm & Hmk).
    split; [exact Hnew|]. unfold mk in Hmk.
    destruct (exec1 Service.nearbyPasswordRegex _) as [passwordMatch|] eqn:Hp;
      [|discriminate].
    injection Hmk as <-. exists m, passwordMatch. auto.
  - intros m Hm Hsome. apply (Hcov m Hm). unfold mk.
    destruct Hsome as [p ->]. simpl. eauto.
Qed.

(** The label of a login: the test for "cpanel" comes after the test for
    "panel", which every text with "cpanel" passes. *)
Lemma system_of_chain contextText :
  let has (word : jsstr) := includes (toLowerCase contextText) word in
  Service.system_of contextText
  = if has (js "ftp") then js "FTP"
    else if has (js "panel") then js "Panel administracyjny"
    else if has (js "cpsess") then js "cPanel"
    else if has (js "host") then js "Hosting"
    else if has (js "mail") || has (js "poczt") then js "Email"
    else js "Nieokreślony".
Proof.
  intros has. unfold Service.system_of, has.
  destruct (includes _ (js "ftp")); [reflexivity|].
  destruct (includes (toLowerCase contextText) (js "panel")) eqn:Hpanel; [reflexivity|].
  assert (includes (toLowerCase contextText) (js "cpanel") = false) as ->; [|reflexivity].
  destruct (includes (toLowerCase contextText) (js "cpanel")) eqn:Hc; [|reflexivity].
  change (js "cpanel") with (cu "c" :: js "panel") in Hc.
  apply includes_cons_r in Hc. congruence.
Qed.

(** X19.  [extractGeneralCredentials] of the analysis service returns for
    every text.  Its array holds first the credentials of the login blocks,
    the 400 characters from each phrase such as "dane do", "login", "konto"
    or "dostęp": one for each block in which both a user name and a password
    are found, with the system named in the block or "Nieokreślony".  Then
    comes one credential for each further user name of the text that has a
    password within 50 characters before and 200 after it: no user name of
    the first part is repeated in the second, and none occurs twice in the
    second.  The system of such a credential is read from the 100
    characters around the login: "FTP" for "ftp", else "Panel
    administracyjny" for "panel" (so also for "cpanel"), else "cPanel" for
    "cpsess", else "Hosting", "Email" or "Nieokreślony". *)
Theorem Service_extractGeneralCredentials_returns :
  forall text : jsstr,
    exists blocks logins later,
      all_matches (length text + 2) Service.loginBlockRegex text = Some blocks
      /\ all_matches (length text + 2) Service.simpleLoginRegex text = Some logins
      /\ let block (m : Match) :=
           substring text (index m) (Nat.min (length text) (index m + 400)) in
         let block_credential (m : Match) :=
           match exec1 Service.usernameRegex (block m),
                 exec1 Service.nearbyPasswordRegex (block m) with
           | Some usernameMatch, Some passwordMatch =>
               Some {| Service.general_username := group_text usernameMatch 1;
                       Service.general_password := group_text passwordMatch 1;
                       Service.general_system :=
                         match exec1 Service.systemRegex (block m) with
                         | Some systemMatch => group_text systemMatch 1
                         | None => js "Nieokreślony"
                         end;
                       Service.general_index := index m |}
           | _, _ => None
           end in
         let password_near (m : Match) :=
           exec1 Service.nearbyPasswordRegex
             (substring text (index m - 50) (Nat.min (length text) (index m + 200))) in
         let has (m : Match) (word : jsstr) :=
           includes
             (toLowerCase
                (substring text (index m - 100) (Nat.min (length text) (index m + 100))))
             word in
         let system (m : Match) :=
           if has m (js "ftp") then js "FTP"
           else if has m (js "panel") then js "Panel administracyjny"
           else if has m (js "cpsess") then js "cPanel"
           else if has m (js "host") then js "Hosting"
           else if has m (js "mail") || has m (js "poczt") then js "Email"
           else js "Nieokreślony" in
         let found := omap block_credential blocks in
         Service.extractGeneralCredentials (length text + 2) text = Some (found ++ later)
         /\ NoDup (Service.general_username <$> later)
         /\ (forall cred, cred ∈ later ->
               (Service.general_username cred ∉ (Service.general_username <$> found))
               /\ exists m passwordMatch,
                    m ∈ logins
                    /\ password_near m = Some passwordMatch
                    /\ cred = {| Service.general_username := group_text m 1;
                                 Service.general_password := group_text passwordMatch 1;
                                 Service.general_system := system m;
                                 Service.general_index := index m |})
         /\ (forall m, m ∈ logins -> is_Some (password_near m) ->
               group_text m 1 ∈ (Service.general_username <$> found ++ later)).
Proof.
  intros text.
  destruct (Service_extractGeneralCredentials_closed_form text)
    as (blocks & logins & later & H1 & H2 & H).
  exists blocks, logins, later. split; [exact H1|]. split; [exact H2|].
  cbv zeta in *. rewrite omap_fmap in H.
  destruct H as (Hret & Hnd & Hfrom & Hcov).
  split; [exact Hret|]. split; [exact Hnd|]. split; [|exact Hcov].
  intros cred Hcred. destruct (Hfrom cred Hcred) as (Hnew & m & passwordMatch & Hm & Hp & ->).
  split; [exact Hnew|]. exists m, passwordMatch. split; [exact Hm|]. split; [exact Hp|].
  f_equal. apply system_of_chain.
Qed.

(** *** [extractMigrationData] *)

(** X20.  [extractMigrationData], the entry point of the pattern-matching
    extractors of the analysis service, returns for every text, the empty
    text included: each of the four extractors it runs does, since all
    their loops go over RegExp objects with the [g] flag whose matches are
    never empty. *)
Theorem Service_extractMigrationData_returns :
  forall text : jsstr,
    exists ftp web dom mail,
      Service.extractFtpAccounts (length text + 2) text = Some ftp
      /\ Service.extractWebsites (length text + 2) text = Some web
      /\ Service.extractDomains (length text + 2) text = Some dom
      /\ Service.extractEmailAccounts (length text + 2) text = Some mail
      /\ Service.extractMigrationData (length text + 2) text
         = Some {| Service.ftpAccounts := ftp; Service.websitesToMigrate := web;
                   Service.domains := dom; Service.emailAccounts := mail |}.
Proof.
  intros text.
  destruct (Service_extractFtpAccounts_terminates text (length text + 2)) as [ftp Hftp];
    [lia|].
  destruct (Service_extractWebsites_terminates text (length text + 2)) as [web Hweb];
    [lia|].
  destruct (Service_extractDomains_terminates text (length text + 2)) as [dom Hdom];
    [lia|].
  destruct (Service_extractEmailAccounts_terminates text (length text + 2)) as [mail Hmail];
    [lia|].
  exists ftp, web, dom, mail. repeat (split; [assumption|]).
  unfold Service.extractMigrationData. rewrite Hftp, Hweb, Hdom, Hmail. reflexivity.
Qed.

(* ===================================================================== *)
(** ** [detectCmsType] *)
(* ===================================================================== *)

(** X21.  [detectCmsType] looks at the URL before it looks at the text
    around it.  Without a URL ([undefined], [null] or the empty string) the
    answer is [null] whatever the text says.  A URL that holds one of the
    marks of a system (such as "/wp-", "joomla", "/sites/all/") decides the
    answer alone: the text cannot change it.  For every other URL the
    answer depends on the text only. *)
Theorem detectCmsType_url_first :
  forall (url : field jsstr),
    (is_truthy url = false -> forall contextText, detectCmsType url contextText = None)
    /\ (forall cms, detectCmsType url [] = Some cms ->
          forall contextText, detectCmsType url contextText = Some cms)
    /\ (is_truthy url = true -> detectCmsType url [] = None ->
          forall contextText,
            detectCmsType url contextText = detectCmsType (Val (js "/")) contextText).
Proof.
  intros url. split; [|split].
  - intros Hurl contextText. destruct url as [| |u]; try reflexivity.
    unfold detectCmsType. simpl in Hurl. unfold truthy, string_truthy in Hurl.
    rewrite Hurl. reflexivity.
  - intros cms H contextText. destruct url as [| |u]; try discriminate.
    unfold detectCmsType in *. destruct (negb (str_truthy u)); [discriminate|].
    cbv zeta in *.
    repeat match goal with
           | |- context [if ?b || ?c then _ else _] =>
               match b with
               | context [toLowerCase u] => destruct (b || c); [exact H|]
               end
           end.
    discriminate H.
  - intros Hurl H contextText. destruct url as [| |u]; try discriminate.
    unfold detectCmsType in *. simpl in Hurl. unfold truthy, string_truthy in Hurl.
    rewrite Hurl in *. cbn [negb] in *. cbv zeta in *.
    repeat match goal with
           | |- context [if ?b || ?c then _ else _] =>
               match b with
               | context [toLowerCase u] => destruct (b || c); [discriminate H|]
               end
           end.
    reflexivity.
Qed.
